(** * json_go: a UTF-8 decoder and a recursive-descent JSON parser

    Shallow embedding of [utf8.go] and [parser.go].

    - A Go [byte] is a [Byte.byte]; its numeric value is [b2z].
    - A Go [rune] (int32) and an [int64] are [Z], with the wrap-around of
      the fixed-width arithmetic written out ([wrap32], [wrap64]).
    - A Go [int] used as a cursor into a slice is a [nat].
    - A Go [string] is a [string] (a sequence of 8-bit characters).
    - A Go [float64] is a primitive binary64 [float].
    - A function with several results keeps all of them: Go returns the
      value and the cursor also when [err != nil], and callers such as
      [ParseNum] and [ParseArrayLike] read the cursor of a failed [Consume].
    - Loops whose cursor moves by a varying amount, and the mutual
      recursion of the grammar, run on fuel: the result is an [outcome],
      and the theorems show that the fuel handed out by the entry points
      is never exhausted. *)

From Stdlib Require Import ZArith List Lia Floats Uint63 Permutation.
From Stdlib Require Import Strings.Byte.
From stdpp Require Import gmap strings.
Import ListNotations.

#[local] Set Warnings "-inexact-float,-register-all".

(** ** Machine integers *)

(** A [rune] is an [int32]. *)
Abbreviation rune := Z (only parsing).

Definition b2z (b : Byte.byte) : Z := Z.of_N (Byte.to_N b).

(** Two's-complement wrap-around of a signed 32-bit and 64-bit integer. *)
Definition wrap32 (z : Z) : Z := ((z + 2 ^ 31) mod 2 ^ 32 - 2 ^ 31)%Z.
Definition wrap64 (z : Z) : Z := ((z + 2 ^ 63) mod 2 ^ 64 - 2 ^ 63)%Z.

(** ** Outcomes of fuelled code *)

Inductive outcome (A : Type) : Type :=
| Done (a : A)
| Panic
| OutOfFuel.
Arguments Done {A} a.
Arguments Panic {A}.
Arguments OutOfFuel {A}.

#[export] Instance outcome_ret : MRet outcome := fun A a => Done a.
#[export] Instance outcome_bind : MBind outcome := fun A B k m =>
  match m with
  | Done a => k a
  | Panic => Panic
  | OutOfFuel => OutOfFuel
  end.

(** ** utf8.go *)

(** The message of a [DecodingError]; [BufNotEnough req remain] stands for
    [fmt.Sprintf("buf not enough. req: %d, remain: %d", req, remain)]. *)
Inductive DecodingMsg : Type :=
| NoEnoughData            (* "no enough data" *)
| UnexpectedLeadingChar   (* "unexpected leading char" *)
| BadLeadingChar          (* "bad leading char" *)
| BufNotEnough (req remain : nat).

Record DecodingError : Type := mkDecodingError {
  de_pos : nat;
  de_char : Byte.byte;
  de_msg : DecodingMsg
}.

(** The loop [for i := 0; i < numFollowing; i++] of [ReadCode]; [n] counts
    the iterations left. *)
Fixpoint ReadCode_loop (buf : list Byte.byte) (cur n i : nat) (code : rune) : rune :=
  match n with
  | O => code
  | S n' =>
      let code := wrap32 (Z.shiftl code 6) in
      let code := Z.lor code (Z.land (b2z (nth (cur + 1 + i) buf x00)) 0x3f) in
      ReadCode_loop buf cur n' (S i) code
  end.

(** The [switch] on the leading byte: the cursor after the sequence, the
    mask of the payload bits of the leader, and the error. *)
Definition ReadCode_leading (cur : nat) (leading : Byte.byte)
  : nat * Z * option DecodingError :=
  let l := b2z leading in
  if (l <? 0x80)%Z then (cur + 1, 0xff%Z, None)
  else if (l <? 0xc0)%Z then
    (0, 0%Z, Some (mkDecodingError cur leading UnexpectedLeadingChar))
  else if (l <? 0xe0)%Z then (cur + 2, 0x1f%Z, None)
  else if (l <? 0xf0)%Z then (cur + 3, 0x0f%Z, None)
  else if (l <? 0xf8)%Z then (cur + 4, 0x07%Z, None)
  else (0, 0%Z, Some (mkDecodingError cur leading BadLeadingChar)).

Definition ReadCode (buf : list Byte.byte) (cur : nat)
  : rune * nat * option DecodingError :=
  if length buf <=? cur then
    (0%Z, 0, Some (mkDecodingError cur x00 NoEnoughData))
  else
    let leading := nth cur buf x00 in
    let '(next, mask, err) := ReadCode_leading cur leading in
    match err with
    | Some e => (0%Z, next, Some e)
    | None =>
        let numFollowing := next - cur - 1 in
        if length buf - cur <? numFollowing + 1 then
          (0%Z, next,
           Some (mkDecodingError cur leading
                   (BufNotEnough (numFollowing + 1) (length buf - cur))))
        else
          (ReadCode_loop buf cur numFollowing 0 (Z.land (b2z leading) mask),
           next, None)
    end.

(** The loop of [Decode]: [output] is what has been appended so far. *)
Fixpoint Decode_loop (fuel : nat) (input : list Byte.byte) (cur : nat)
    (output : list rune) : outcome (list rune * option DecodingError) :=
  if length input <=? cur then Done (output, None)
  else
    match fuel with
    | O => OutOfFuel
    | S fuel' =>
        let '(code, next, err) := ReadCode input cur in
        match err with
        | Some e => Done (output, Some e)
        | None => Decode_loop fuel' input next (output ++ [code])
        end
    end.

Definition Decode (input : list Byte.byte)
  : outcome (list rune * option DecodingError) :=
  Decode_loop (length input) input 0 [].

Definition DecodeString (input : string)
  : outcome (list rune * option DecodingError) :=
  Decode (String.list_byte_of_string input).

(** ** The UTF-8 bit layout

    The bit layout of RFC 3629 applied to a number, by its magnitude: on a
    Unicode scalar value it is the UTF-8 encoding of that value. It is not
    part of the repository. *)
Definition z2b (z : Z) : Byte.byte :=
  match Byte.of_N (Z.to_N z) with
  | Some b => b
  | None => x00
  end.

Definition utf8_layout_rune (c : rune) : list Byte.byte :=
  if (c <? 0x80)%Z then [z2b c]
  else if (c <? 0x800)%Z then
    [z2b (Z.lor 0xc0 (Z.shiftr c 6));
     z2b (Z.lor 0x80 (Z.land c 0x3f))]
  else if (c <? 0x10000)%Z then
    [z2b (Z.lor 0xe0 (Z.shiftr c 12));
     z2b (Z.lor 0x80 (Z.land (Z.shiftr c 6) 0x3f));
     z2b (Z.lor 0x80 (Z.land c 0x3f))]
  else
    [z2b (Z.lor 0xf0 (Z.shiftr c 18));
     z2b (Z.lor 0x80 (Z.land (Z.shiftr c 12) 0x3f));
     z2b (Z.lor 0x80 (Z.land (Z.shiftr c 6) 0x3f));
     z2b (Z.lor 0x80 (Z.land c 0x3f))].

Definition utf8_layout_runes (cs : list rune) : list Byte.byte :=
  concat (map utf8_layout_rune cs).

Definition is_code_point (c : rune) : Prop := (0 <= c <= 0x10FFFF)%Z.

(** ** Go conversions used by parser.go

    [string(val)] for [val : []rune] concatenates the UTF-8 encodings of
    the runes; a rune that is no Unicode scalar value (negative, above
    0x10FFFF, or a surrogate) is converted as U+FFFD. *)
Definition go_valid_rune (r : rune) : bool :=
  (0 <=? r)%Z && (r <=? 0x10FFFF)%Z && negb ((0xD800 <=? r)%Z && (r <=? 0xDFFF)%Z).

(** The reference encoder of the round-trip property, Go's own
    ([utf8.AppendRune], and [string(val)] below): a Unicode scalar value
    is written in the layout above, and U+FFFD is written in place of any
    other rune, so that the output is always valid UTF-8. *)
Definition utf8_encode_rune (c : rune) : list Byte.byte :=
  utf8_layout_rune (if go_valid_rune c then c else 0xFFFD%Z).

Definition utf8_encode (cs : list rune) : list Byte.byte :=
  concat (map utf8_encode_rune cs).

Definition go_string_of_runes (val : list rune) : string :=
  String.string_of_list_byte
    (concat (map (fun r => utf8_layout_rune (if go_valid_rune r then r else 0xFFFD%Z)) val)).

(** [[]rune(tok)] for an ASCII [tok], one code point a byte: the tokens
    of the grammar are all ASCII. (On other strings Go decodes UTF-8, which
    this conversion does not.) *)
Definition go_runes_of_string (tok : string) : list rune :=
  map (fun a => Z.of_N (Ascii.N_of_ascii a)) (String.list_ascii_of_string tok).

(** [float64(x)] for an [int64] [x]: rounding to nearest, ties to even.
    [of_uint63] rounds so on 63-bit magnitudes; the magnitude of the least
    [int64] is a power of two. *)
Definition float_of_int64 (z : Z) : float :=
  if (z <? 0)%Z then
    if (z =? - 2 ^ 63)%Z then (- 0x1p+63)%float
    else (- PrimFloat.of_uint63 (Uint63.of_Z (- z)))%float
  else PrimFloat.of_uint63 (Uint63.of_Z z).

(** [math.Pow10] of the Go standard library: two table lookups. *)
Definition pow10tab : list float :=
  [1e00; 1e01; 1e02; 1e03; 1e04; 1e05; 1e06; 1e07; 1e08; 1e09;
   1e10; 1e11; 1e12; 1e13; 1e14; 1e15; 1e16; 1e17; 1e18; 1e19;
   1e20; 1e21; 1e22; 1e23; 1e24; 1e25; 1e26; 1e27; 1e28; 1e29;
   1e30; 1e31]%float.
Definition pow10postab32 : list float :=
  [1e00; 1e32; 1e64; 1e96; 1e128; 1e160; 1e192; 1e224; 1e256; 1e288]%float.
Definition pow10negtab32 : list float :=
  [1e-00; 1e-32; 1e-64; 1e-96; 1e-128; 1e-160; 1e-192; 1e-224; 1e-256;
   1e-288; 1e-320]%float.

Definition Pow10 (n : Z) : float :=
  if ((0 <=? n) && (n <=? 308))%Z then
    (nth (Z.to_nat (n / 32)) pow10postab32 0 * nth (Z.to_nat (n mod 32)) pow10tab 0)%float
  else if ((-323 <=? n) && (n <=? 0))%Z then
    (nth (Z.to_nat ((- n) / 32)) pow10negtab32 0 / nth (Z.to_nat ((- n) mod 32)) pow10tab 0)%float
  else if (0 <? n)%Z then infinity
  else 0%float.

(** ** parser.go: values and errors *)

(** [JsonValue] is [interface{}]: the dynamic types stored in it are
    [nil], [bool], [int64], [float64], [string], [JsonArray], [JsonMap]
    and, between [ParseKeyValue] and [ParseMap], [JsonKeyValue]. *)
Inductive JsonValue : Type :=
| JNull
| JBool (b : bool)
| JInt (z : Z)
| JFloat (f : float)
| JString (s : string)
| JArray (items : list JsonValue)
| JObject (jmap : gmap string JsonValue)
| JKeyValue (key : string) (value : JsonValue).

(** The message of a [ParseError]; a constructor with arguments stands for
    the [fmt.Sprintf] of the source with these arguments. *)
Inductive ParseMsg : Type :=
| ExpectTok (tok : string)             (* "expect %q" *)
| NotTerminated                        (* "not terminated" *)
| ExpectSomethingGotEOS                (* "expect something, got EOS" *)
| BadChar (ch : rune)                  (* "bad char: '%c' (%#x)" *)
| ExpectHexGot (ch : rune)             (* "expect hex, got '%c' (%#x)" *)
| Expect4HexDigit                      (* "expect 4 hex digit" *)
| StringNotTerminatedExpectEscape      (* "string not terminated, expect escape" *)
| BadEscapeChar (ch : rune)            (* "bad escape char: '%c' (%#x)" *)
| UnescapedChar (ch : rune)            (* "unescaped char: '%c' (%#x)" *)
| StringNotTerminated                  (* "string not terminated" *)
| ExpectDigits                         (* "expect digits" *)
| ExpectsDigitsGotEOS                  (* "expects digits, got EOS" *)
| ExpectTrueFalseNull                  (* "expect true|false|null" *)
| ExpectCloseOrComma (close : string). (* "expect '%s' or ','" *)

Record ParseError : Type := mkParseError {
  pe_pos : nat;
  pe_msg : ParseMsg
}.

(** What a [ParseFunc] returns: [(value, next, err)]. *)
Definition parsed : Type := JsonValue * nat * option ParseError.
Definition ParseFunc : Type := list rune -> nat -> outcome parsed.

(** An error of [Parse]: a [*DecodingError] or a [*ParseError]. *)
Inductive error : Type :=
| EDecoding (e : DecodingError)
| EParse (e : ParseError).

(** The tokens of the grammar. *)
Definition tok_quote : string := String (Ascii.ascii_of_nat 34) EmptyString.
Definition tok_minus : string := "-".
Definition tok_plus : string := "+".
Definition tok_colon : string := ":".
Definition tok_comma : string := ",".

(** ** parser.go: the lexical layer *)

Definition is_space (ch : rune) : bool :=
  ((ch =? 0x20) || (ch =? 0x09) || (ch =? 0x0a) || (ch =? 0x0d))%Z.

(** [for i := cur; i < len(input); i++]; [n] bounds the iterations left. *)
Fixpoint SkipSpace_loop (input : list rune) (n i : nat) : nat :=
  match n with
  | O => length input
  | S n' =>
      match input !! i with
      | None => length input
      | Some ch => if is_space ch then SkipSpace_loop input n' (S i) else i
      end
  end.

Definition SkipSpace (input : list rune) (cur : nat) : nat :=
  SkipSpace_loop input (length input - cur) cur.

(** [for i, ch := range tokrune]: the index of the first mismatch. The
    reads [input[next+i]] are in range after the length check of [Consume]. *)
Fixpoint Consume_loop (input : list rune) (next i : nat) (tokrune : list rune)
  : option nat :=
  match tokrune with
  | [] => None
  | ch :: rest =>
      if (nth (next + i) input 0 =? ch)%Z
      then Consume_loop input next (S i) rest
      else Some i
  end.

Definition Consume (input : list rune) (cur : nat) (tok : string)
  : nat * option ParseError :=
  let next := SkipSpace input cur in
  let tokrune := go_runes_of_string tok in
  if length input - next <? length tokrune then
    (next, Some (mkParseError next (ExpectTok tok)))
  else
    match Consume_loop input next 0 tokrune with
    | Some i => (next, Some (mkParseError (next + i) (ExpectTok tok)))
    | None => (next + length tokrune, None)
    end.

Definition IsNoEscape (ch : rune) : bool :=
  ((0x23 <=? ch) && (ch <=? 0x5b) || (0x5d <=? ch) && (ch <=? 0x10ffff)
   || (ch =? 0x20) || (ch =? 0x21))%Z.

(** [input[cur]] is in range: [ScanHex] checks the length before it calls. *)
Definition Hex2Num (input : list rune) (cur : nat) : rune * option ParseError :=
  let ch := nth cur input 0%Z in
  if ((0x30 <=? ch) && (ch <=? 0x39))%Z then ((ch - 0x30)%Z, None)
  else if ((0x61 <=? ch) && (ch <=? 0x66))%Z then ((ch - 0x61 + 10)%Z, None)
  else if ((0x41 <=? ch) && (ch <=? 0x46))%Z then ((ch - 0x41 + 10)%Z, None)
  else (0%Z, Some (mkParseError cur (ExpectHexGot ch))).

(** [for i := 0; i < 4; i++]; [n] counts the iterations left. *)
Fixpoint ScanHex_loop (input : list rune) (cur n i : nat) (value : rune)
  : rune * option ParseError :=
  match n with
  | O => (value, None)
  | S n' =>
      let '(d, err) := Hex2Num input (cur + i) in
      match err with
      | Some e => (value, Some e)
      | None =>
          let value := wrap32 (Z.shiftl value 4) in
          let value := Z.lor value d in
          ScanHex_loop input cur n' (S i) value
      end
  end.

Definition ScanHex (input : list rune) (cur : nat) : rune * option ParseError :=
  if length input <? cur + 4 then
    (0%Z, Some (mkParseError cur Expect4HexDigit))
  else ScanHex_loop input cur 4 0 0%Z.

Definition ParseEscape (input : list rune) (cur : nat)
  : rune * nat * option ParseError :=
  let next := cur in
  match input !! next with
  | None => (0%Z, next, Some (mkParseError next StringNotTerminatedExpectEscape))
  | Some ch =>
      if ((ch =? 0x22) || (ch =? 0x5c) || (ch =? 0x2f))%Z then (ch, S next, None)
      else if (ch =? 0x62)%Z (* b *) then (0x08%Z, S next, None)
      else if (ch =? 0x66)%Z (* f *) then (0x0c%Z, S next, None)
      else if (ch =? 0x6e)%Z (* n *) then (0x0a%Z, S next, None)
      else if (ch =? 0x72)%Z (* r *) then (0x0d%Z, S next, None)
      else if (ch =? 0x74)%Z (* t *) then (0x09%Z, S next, None)
      else if (ch =? 0x75)%Z (* u *) then
        let next := S next in
        let '(value, err) := ScanHex input next in
        match err with
        | Some e => (value, next, Some e)
        | None => (value, S (next + 3), None)
        end
      else (0%Z, next, Some (mkParseError next (BadEscapeChar ch)))
  end.

(** ** parser.go: strings *)

(** The loop [for next < len(input)] of [ParseString]; an iteration moves
    the cursor by one code point or by an escape sequence. *)
Fixpoint ParseString_loop (fuel : nat) (input : list rune) (next : nat)
    (val : list rune) : outcome (string * nat * option ParseError) :=
  match fuel with
  | O => OutOfFuel
  | S fuel' =>
      match input !! next with
      | None => Done (EmptyString, next, Some (mkParseError next StringNotTerminated))
      | Some ch =>
          if (ch =? 0x22)%Z then Done (go_string_of_runes val, S next, None)
          else if (ch =? 0x5c)%Z then
            let '(ch', next', err) := ParseEscape input (S next) in
            match err with
            | Some e => Done (EmptyString, next', Some e)
            | None => ParseString_loop fuel' input next' (val ++ [ch'])
            end
          else if IsNoEscape ch then
            ParseString_loop fuel' input (S next) (val ++ [ch])
          else Done (EmptyString, next, Some (mkParseError next (UnescapedChar ch)))
      end
  end.

Definition ParseString (input : list rune) (cur : nat)
  : outcome (string * nat * option ParseError) :=
  let '(next, err) := Consume input cur tok_quote in
  match err with
  | Some e => Done (EmptyString, next, Some e)
  | None => ParseString_loop (S (length input)) input next []
  end.

(** ** parser.go: numbers *)

Definition IsDigit (ch : rune) : bool := ((0x30 <=? ch) && (ch <=? 0x39))%Z.

(** [i < len(input) && p(input[i])]. *)
Definition at_is (input : list rune) (i : nat) (p : rune -> bool) : bool :=
  match input !! i with
  | Some ch => p ch
  | None => false
  end.

(** [for next = cur; next < len(input) && IsDigit(input[next]); next++];
    [n] bounds the iterations left. The subtraction [input[next] - '0'] is
    between 0 and 9 under the loop condition. *)
Fixpoint ScanInt_loop (input : list rune) (n next : nat) (value : Z) : Z * nat :=
  match n with
  | O => (value, next)
  | S n' =>
      match input !! next with
      | None => (value, next)
      | Some ch =>
          if IsDigit ch then
            let value := wrap64 (value * 10) in
            let value := wrap64 (value + (ch - 0x30)) in
            ScanInt_loop input n' (S next) value
          else (value, next)
      end
  end.

Definition ScanInt (input : list rune) (cur : nat) : Z * nat * option ParseError :=
  if negb (at_is input cur IsDigit) then
    (0%Z, 0, Some (mkParseError cur ExpectDigits))
  else
    let '(value, next) := ScanInt_loop input (length input - cur) cur 0%Z in
    (value, next, None).

(** The integer part of [ParseNum]; [ch0] is [input[next]]. *)
Definition ParseNum_whole (input : list rune) (next : nat) (ch0 : rune)
  : Z * nat * option ParseError :=
  if (ch0 =? 0x30)%Z then (0%Z, S next, None) else ScanInt input next.

(** The loop over the digits after the point. *)
Fixpoint ParseNum_frac_loop (input : list rune) (n next : nat) (frac scale : float)
  : float * nat :=
  match n with
  | O => (frac, next)
  | S n' =>
      match input !! next with
      | None => (frac, next)
      | Some ch =>
          if IsDigit ch then
            let frac := (frac + PrimFloat.of_uint63 (Uint63.of_Z (ch - 0x30)) / scale)%float in
            let scale := (scale * 10)%float in
            ParseNum_frac_loop input n' (S next) frac scale
          else (frac, next)
      end
  end.

(** The fractional part of [ParseNum]: whether there is one, [frac], the
    cursor and the error. *)
Definition ParseNum_frac (input : list rune) (next : nat)
  : bool * float * nat * option ParseError :=
  if at_is input next (Z.eqb 0x2e) then
    let next := S next in
    if negb (at_is input next IsDigit) then
      (true, 0%float, next, Some (mkParseError next ExpectDigits))
    else
      let '(frac, next) :=
        ParseNum_frac_loop input (length input - next) next 0%float 10%float in
      (true, frac, next, None)
  else (false, 0%float, next, None).

(** [for sign, val := range map[string]bool{"+": false, "-": true}]: the
    entries in the order [signs] in which the map yields them. *)
Fixpoint ParseNum_sign_loop (signs : list (string * bool)) (input : list rune)
    (next : nat) (expneg : bool) : nat * bool :=
  match signs with
  | [] => (next, expneg)
  | (sign, val) :: rest =>
      let '(next, err) := Consume input next sign in
      match err with
      | None => (next, val)
      | Some _ => ParseNum_sign_loop rest input next expneg
      end
  end.

(** The exponent part of [ParseNum]: [hasexp], [expnum], the cursor and the
    error. *)
Definition ParseNum_exp (signs : list (string * bool)) (input : list rune)
    (next : nat) : bool * Z * nat * option ParseError :=
  if at_is input next (fun ch => (ch =? 0x65) || (ch =? 0x45))%Z then
    let next := S next in
    let '(next, expneg) := ParseNum_sign_loop signs input next false in
    let '(expnum, next, err) := ScanInt input next in
    match err with
    | Some e => (true, expnum, next, Some e)
    | None => (true, if expneg then wrap64 (- expnum) else expnum, next, None)
    end
  else (false, 0%Z, next, None).

(** The value of a literal, from what was read. *)
Definition ParseNum_value (neg : bool) (whole : Z) (isfloat : bool) (frac : float)
    (hasexp : bool) (expnum : Z) : JsonValue :=
  if negb isfloat then
    if neg then JInt (wrap64 (- whole)) else JInt whole
  else
    let fval := float_of_int64 whole in
    let fval := (fval + frac)%float in
    let fval := if hasexp then (fval * Pow10 expnum)%float else fval in
    let fval := if neg then (- fval)%float else fval in
    JFloat fval.

Definition ParseNum_ord (signs : list (string * bool)) (input : list rune)
    (cur : nat) : parsed :=
  let '(next, suberr) := Consume input cur tok_minus in
  let neg := match suberr with None => true | Some _ => false end in
  match input !! next with
  | None => (JNull, next, Some (mkParseError next ExpectsDigitsGotEOS))
  | Some ch0 =>
      let '(whole, next, err) := ParseNum_whole input next ch0 in
      match err with
      | Some e => (JNull, next, Some e)
      | None =>
          let '(hasfrac, frac, next, err) := ParseNum_frac input next in
          match err with
          | Some e => (JNull, next, Some e)
          | None =>
              let '(hasexp, expnum, next, err) := ParseNum_exp signs input next in
              match err with
              | Some e => (JNull, next, Some e)
              | None =>
                  (ParseNum_value neg whole (hasfrac || hasexp) frac hasexp expnum,
                   next, None)
              end
          end
      end
  end.

(** The map literal of the exponent sign, in one order. *)
Definition sign_literals : list (string * bool) :=
  [(tok_plus, false); (tok_minus, true)].

Definition ParseNum (input : list rune) (cur : nat) : parsed :=
  ParseNum_ord sign_literals input cur.

(** ** parser.go: true, false, null *)

(** [for literal, val := range map[string]JsonValue{...}]: the entries in
    the order [literals] in which the map yields them; [next] is the result
    variable, read after the loop. *)
Fixpoint ParseBoolNull_loop (literals : list (string * JsonValue))
    (input : list rune) (cur next : nat) : parsed :=
  match literals with
  | [] => (JNull, next, Some (mkParseError next ExpectTrueFalseNull))
  | (literal, val) :: rest =>
      let '(next, suberr) := Consume input cur literal in
      match suberr with
      | None => (val, next, None)
      | Some _ => ParseBoolNull_loop rest input cur next
      end
  end.

Definition ParseBoolNull_ord (literals : list (string * JsonValue))
    (input : list rune) (cur : nat) : parsed :=
  ParseBoolNull_loop literals input cur 0.

Definition bool_null_literals : list (string * JsonValue) :=
  [("true", JBool true); ("false", JBool false); ("null", JNull)].

Definition ParseBoolNull (input : list rune) (cur : nat) : parsed :=
  ParseBoolNull_ord bool_null_literals input cur.

(** ** parser.go: arrays, objects and values *)

(** The loop [for { ... }] of [ParseArrayLike]; [close] is [bracket[1]]. *)
Fixpoint ParseArrayLike_loop (fuel : nat) (itemParser : ParseFunc) (close : string)
    (input : list rune) (next : nat) (arr : list JsonValue) : outcome parsed :=
  match fuel with
  | O => OutOfFuel
  | S fuel' =>
      '(subval, next, err) ← itemParser input next;
      match err with
      | Some e => Done (JNull, next, Some e)
      | None =>
          let arr := arr ++ [subval] in
          let '(next, suberr) := Consume input next tok_comma in
          match suberr with
          | None => ParseArrayLike_loop fuel' itemParser close input next arr
          | Some _ =>
              let '(next, suberr) := Consume input next close in
              match suberr with
              | Some _ =>
                  Done (JNull, next, Some (mkParseError next (ExpectCloseOrComma close)))
              | None => Done (JArray arr, next, None)
              end
          end
      end
  end.

Definition ParseArrayLike (fuel : nat) (input : list rune) (cur : nat)
    (itemParser : ParseFunc) (bracket : string * string) : outcome parsed :=
  let '(next, err) := Consume input cur (fst bracket) in
  match err with
  | Some e => Done (JNull, next, Some e)
  | None =>
      let '(next, suberr) := Consume input next (snd bracket) in
      match suberr with
      | None => Done (JArray [], next, None)
      | Some _ => ParseArrayLike_loop fuel itemParser (snd bracket) input next []
      end
  end.

(** [ParseKeyValue], with the [ParseAny] it calls as [parseAny]. *)
Definition ParseKeyValue (parseAny : ParseFunc) (input : list rune) (cur : nat)
  : outcome parsed :=
  '(key, next, err) ← ParseString input cur;
  match err with
  | Some e => Done (JNull, next, Some e)
  | None =>
      let '(next, err) := Consume input next tok_colon in
      match err with
      | Some e => Done (JNull, next, Some e)
      | None =>
          '(value, next, err) ← parseAny input next;
          match err with
          | Some e => Done (JNull, next, Some e)
          | None => Done (JKeyValue key value, next, None)
          end
      end
  end.

(** [for _, item := range value.(JsonArray)]: [None] when the type
    assertion [item.(JsonKeyValue)] fails. *)
Fixpoint ParseMap_convert (items : list JsonValue) (jmap : gmap string JsonValue)
  : option (gmap string JsonValue) :=
  match items with
  | [] => Some jmap
  | JKeyValue key value :: rest => ParseMap_convert rest (<[key := value]> jmap)
  | _ :: _ => None
  end.

Definition ParseMap (fuel : nat) (parseAny : ParseFunc) (input : list rune)
    (cur : nat) : outcome parsed :=
  '(value, next, err) ← ParseArrayLike fuel input cur (ParseKeyValue parseAny) ("{", "}");
  match err with
  | Some e => Done (value, next, Some e)
  | None =>
      match value with
      | JArray items =>
          match ParseMap_convert items ∅ with
          | Some jmap => Done (JObject jmap, next, None)
          | None => Panic
          end
      | _ => Panic
      end
  end.

Definition ParseArray (fuel : nat) (parseAny : ParseFunc) (input : list rune)
    (cur : nat) : outcome parsed :=
  ParseArrayLike fuel input cur parseAny ("[", "]").

Fixpoint ParseAny (fuel : nat) (input : list rune) (cur : nat) : outcome parsed :=
  match fuel with
  | O => OutOfFuel
  | S fuel' =>
      let next := SkipSpace input cur in
      match input !! next with
      | None => Done (JNull, next, Some (mkParseError next ExpectSomethingGotEOS))
      | Some ch =>
          if (ch =? 0x5b)%Z then ParseArray fuel' (ParseAny fuel') input next
          else if (ch =? 0x7b)%Z then ParseMap fuel' (ParseAny fuel') input next
          else if (ch =? 0x22)%Z then
            '(value, next, err) ← ParseString input next;
            Done (JString value, next, err)
          else if (IsDigit ch || (ch =? 0x2d))%Z then Done (ParseNum input next)
          else if ((ch =? 0x74) || (ch =? 0x66) || (ch =? 0x6e))%Z then
            Done (ParseBoolNull input next)
          else Done (JNull, next, Some (mkParseError next (BadChar ch)))
      end
  end.

(** The fuel of a top-level parse: one more than the code points. *)
Definition ParseRunes (input : list rune) : outcome (JsonValue * option ParseError) :=
  '(value, next, err) ← ParseAny (S (length input)) input 0;
  match err with
  | Some e => Done (value, Some e)
  | None =>
      let next := SkipSpace input next in
      if bool_decide (next ≠ length input)
      then Done (value, Some (mkParseError next NotTerminated))
      else Done (value, None)
  end.

Definition Parse (input : string) : outcome (JsonValue * option error) :=
  '(decoded, err) ← DecodeString input;
  match err with
  | Some e => Done (JNull, Some (EDecoding e))
  | None =>
      '(value, err) ← ParseRunes decoded;
      Done (value, option_map EParse err)
  end.

(** ** Specification-side definitions for the decoder *)

(** The sequence length a leading byte announces, by its high bits. *)
Definition has_prefix (b : Byte.byte) (mask pattern : Z) : bool :=
  (Z.land (b2z b) mask =? pattern)%Z.

Definition utf8_sequence_length (b : Byte.byte) : option nat :=
  if has_prefix b 0x80 0x00 then Some 1
  else if has_prefix b 0xe0 0xc0 then Some 2
  else if has_prefix b 0xf0 0xe0 then Some 3
  else if has_prefix b 0xf8 0xf0 then Some 4
  else None.

Definition payload_mask (n : nat) : Z :=
  match n with
  | 1 => 0xff%Z
  | 2 => 0x1f%Z
  | 3 => 0x0f%Z
  | _ => 0x07%Z
  end.

(** One step of the accumulation of [ReadCode]: the low six bits of a
    following byte, whatever its high bits. *)
Definition fold_code (code : rune) (c : Byte.byte) : rune :=
  Z.lor (Z.shiftl code 6) (Z.land (b2z c) 0x3f).

(** ** Specification-side definitions for the parser *)

(** The set of code points a string may hold unescaped, as the
    specification lists it. *)
Definition in_no_escape_set (ch : rune) : Prop :=
  (0x23 <= ch <= 0x5B \/ 0x5D <= ch <= 0x10FFFF \/ ch = 0x20 \/ ch = 0x21)%Z.

(** A literal has a fractional part or an exponent when one of its code
    points, between [start] and [next], is a point or an exponent marker. *)
Definition is_frac_exp_marker (ch : rune) : bool :=
  ((ch =? 0x2e) || (ch =? 0x65) || (ch =? 0x45))%Z.

Definition literal_has_frac_or_exp (input : list rune) (start next : nat) : Prop :=
  exists (i : nat) (ch : rune),
    start <= i < next /\ input !! i = Some ch /\ is_frac_exp_marker ch = true.

(** [Consume] returns an error. *)
Definition consume_fails (input : list rune) (cur : nat) (tok : string) : Prop :=
  exists next e, Consume input cur tok = (next, Some e).

(** A parse function that, when it returns without error, has moved the
    cursor strictly forward and not past the end of the input. *)
Definition advancing (p : ParseFunc) (input : list rune) : Prop :=
  forall (cur : nat) (value : JsonValue) (next : nat),
    p input cur = Done (value, next, None) -> cur < next <= length input.

(** A value that is a [JsonKeyValue]. *)
Definition is_key_value (v : JsonValue) : Prop :=
  exists key value, v = JKeyValue key value.

(** A text between quotes. *)
Definition quoted (s : string) : string := tok_quote +:+ s +:+ tok_quote.

(** A Unicode scalar value: a code point that is no surrogate. *)
Definition is_scalar_value (c : rune) : Prop :=
  is_code_point c /\ ~ (0xD800 <= c <= 0xDFFF)%Z.

(** ** Specification-side definitions for further properties *)

(** A decoding error moved by [k] bytes. *)
Definition shift_DecodingError (k : nat) (e : DecodingError) : DecodingError :=
  mkDecodingError (k + de_pos e) (de_char e) (de_msg e).

(** The layout of [n] bytes (2, 3 or 4) filled with the bits of [c],
    whatever the magnitude of [c]: the encodings that are longer than
    needed are among them. *)
Definition utf8_layout (n : nat) (c : Z) : list Byte.byte :=
  match n with
  | 2 => [z2b (Z.lor 0xc0 (Z.shiftr c 6));
          z2b (Z.lor 0x80 (Z.land c 0x3f))]
  | 3 => [z2b (Z.lor 0xe0 (Z.shiftr c 12));
          z2b (Z.lor 0x80 (Z.land (Z.shiftr c 6) 0x3f));
          z2b (Z.lor 0x80 (Z.land c 0x3f))]
  | _ => [z2b (Z.lor 0xf0 (Z.shiftr c 18));
          z2b (Z.lor 0x80 (Z.land (Z.shiftr c 12) 0x3f));
          z2b (Z.lor 0x80 (Z.land (Z.shiftr c 6) 0x3f));
          z2b (Z.lor 0x80 (Z.land c 0x3f))]
  end.

(** The value of a hexadecimal digit. *)
Definition hex_digit (ch : Z) : option Z :=
  if ((0x30 <=? ch) && (ch <=? 0x39))%Z then Some (ch - 0x30)%Z
  else if ((0x61 <=? ch) && (ch <=? 0x66))%Z then Some (ch - 0x61 + 10)%Z
  else if ((0x41 <=? ch) && (ch <=? 0x46))%Z then Some (ch - 0x41 + 10)%Z
  else None.

(** The code point of an escape of one character. *)
Definition simple_escape (ch : Z) : option Z :=
  if ((ch =? 0x22) || (ch =? 0x5c) || (ch =? 0x2f))%Z then Some ch
  else if (ch =? 0x62)%Z then Some 0x08%Z
  else if (ch =? 0x66)%Z then Some 0x0c%Z
  else if (ch =? 0x6e)%Z then Some 0x0a%Z
  else if (ch =? 0x72)%Z then Some 0x0d%Z
  else if (ch =? 0x74)%Z then Some 0x09%Z
  else None.

(** The number that a run of decimal digits denotes. *)
Definition digits_value (ds : list Z) : Z :=
  fold_left (fun v ch => (v * 10 + (ch - 0x30))%Z) ds 0%Z.

(** The first code point of [rest], if any, satisfies [p]. *)
Definition head_is (rest : list Z) (p : Z -> bool) : bool :=
  match rest with
  | [] => false
  | ch :: _ => p ch
  end.

(** The values a parse hands to its caller: no [JsonKeyValue] at any
    depth, integers within [int64], strings and keys that are conversions
    of code points. *)
Inductive plain_value : JsonValue -> Prop :=
| plain_null : plain_value JNull
| plain_bool (b : bool) : plain_value (JBool b)
| plain_int (z : Z) : (- 2 ^ 63 <= z < 2 ^ 63)%Z -> plain_value (JInt z)
| plain_float (f : float) : plain_value (JFloat f)
| plain_string (val : list Z) : plain_value (JString (go_string_of_runes val))
| plain_array (items : list JsonValue) :
    Forall plain_value items -> plain_value (JArray items)
| plain_object (jmap : gmap string JsonValue) :
    (forall key value, jmap !! key = Some value ->
       (exists val, key = go_string_of_runes val) /\ plain_value value) ->
    plain_value (JObject jmap).

(** A pair whose key is a conversion of code points and whose value is
    plain. *)
Definition plain_key_value (v : JsonValue) : Prop :=
  exists val value, v = JKeyValue (go_string_of_runes val) value /\ plain_value value.

(** [Decode] from a cursor on, with what has been appended so far: the
    loop of [Decode] with the fuel that the distance to the end needs. *)
Definition Decode_from (input : list Byte.byte) (cur : nat) (output : list Z)
  : outcome (list Z * option DecodingError) :=
  Decode_loop (length input - cur) input cur output.

(** The value of four hexadecimal digits. *)
Definition hex4_value (q : list Z) : option Z :=
  match q with
  | [h0; h1; h2; h3] =>
      match hex_digit h0, hex_digit h1, hex_digit h2, hex_digit h3 with
      | Some d0, Some d1, Some d2, Some d3 =>
          Some (((d0 * 16 + d1) * 16 + d2) * 16 + d3)%Z
      | _, _, _, _ => None
      end
  | _ => None
  end.

(** A code point of the surrogate range. *)
Definition is_surrogate (v : Z) : Prop := (0xD800 <= v <= 0xDFFF)%Z.

(** A parse function whose errors carry a position within the input, its
    length included. *)
Definition bounded_errors (p : ParseFunc) (input : list rune) : Prop :=
  forall (cur : nat) (value : JsonValue) (next : nat) (e : ParseError),
    p input cur = Done (value, next, Some e) -> pe_pos e <= length input.

(** The items of a bracketed list from the cursor [next] on, as the
    grammar has them: an item, then either a comma and more items, or the
    closing token; the last argument is the cursor after the closing
    token. *)
Inductive array_items (itemParser : ParseFunc) (close : string) (input : list rune)
  : nat -> list JsonValue -> nat -> Prop :=
| array_items_last (next : nat) (v : JsonValue) (n1 n2 : nat) :
    itemParser input next = Done (v, n1, None) ->
    consume_fails input n1 tok_comma ->
    Consume input n1 close = (n2, None) ->
    array_items itemParser close input next [v] n2
| array_items_more (next : nat) (v : JsonValue) (n1 n2 : nat)
    (items : list JsonValue) (n3 : nat) :
    itemParser input next = Done (v, n1, None) ->
    Consume input n1 tok_comma = (n2, None) ->
    array_items itemParser close input n2 items n3 ->
    array_items itemParser close input next (v :: items) n3.

(** A parse error moved by [k] code points. *)
Definition shift_ParseError (k : nat) (e : ParseError) : ParseError :=
  mkParseError (k + pe_pos e) (pe_msg e).

(** The result [r'] is the result [r] moved by [k] code points: the same
    value, and the cursor of a success or the position of an error [k]
    further. The cursor that comes with an error is not compared: no
    caller reads it. *)
Definition shifted (k : nat) (r r' : outcome parsed) : Prop :=
  match r, r' with
  | Done (v, n, None), Done (v', n', None) => v' = v /\ n' = k + n
  | Done (v, _, Some e), Done (v', _, Some e') => v' = v /\ e' = shift_ParseError k e
  | Panic, Panic => True
  | OutOfFuel, OutOfFuel => True
  | _, _ => False
  end.

(** A parse function that reads its input from the cursor on only. *)
Definition ignores_prefix (p : ParseFunc) (pre input : list rune) : Prop :=
  forall cur : nat, shifted (length pre) (p input cur) (p (pre ++ input) (length pre + cur)).

(** A token that is not empty and holds no white space. *)
Definition no_space_token (tok : string) : Prop :=
  go_runes_of_string tok <> []
  /\ Forall (fun ch => is_space ch = false) (go_runes_of_string tok).

(** What [p] parses without error in [input] it parses to the same value
    and cursor in [ext]. *)
Definition extends_success (p : ParseFunc) (input ext : list rune) : Prop :=
  forall (cur : nat) (value : JsonValue) (next : nat),
    p input cur = Done (value, next, None) -> p ext cur = Done (value, next, None).

(** A token of ASCII bytes only: for these [go_runes_of_string] is Go's
    [[]rune(tok)]. *)
Definition ascii_token (tok : string) : Prop :=
  Forall (fun b => (b2z b < 0x80)%Z) (String.list_byte_of_string tok).




(** * Proofs: the decoder *)

Section Bits.
Local Open Scope Z_scope.

Lemma b2z_range (b : Byte.byte) : 0 <= b2z b < 256.
Proof.
  unfold b2z. pose proof (Byte.to_N_bounded b). lia.
Qed.

Lemma b2z_z2b (z : Z) : 0 <= z < 256 -> b2z (z2b z) = z.
Proof.
  intros Hz. unfold b2z, z2b.
  destruct (Byte.of_N (Z.to_N z)) as [b|] eqn:E.
  - apply Byte.to_of_N in E. rewrite E. lia.
  - apply Byte.of_N_None_iff in E. lia.
Qed.

Lemma wrap32_small (z : Z) : - 2 ^ 31 <= z < 2 ^ 31 -> wrap32 z = z.
Proof. intros Hz. unfold wrap32. rewrite Z.mod_small; lia. Qed.

Lemma land_shifted_low (hi lo k : Z) :
  0 <= k -> 0 <= lo < 2 ^ k -> Z.land (hi * 2 ^ k) lo = 0.
Proof.
  intros Hk Hlo. apply Z.bits_inj'. intros n Hn.
  rewrite Z.land_spec, Z.bits_0.
  destruct (Z.lt_ge_cases n k) as [Hlt|Hge].
  - rewrite Z.mul_pow2_bits_low by lia. reflexivity.
  - rewrite <- (Z.mod_small lo (2 ^ k)) by lia.
    rewrite Z.mod_pow2_bits_high by lia. apply andb_false_r.
Qed.

Lemma lor_shifted_low (hi lo k : Z) :
  0 <= k -> 0 <= lo < 2 ^ k -> Z.lor (hi * 2 ^ k) lo = hi * 2 ^ k + lo.
Proof.
  intros Hk Hlo. pose proof (Z.add_lor_land (hi * 2 ^ k) lo) as H.
  rewrite land_shifted_low in H by assumption. lia.
Qed.

Lemma land_low_bits (a k : Z) : 0 <= k -> Z.land a (2 ^ k - 1) = a mod 2 ^ k.
Proof.
  intros Hk. rewrite <- Z.land_ones by assumption.
  rewrite Z.ones_equiv. reflexivity.
Qed.
End Bits.


Lemma ReadCode_leading_cases (cur : nat) (b : Byte.byte) :
  match utf8_sequence_length b with
  | Some n =>
      ReadCode_leading cur b = (cur + n, payload_mask n, None)
      /\ has_prefix b 0xc0 0x80 = false /\ has_prefix b 0xf8 0xf8 = false
      /\ 1 <= n <= 4
  | None =>
      (ReadCode_leading cur b = (0, 0%Z, Some (mkDecodingError cur b UnexpectedLeadingChar))
       /\ has_prefix b 0xc0 0x80 = true /\ has_prefix b 0xf8 0xf8 = false)
      \/ (ReadCode_leading cur b = (0, 0%Z, Some (mkDecodingError cur b BadLeadingChar))
       /\ has_prefix b 0xc0 0x80 = false /\ has_prefix b 0xf8 0xf8 = true)
  end.
Proof.
  destruct b; cbv -[Nat.add Nat.le]; first [ intuition lia | left; intuition congruence | right; intuition congruence ].
Qed.

Ltac Zify.zify_post_hook ::= Z.to_euclidean_division_equations.

Ltac decide_ltb :=
  repeat match goal with
  | |- context [(?x <? ?y)%Z] =>
      first [ rewrite (proj2 (Z.ltb_lt x y)) by lia
            | rewrite (proj2 (Z.ltb_ge x y)) by lia ]
  end.

Section Encoder.
Local Open Scope Z_scope.

Lemma b2z_continuation (x : Z) :
  b2z (z2b (Z.lor 0x80 (Z.land x 0x3f))) = 128 + x mod 64.
Proof.
  change 0x3f with (2 ^ 6 - 1). rewrite land_low_bits by lia.
  change 0x80 with (2 * 2 ^ 6).
  rewrite lor_shifted_low by (try apply Z.mod_pos_bound; lia).
  change (2 ^ 6) with 64. apply b2z_z2b. lia.
Qed.

Lemma b2z_leader (tag k x : Z) :
  0 <= k -> 0 <= x < 2 ^ k -> 0 <= tag * 2 ^ k + x < 256 ->
  b2z (z2b (Z.lor (tag * 2 ^ k) x)) = tag * 2 ^ k + x.
Proof.
  intros Hk Hx Hb. rewrite lor_shifted_low by assumption. now apply b2z_z2b.
Qed.

Lemma fold_step (code x : Z) :
  0 <= code < 2 ^ 25 ->
  Z.lor (wrap32 (Z.shiftl code 6)) (Z.land (128 + x mod 64) 0x3f) = code * 64 + x mod 64.
Proof.
  intros Hc. rewrite Z.shiftl_mul_pow2 by lia.
  rewrite wrap32_small by lia.
  change 0x3f with (2 ^ 6 - 1). rewrite land_low_bits by lia.
  rewrite lor_shifted_low by (try apply Z.mod_pos_bound; lia).
  change (2 ^ 6) with 64. lia.
Qed.

Lemma ReadCode_at (pre rest : list Byte.byte) (b : Byte.byte) :
  ReadCode (pre ++ b :: rest) (length pre) =
    let cur := length pre in
    let '(next, mask, err) := ReadCode_leading cur b in
    match err with
    | Some e => (0, next, Some e)
    | None =>
        let numFollowing := (next - cur - 1)%nat in
        if (S (length rest) <? numFollowing + 1)%nat then
          (0, next,
           Some (mkDecodingError cur b (BufNotEnough (numFollowing + 1) (S (length rest)))))
        else (ReadCode_loop (pre ++ b :: rest) cur numFollowing 0 (Z.land (b2z b) mask),
              next, None)
    end.
Proof.
  unfold ReadCode. rewrite length_app. cbn [length].
  replace (length pre + S (length rest) <=? length pre)%nat with false
    by (symmetry; apply Nat.leb_gt; lia).
  rewrite nth_middle.
  replace (length pre + S (length rest) - length pre)%nat with (S (length rest)) by lia.
  reflexivity.
Qed.

Lemma nth_following (pre rest : list Byte.byte) (b : Byte.byte) (i : nat) :
  nth (length pre + 1 + i) (pre ++ b :: rest) x00 = nth i rest x00.
Proof.
  rewrite <- Nat.add_assoc. rewrite app_nth2_plus. reflexivity.
Qed.

Lemma ReadCode_encode (pre rest : list Byte.byte) (c : rune) :
  is_code_point c ->
  ReadCode (pre ++ utf8_layout_rune c ++ rest) (length pre) =
    (c, (length pre + length (utf8_layout_rune c))%nat, None).
Proof.
  unfold is_code_point, utf8_layout_rune. intros Hc.
  destruct (Z.ltb_spec c 0x80); [| destruct (Z.ltb_spec c 0x800); [| destruct (Z.ltb_spec c 0x10000)]];
    cbn [app]; rewrite ReadCode_at; unfold ReadCode_leading.
  - rewrite b2z_z2b by lia. decide_ltb. cbn.
    replace (length pre + 1 - length pre - 1)%nat with 0%nat by lia. cbn.
    change 255 with (2 ^ 8 - 1). rewrite land_low_bits by lia.
    f_equal. f_equal. change (2 ^ 8) with 256. lia.
  - rewrite Z.shiftr_div_pow2 by lia. change (2 ^ 6) with 64.
    change 0xc0 with (6 * 2 ^ 5).
    rewrite b2z_leader by (change (2 ^ 5) with 32; lia).
    change (2 ^ 5) with 32. decide_ltb. cbn [length].
    replace (length pre + 2 - length pre - 1)%nat with 1%nat by lia.
    replace (S (S (length rest)) <? 1 + 1)%nat with false by (symmetry; apply Nat.ltb_ge; lia).
    cbn [ReadCode_loop]. rewrite nth_following. cbn [nth].
    rewrite b2z_continuation.
    change 0x1f with (2 ^ 5 - 1). rewrite land_low_bits by lia. change (2 ^ 5) with 32.
    rewrite fold_step by lia. f_equal. f_equal. lia.
  - rewrite !Z.shiftr_div_pow2 by lia. change (2 ^ 6) with 64. change (2 ^ 12) with 4096.
    change 0xe0 with (14 * 2 ^ 4).
    rewrite b2z_leader by (change (2 ^ 4) with 16; lia).
    change (2 ^ 4) with 16. decide_ltb. cbn [length].
    replace (length pre + 3 - length pre - 1)%nat with 2%nat by lia.
    replace (S (S (S (length rest))) <? 2 + 1)%nat with false by (symmetry; apply Nat.ltb_ge; lia).
    cbn [ReadCode_loop]. rewrite !nth_following. cbn [nth].
    rewrite !b2z_continuation.
    change 0x0f with (2 ^ 4 - 1). rewrite land_low_bits by lia. change (2 ^ 4) with 16.
    rewrite (fold_step (_ mod _)) by lia. rewrite fold_step by lia. f_equal. f_equal. lia.
  - rewrite !Z.shiftr_div_pow2 by lia.
    change (2 ^ 6) with 64. change (2 ^ 12) with 4096. change (2 ^ 18) with 262144.
    change 0xf0 with (30 * 2 ^ 3).
    rewrite b2z_leader by (change (2 ^ 3) with 8; lia).
    change (2 ^ 3) with 8. decide_ltb. cbn [length].
    replace (length pre + 4 - length pre - 1)%nat with 3%nat by lia.
    replace (S (S (S (S (length rest)))) <? 3 + 1)%nat with false by (symmetry; apply Nat.ltb_ge; lia).
    cbn [ReadCode_loop]. rewrite !nth_following. cbn [nth].
    rewrite !b2z_continuation.
    change 0x07 with (2 ^ 3 - 1). rewrite land_low_bits by lia. change (2 ^ 3) with 8.
    rewrite (fold_step (_ mod _)) by lia. rewrite (fold_step (_ + _)) by lia.
    rewrite fold_step by lia.
    f_equal. f_equal. lia.
Qed.
End Encoder.

Section Decoder.

Lemma utf8_layout_rune_length (c : rune) : 1 <= length (utf8_layout_rune c) <= 4.
Proof.
  unfold utf8_layout_rune.
  repeat match goal with |- context [if ?b then _ else _] => destruct b end;
    cbn [length]; lia.
Qed.

Lemma Decode_loop_encoded (cs : list rune) :
  forall (pre : list Byte.byte) (out : list rune) (fuel : nat),
    Forall is_code_point cs -> length cs <= fuel ->
    Decode_loop fuel (pre ++ utf8_layout_runes cs) (length pre) out = Done (out ++ cs, None).
Proof.
  induction cs as [|c cs IH]; intros pre out fuel Hcs Hfuel.
  - unfold utf8_layout_runes. cbn [map concat]. rewrite !app_nil_r.
    destruct fuel; cbn [Decode_loop]; rewrite Nat.leb_refl; reflexivity.
  - apply Forall_cons_1 in Hcs as [Hc Hcs].
    destruct fuel as [|fuel]; [cbn [length] in Hfuel; lia|].
    change (utf8_layout_runes (c :: cs)) with (utf8_layout_rune c ++ utf8_layout_runes cs).
    pose proof (utf8_layout_rune_length c) as Hlen.
    cbn [Decode_loop].
    replace (length (pre ++ utf8_layout_rune c ++ utf8_layout_runes cs) <=? length pre) with false
      by (symmetry; apply Nat.leb_gt; rewrite !length_app; lia).
    rewrite ReadCode_encode by assumption.
    rewrite <- length_app, app_assoc.
    rewrite IH by (cbn [length] in Hfuel; first [assumption | lia]).
    rewrite <- app_assoc. reflexivity.
Qed.

End Decoder.

Lemma Decode_encoded (cs : list Z) :
  Forall is_code_point cs -> Decode (utf8_layout_runes cs) = Done (cs, None).
Proof.
  intros Hcs. unfold Decode.
  apply (Decode_loop_encoded cs [] [] (length (utf8_layout_runes cs)) Hcs).
  unfold utf8_layout_runes. clear Hcs.
  induction cs as [|c cs IH]; cbn [map concat length]; [lia|].
  rewrite length_app. pose proof (utf8_layout_rune_length c). lia.
Qed.

(** Go's own conversion [string(runes)] encodes the Unicode scalar values
    by this layout (and a surrogate as U+FFFD). *)
Lemma DecodeString_go_string_of_runes (cs : list rune) :
  Forall (fun c => go_valid_rune c = true) cs ->
  DecodeString (go_string_of_runes cs) = Done (cs, None).
Proof.
  intros Hcs. unfold DecodeString, go_string_of_runes.
  rewrite String.list_byte_of_string_of_list_byte.
  replace (concat (map (fun r => utf8_layout_rune (if go_valid_rune r then r else 0xFFFD%Z)) cs))
    with (utf8_layout_runes cs).
  - apply Decode_encoded. eapply Forall_impl; [exact Hcs|]. cbv beta.
    intros c Hc. unfold go_valid_rune in Hc. unfold is_code_point. lia.
  - unfold utf8_layout_runes. f_equal.
    induction Hcs as [|c cs Hc _ IH]; [reflexivity|].
    cbn [map]. rewrite Hc, IH. reflexivity.
Qed.

Lemma utf8_encode_layout (cs : list rune) :
  utf8_encode cs
  = utf8_layout_runes (map (fun c => if go_valid_rune c then c else 0xFFFD%Z) cs).
Proof.
  unfold utf8_encode, utf8_layout_runes, utf8_encode_rune. rewrite map_map. reflexivity.
Qed.

Lemma is_scalar_value_valid (c : rune) : is_scalar_value c <-> go_valid_rune c = true.
Proof. unfold is_scalar_value, is_code_point, go_valid_rune. lia. Qed.

Lemma Decode_utf8_encode_replaced (cs : list rune) :
  Decode (utf8_encode cs)
  = Done (map (fun c => if go_valid_rune c then c else 0xFFFD%Z) cs, None).
Proof.
  rewrite utf8_encode_layout. apply Decode_encoded.
  induction cs as [|c cs IH]; cbn [map]; constructor; [|exact IH].
  unfold is_code_point. destruct (go_valid_rune c) eqn:E; [|lia].
  unfold go_valid_rune in E. lia.
Qed.

Lemma map_valid_rune_id (cs : list rune) :
  Forall is_scalar_value cs ->
  map (fun c => if go_valid_rune c then c else 0xFFFD%Z) cs = cs.
Proof.
  induction 1 as [|c cs Hc _ IH]; [reflexivity|].
  cbn [map]. rewrite (proj1 (is_scalar_value_valid c) Hc), IH. reflexivity.
Qed.

(** C1: decoding the UTF-8 encoding of Unicode scalar values (the code
    points between 0 and 0x10FFFF that are no surrogates) gives these code
    points back, and no error, through the encoder and through Go's
    conversion of runes to a string; for any runes it gives them back with
    U+FFFD in place of those that are no scalar values. *)
Theorem Decode_utf8_encode (cs : list rune) :
  (Forall is_scalar_value cs ->
     Decode (utf8_encode cs) = Done (cs, None)
     /\ DecodeString (go_string_of_runes cs) = Done (cs, None))
  /\ Decode (utf8_encode cs)
     = Done (map (fun c => if go_valid_rune c then c else 0xFFFD%Z) cs, None).
Proof.
  split; [|apply Decode_utf8_encode_replaced].
  intros Hcs. split.
  - rewrite Decode_utf8_encode_replaced, (map_valid_rune_id cs Hcs). reflexivity.
  - apply DecodeString_go_string_of_runes.
    eapply Forall_impl; [exact Hcs|]. intros c. apply is_scalar_value_valid.
Qed.

Lemma Decode_utf8_encode_witness :
  Forall is_scalar_value [0x61; 0x554a; 0x10ffff; 0xe000; 0]%Z
  /\ Decode (utf8_encode [0x61; 0x554a; 0x10ffff; 0xe000; 0]%Z)
     = Done ([0x61; 0x554a; 0x10ffff; 0xe000; 0]%Z, None)
  /\ DecodeString (go_string_of_runes [0x61; 0x554a; 0x10ffff; 0xe000; 0]%Z)
     = Done ([0x61; 0x554a; 0x10ffff; 0xe000; 0]%Z, None).
Proof.
  assert (H : Forall is_scalar_value [0x61; 0x554a; 0x10ffff; 0xe000; 0]%Z)
    by (repeat constructor; unfold is_code_point; lia).
  split; [exact H | exact (proj1 (Decode_utf8_encode _) H)].
Defined.

(** C1, as stated for every code point between 0 and 0x10FFFF: the
    surrogate 0xD800 is such a code point, the encoder writes U+FFFD for
    it (the bytes EF BF BD), and [Decode] returns 0xFFFD, not 0xD800. *)
Lemma Decode_utf8_encode_counterexample :
  is_code_point 0xD800%Z
  /\ utf8_encode [0xD800%Z] = [xef; xbf; xbd]
  /\ Decode (utf8_encode [0xD800%Z]) = Done ([0xFFFD%Z], None)
  /\ [0xFFFD%Z] <> [0xD800%Z].
Proof.
  split; [unfold is_code_point; lia|].
  split; [vm_compute; reflexivity|].
  split; [vm_compute; reflexivity | discriminate].
Qed.

Section ReadCodeSpec.

(** [ReadCode] at an in-bounds position, by the leading byte found there. *)
Lemma ReadCode_lookup (buf : list Byte.byte) (cur : nat) (b : Byte.byte) :
  buf !! cur = Some b ->
  ReadCode buf cur =
    let '(next, mask, err) := ReadCode_leading cur b in
    match err with
    | Some e => (0%Z, next, Some e)
    | None =>
        let numFollowing := next - cur - 1 in
        if length buf - cur <? numFollowing + 1 then
          (0%Z, next,
           Some (mkDecodingError cur b (BufNotEnough (numFollowing + 1) (length buf - cur))))
        else (ReadCode_loop buf cur numFollowing 0 (Z.land (b2z b) mask), next, None)
    end.
Proof.
  intros Hb. unfold ReadCode.
  pose proof (lookup_lt_Some _ _ _ Hb) as Hlt.
  replace (length buf <=? cur) with false by (symmetry; apply Nat.leb_gt; lia).
  rewrite nth_lookup, Hb. reflexivity.
Qed.


Lemma ReadCode_loop_fold (buf : list Byte.byte) (cur : nat) :
  forall (n i : nat) (code : rune),
    cur + 1 + i + n <= length buf ->
    (0 <= code)%Z -> ((code + 1) * 64 ^ Z.of_nat n <= 2 ^ 31)%Z ->
    ReadCode_loop buf cur n i code
    = fold_left fold_code (take n (drop (cur + 1 + i) buf)) code.
Proof.
  induction n as [|n IH]; intros i code Hlen Hlo Hhi.
  - reflexivity.
  - cbn [ReadCode_loop].
    destruct (buf !! (cur + 1 + i)) as [c|] eqn:Ec;
      [| apply lookup_ge_None in Ec; lia].
    rewrite nth_lookup, Ec. cbn [default].
    rewrite (drop_S _ _ _ Ec). cbn [take fold_left].
    replace (S (cur + 1 + i)) with (cur + 1 + S i) by lia.
    assert (Hpow : (64 ^ Z.of_nat (S n) = 64 * 64 ^ Z.of_nat n)%Z).
    { rewrite Nat2Z.inj_succ, Z.pow_succ_r by lia. reflexivity. }
    assert (Hpos : (0 < 64 ^ Z.of_nat n)%Z) by (apply Z.pow_pos_nonneg; lia).
    assert (Hw : wrap32 (Z.shiftl code 6) = Z.shiftl code 6).
    { apply wrap32_small. rewrite Z.shiftl_mul_pow2 by lia.
      change (2 ^ 6)%Z with 64%Z. nia. }
    rewrite Hw. fold (fold_code code c).
    apply IH; [lia | |].
    + unfold fold_code. apply Z.lor_nonneg. split.
      * apply Z.shiftl_nonneg. assumption.
      * apply Z.land_nonneg. right. lia.
    + unfold fold_code. rewrite Z.shiftl_mul_pow2 by lia.
      change 0x3f%Z with (2 ^ 6 - 1)%Z. rewrite land_low_bits by lia.
      rewrite lor_shifted_low by (try apply Z.mod_pos_bound; lia).
      change (2 ^ 6)%Z with 64%Z.
      pose proof (Z.mod_pos_bound (b2z c) 64 ltac:(lia)). nia.
Qed.

Lemma payload_bound (b : Byte.byte) (n : nat) :
  1 <= n <= 4 ->
  (0 <= Z.land (b2z b) (payload_mask n)
   /\ (Z.land (b2z b) (payload_mask n) + 1) * 64 ^ Z.of_nat (n - 1) <= 2 ^ 31)%Z.
Proof.
  intros Hn. pose proof (b2z_range b) as Hb.
  assert (Hcases : n = 1 \/ n = 2 \/ n = 3 \/ n = 4) by lia.
  destruct Hcases as [-> | [-> | [-> | ->]]]; cbn [payload_mask Nat.sub Z.of_nat].
  - change 0xff%Z with (2 ^ 8 - 1)%Z. rewrite land_low_bits by lia.
    change (2 ^ 8)%Z with 256%Z. change (64 ^ 0)%Z with 1%Z. lia.
  - change 0x1f%Z with (2 ^ 5 - 1)%Z. rewrite land_low_bits by lia.
    change (2 ^ 5)%Z with 32%Z. change (64 ^ Z.of_nat 1)%Z with 64%Z. lia.
  - change 0x0f%Z with (2 ^ 4 - 1)%Z. rewrite land_low_bits by lia.
    change (2 ^ 4)%Z with 16%Z. change (64 ^ Z.of_nat 2)%Z with 4096%Z. lia.
  - change 0x07%Z with (2 ^ 3 - 1)%Z. rewrite land_low_bits by lia.
    change (2 ^ 3)%Z with 8%Z. change (64 ^ Z.of_nat 3)%Z with 262144%Z. lia.
Qed.

Lemma ReadCode_valid_leader (buf : list Byte.byte) (cur : nat) (b : Byte.byte) (n : nat) :
  buf !! cur = Some b ->
  utf8_sequence_length b = Some n ->
  ReadCode buf cur =
    if length buf - cur <? n then
      (0%Z, cur + n, Some (mkDecodingError cur b (BufNotEnough n (length buf - cur))))
    else
      (fold_left fold_code (take (n - 1) (drop (cur + 1) buf))
         (Z.land (b2z b) (payload_mask n)),
       cur + n, None).
Proof.
  intros Hb Hn. rewrite (ReadCode_lookup _ _ _ Hb).
  pose proof (ReadCode_leading_cases cur b) as H. rewrite Hn in H.
  destruct H as (Hl & _ & _ & Hrange). rewrite Hl. cbv zeta.
  replace (cur + n - cur - 1) with (n - 1) by lia.
  replace (n - 1 + 1) with n by lia.
  destruct (Nat.ltb_spec (length buf - cur) n) as [Hlt|Hge]; [reflexivity|].
  destruct (payload_bound b n Hrange) as [Hlo Hhi].
  rewrite ReadCode_loop_fold by (first [assumption | lia]).
  rewrite Nat.add_0_r. reflexivity.
Qed.

End ReadCodeSpec.

(** C10: [ReadCode] does not look at the high bits of the bytes that
    follow a leader: when the leader announces [n] bytes and they are in the
    buffer, it returns the fold of the low six bits of each following byte
    into the payload bits of the leader, whatever these bytes are; so
    [Decode] of 0xC3 0x41 is the code point 0xC1 and no error. *)
Theorem ReadCode_accepts_any_following_bytes :
  (forall (buf : list Byte.byte) (cur : nat) (b : Byte.byte) (n : nat),
     buf !! cur = Some b -> utf8_sequence_length b = Some n -> 2 <= n ->
     cur + n <= length buf ->
     ReadCode buf cur =
       (fold_left fold_code (take (n - 1) (drop (cur + 1) buf))
          (Z.land (b2z b) (payload_mask n)),
        cur + n, None))
  /\ Decode [xc3; x41] = Done ([0xC1%Z], None).
Proof.
  split; [|reflexivity].
  intros buf cur b n Hb Hn _ Hlen.
  rewrite (ReadCode_valid_leader _ _ _ _ Hb Hn).
  replace (length buf - cur <? n) with false by (symmetry; apply Nat.ltb_ge; lia).
  reflexivity.
Qed.

Lemma ReadCode_accepts_any_following_bytes_witness :
  ReadCode [x20; xe5; x41; x42] 1 = (0x5042%Z, 4, None).
Proof.
  exact (proj1 ReadCode_accepts_any_following_bytes
           [x20; xe5; x41; x42] 1 xe5 3 eq_refl eq_refl ltac:(lia) ltac:(cbn; lia)).
Defined.

(** C5: at a position inside the buffer, [ReadCode] reports "unexpected
    leading char" exactly on a byte 10xxxxxx, "bad leading char" exactly on
    a byte 11111xxx, and "buf not enough" with the required and the
    remaining count exactly when the length announced by a valid leader
    exceeds the bytes that remain; each error carries the position and the
    byte found there. *)
Theorem ReadCode_error_classes (buf : list Byte.byte) (cur : nat) (b : Byte.byte) :
  buf !! cur = Some b ->
  let err := (ReadCode buf cur).2 in
  (forall e, err = Some e -> de_pos e = cur /\ de_char e = b)
  /\ ((exists e, err = Some e /\ de_msg e = UnexpectedLeadingChar)
      <-> has_prefix b 0xc0 0x80 = true)
  /\ ((exists e, err = Some e /\ de_msg e = BadLeadingChar)
      <-> has_prefix b 0xf8 0xf8 = true)
  /\ (forall req remain : nat,
        (exists e, err = Some e /\ de_msg e = BufNotEnough req remain)
        <-> utf8_sequence_length b = Some req
            /\ remain = length buf - cur /\ remain < req).
Proof.
  intros Hb err. subst err.
  pose proof (ReadCode_leading_cases cur b) as Hcases.
  destruct (utf8_sequence_length b) as [n|] eqn:En.
  - destruct Hcases as (_ & Hu & Hbad & Hrange).
    rewrite (ReadCode_valid_leader _ _ _ _ Hb En), Hu, Hbad.
    destruct (Nat.ltb_spec (length buf - cur) n) as [Hlt|Hge]; cbn [snd].
    + split; [intros e [= <-]; split; reflexivity|].
      split; [split; [intros (e & [= <-] & Hm); discriminate Hm | discriminate]|].
      split; [split; [intros (e & [= <-] & Hm); discriminate Hm | discriminate]|].
      intros req remain. split.
      * intros (e & [= <-] & [= <- <-]). auto.
      * intros ([= <-] & -> & _). eexists. split; reflexivity.
    + split; [intros e [=]|].
      split; [split; [intros (e & [=] & _) | discriminate]|].
      split; [split; [intros (e & [=] & _) | discriminate]|].
      intros req remain. split.
      * intros (e & [=] & _).
      * intros ([= <-] & -> & Hlt). lia.
  - rewrite (ReadCode_lookup _ _ _ Hb).
    destruct Hcases as [(Hl & Hu & Hbad) | (Hl & Hu & Hbad)];
      rewrite Hl, Hu, Hbad; cbn [snd].
    + split; [intros e [= <-]; split; reflexivity|].
      split; [split; [reflexivity | intros _; eexists; split; reflexivity]|].
      split; [split; [intros (e & [= <-] & Hm); discriminate Hm | discriminate]|].
      intros req remain. split.
      * intros (e & [= <-] & Hm). discriminate Hm.
      * intros ([=] & _).
    + split; [intros e [= <-]; split; reflexivity|].
      split; [split; [intros (e & [= <-] & Hm); discriminate Hm | discriminate]|].
      split; [split; [reflexivity | intros _; eexists; split; reflexivity]|].
      intros req remain. split.
      * intros (e & [= <-] & Hm). discriminate Hm.
      * intros ([=] & _).
Qed.

Lemma ReadCode_error_classes_witness :
  [xe0; x80] !! 0 = Some xe0
  /\ exists e, (ReadCode [xe0; x80] 0).2 = Some e
          /\ de_pos e = 0 /\ de_char e = xe0 /\ de_msg e = BufNotEnough 3 2.
Proof.
  split; [reflexivity|].
  destruct (ReadCode_error_classes [xe0; x80] 0 xe0 eq_refl) as (Hpos & _ & _ & Hbuf).
  destruct (proj2 (Hbuf 3 2)) as (e & He & Hm).
  - split; [reflexivity | split; [reflexivity | cbn; lia]].
  - exists e. destruct (Hpos e He) as [Hp Hc]. auto.
Defined.

(** * Proofs: the lexical layer *)

Section SkipSpaceFacts.
Context (input : list rune).

Lemma SkipSpace_unfold (cur : nat) :
  SkipSpace input cur =
    match input !! cur with
    | None => length input
    | Some ch => if is_space ch then SkipSpace input (S cur) else cur
    end.
Proof.
  unfold SkipSpace.
  destruct (input !! cur) as [ch|] eqn:E.
  - pose proof (lookup_lt_Some _ _ _ E) as Hlt.
    replace (length input - cur) with (S (length input - S cur)) by lia.
    cbn [SkipSpace_loop]. rewrite E. reflexivity.
  - apply lookup_ge_None in E.
    replace (length input - cur) with 0 by lia. reflexivity.
Qed.

(** What [SkipSpace] returns: the first position from [cur] on that holds
    no white space, or the length of the input. *)
Lemma SkipSpace_loop_spec (n : nat) :
  forall i : nat, n = length input - i -> i <= length input ->
    let s := SkipSpace_loop input n i in
    i <= s <= length input
    /\ (forall j ch, i <= j < s -> input !! j = Some ch -> is_space ch = true)
    /\ (forall ch, input !! s = Some ch -> is_space ch = false).
Proof.
  induction n as [|n IH]; intros i Hn Hi; cbn [SkipSpace_loop].
  - split; [lia|]. split; [intros j ch Hj; lia|].
    intros ch Hch. apply lookup_lt_Some in Hch. lia.
  - destruct (input !! i) as [c|] eqn:E; [|apply lookup_ge_None in E; lia].
    destruct (is_space c) eqn:Hsp.
    + destruct (IH (S i) ltac:(lia) ltac:(lia)) as (Hb & Hall & Hstop).
      split; [lia|]. split; [|exact Hstop].
      intros j ch Hj Hch. destruct (decide (j = i)) as [->|Hne].
      * congruence.
      * apply (Hall j); [lia | assumption].
    + split; [lia|]. split; [intros j ch Hj; lia|].
      intros ch Hch. congruence.
Qed.

Lemma SkipSpace_le_length (cur : nat) : SkipSpace input cur <= length input.
Proof.
  destruct (le_lt_dec cur (length input)) as [Hle|Hgt].
  - apply (SkipSpace_loop_spec _ cur eq_refl Hle).
  - unfold SkipSpace. replace (length input - cur) with 0 by lia. reflexivity.
Qed.

Lemma SkipSpace_ge (cur : nat) : cur <= length input -> cur <= SkipSpace input cur.
Proof. intros Hle. apply (SkipSpace_loop_spec _ cur eq_refl Hle). Qed.

Lemma SkipSpace_spaces (cur j : nat) (ch : rune) :
  cur <= j < SkipSpace input cur -> input !! j = Some ch -> is_space ch = true.
Proof.
  intros Hj Hch.
  assert (Hle : cur <= length input) by (pose proof (SkipSpace_le_length cur); lia).
  exact (proj1 (proj2 (SkipSpace_loop_spec _ cur eq_refl Hle)) j ch Hj Hch).
Qed.

Lemma SkipSpace_stop (cur : nat) (ch : rune) :
  input !! SkipSpace input cur = Some ch -> is_space ch = false.
Proof.
  intros Hch.
  destruct (le_lt_dec cur (length input)) as [Hle|Hgt].
  - exact (proj2 (proj2 (SkipSpace_loop_spec _ cur eq_refl Hle)) ch Hch).
  - apply lookup_lt_Some in Hch. pose proof (SkipSpace_le_length cur).
    unfold SkipSpace in *. replace (length input - cur) with 0 in * by lia.
    cbn [SkipSpace_loop] in Hch. lia.
Qed.

Lemma SkipSpace_fixed (cur : nat) (ch : rune) :
  input !! cur = Some ch -> is_space ch = false -> SkipSpace input cur = cur.
Proof. intros Hch Hsp. rewrite SkipSpace_unfold, Hch, Hsp. reflexivity. Qed.

Lemma SkipSpace_at_end (cur : nat) : length input <= cur -> SkipSpace input cur = length input.
Proof.
  intros Hge. rewrite SkipSpace_unfold.
  apply lookup_ge_None in Hge. rewrite Hge. reflexivity.
Qed.

Lemma SkipSpace_idempotent (cur : nat) :
  SkipSpace input (SkipSpace input cur) = SkipSpace input cur.
Proof.
  destruct (input !! SkipSpace input cur) as [ch|] eqn:E.
  - apply (SkipSpace_fixed _ ch E). exact (SkipSpace_stop cur ch E).
  - apply lookup_ge_None in E. pose proof (SkipSpace_le_length cur).
    rewrite (SkipSpace_at_end _ E). lia.
Qed.


End SkipSpaceFacts.

Section ConsumeFacts.
Context (input : list rune).

Lemma Consume_loop_None (next : nat) (tokrune : list rune) :
  forall i : nat, Consume_loop input next i tokrune = None ->
    forall j ch, tokrune !! j = Some ch -> nth (next + (i + j)) input 0%Z = ch.
Proof.
  induction tokrune as [|c rest IH]; intros i Hloop j ch Hj; [discriminate Hj|].
  cbn [Consume_loop] in Hloop.
  destruct (Z.eqb_spec (nth (next + i) input 0%Z) c) as [Heq|Hne]; [|discriminate].
  destruct j as [|j]; cbn in Hj.
  - injection Hj as <-. rewrite Nat.add_0_r. exact Heq.
  - replace (i + S j) with (S i + j) by lia. exact (IH (S i) Hloop j ch Hj).
Qed.

(** The two ways [Consume] returns: an error with the cursor after the
    white space, or the cursor after the matched token. *)
Lemma Consume_cases (cur : nat) (tok : string) :
  let s := SkipSpace input cur in
  let tokrune := go_runes_of_string tok in
  (exists e, Consume input cur tok = (s, Some e))
  \/ (Consume input cur tok = (s + length tokrune, None)
      /\ s + length tokrune <= length input
      /\ forall j ch, tokrune !! j = Some ch -> input !! (s + j) = Some ch).
Proof.
  intros s tokrune. unfold Consume. fold s. fold tokrune.
  pose proof (SkipSpace_le_length input cur) as Hs. fold s in Hs.
  destruct (Nat.ltb_spec (length input - s) (length tokrune)) as [Hshort|Hlong].
  { left. eexists. reflexivity. }
  destruct (Consume_loop input s 0 tokrune) as [i|] eqn:Hloop.
  { left. eexists. reflexivity. }
  right. split; [reflexivity|]. split; [lia|].
  intros j ch Hj.
  pose proof (Consume_loop_None s tokrune 0 Hloop j ch Hj) as Hnth.
  pose proof (lookup_lt_Some _ _ _ Hj) as Hlt.
  destruct (input !! (s + j)) as [x|] eqn:E.
  - rewrite nth_lookup in Hnth. cbn [Nat.add] in Hnth. rewrite E in Hnth.
    cbn in Hnth. congruence.
  - apply lookup_ge_None in E. lia.
Qed.

Lemma Consume_fail_cursor (cur : nat) (tok : string) (next : nat) (e : ParseError) :
  Consume input cur tok = (next, Some e) -> next = SkipSpace input cur.
Proof.
  intros H. destruct (Consume_cases cur tok) as [[e' He] | [Hok _]]; congruence.
Qed.

Lemma Consume_ok (cur : nat) (tok : string) (next : nat) :
  Consume input cur tok = (next, None) ->
  next = SkipSpace input cur + length (go_runes_of_string tok)
  /\ next <= length input
  /\ forall j ch, go_runes_of_string tok !! j = Some ch ->
       input !! (SkipSpace input cur + j) = Some ch.
Proof.
  intros H. destruct (Consume_cases cur tok) as [[e' He] | (Hok & Hlen & Hall)];
    [congruence|].
  rewrite Hok in H. injection H as <-. auto.
Qed.

Lemma Consume_SkipSpace (cur : nat) (tok : string) :
  Consume input (SkipSpace input cur) tok = Consume input cur tok.
Proof. unfold Consume. rewrite SkipSpace_idempotent. reflexivity. Qed.

(** [Consume] of a token of one code point. *)
Lemma Consume_single (cur : nat) (tok : string) (c : rune) :
  go_runes_of_string tok = [c] ->
  let s := SkipSpace input cur in
  Consume input cur tok =
    if decide (input !! s = Some c) then (S s, None)
    else (s, Some (mkParseError s (ExpectTok tok))).
Proof.
  intros Htok s. unfold Consume. fold s. clearbody s.
  rewrite Htok. cbn [length Consume_loop].
  destruct (Nat.ltb_spec (length input - s) 1) as [Hshort|Hlong].
  - destruct (decide (input !! s = Some c)) as [E|E]; [|reflexivity].
    apply lookup_lt_Some in E. lia.
  - rewrite Nat.add_0_r, nth_lookup.
    destruct (input !! s) as [x|] eqn:E.
    2:{ apply lookup_ge_None in E. lia. }
    cbn [default from_option id]. destruct (Z.eqb_spec x c) as [->|Hne].
    + rewrite decide_True by reflexivity. f_equal. lia.
    + rewrite decide_False by congruence. rewrite Nat.add_0_r. reflexivity.
Qed.

End ConsumeFacts.

(** * Proofs: strings *)

Section StringFacts.
Context (input : list rune).

Lemma Consume_ok_progress (cur : nat) (tok : string) (next : nat) :
  Consume input cur tok = (next, None) ->
  1 <= length (go_runes_of_string tok) ->
  cur < next <= length input.
Proof.
  intros H Htok. destruct (Consume_ok input cur tok next H) as (Hn & Hlen & _).
  split; [|assumption].
  destruct (le_lt_dec cur (length input)) as [Hle|Hgt].
  - pose proof (SkipSpace_ge input cur Hle). lia.
  - rewrite (SkipSpace_at_end input cur) in Hn by lia. lia.
Qed.

Lemma ScanHex_ok (cur : nat) (value : Z) :
  ScanHex input cur = (value, None) -> cur + 4 <= length input.
Proof.
  unfold ScanHex. destruct (Nat.ltb_spec (length input) (cur + 4)); [discriminate|].
  intros _. assumption.
Qed.

Lemma ParseEscape_progress (cur : nat) (value : Z) (next : nat) :
  ParseEscape input cur = (value, next, None) -> cur < next <= length input.
Proof.
  unfold ParseEscape. destruct (input !! cur) as [ch|] eqn:E; [|discriminate].
  pose proof (lookup_lt_Some _ _ _ E) as Hlt.
  repeat match goal with
  | |- context [if ?b then _ else _] => destruct b
  end; try (intros [= <- <-]; lia); try discriminate.
  destruct (ScanHex input (S cur)) as [v [e|]] eqn:Hhex; [discriminate|].
  apply ScanHex_ok in Hhex. intros [= <- <-]. lia.
Qed.

Lemma ParseString_loop_progress (fuel : nat) :
  forall (next : nat) (val : list rune) (s : string) (next' : nat),
    ParseString_loop fuel input next val = Done (s, next', None) ->
    next < next' <= length input.
Proof.
  induction fuel as [|fuel IH]; intros next val s next' H; [discriminate|].
  cbn [ParseString_loop] in H.
  destruct (input !! next) as [ch|] eqn:E; [|discriminate].
  pose proof (lookup_lt_Some _ _ _ E) as Hlt.
  destruct (ch =? 0x22)%Z; [injection H as <- <-; lia|].
  destruct (ch =? 0x5c)%Z.
  - destruct (ParseEscape input (S next)) as [[ch' n1] [e|]] eqn:Hesc; [discriminate|].
    apply ParseEscape_progress in Hesc. apply IH in H. lia.
  - destruct (IsNoEscape ch); [|discriminate]. apply IH in H. lia.
Qed.

Lemma ParseString_loop_total (fuel : nat) :
  forall (next : nat) (val : list rune),
    length input - next < fuel ->
    exists r, ParseString_loop fuel input next val = Done r.
Proof.
  induction fuel as [|fuel IH]; intros next val Hfuel; [lia|].
  cbn [ParseString_loop].
  - destruct (input !! next) as [ch|] eqn:E; [|eexists; reflexivity].
    pose proof (lookup_lt_Some _ _ _ E) as Hlt.
    destruct (ch =? 0x22)%Z; [eexists; reflexivity|].
    destruct (ch =? 0x5c)%Z.
    + destruct (ParseEscape input (S next)) as [[ch' n1] [e|]] eqn:Hesc;
        [eexists; reflexivity|].
      apply ParseEscape_progress in Hesc. apply IH. lia.
    + destruct (IsNoEscape ch); [|eexists; reflexivity]. apply IH. lia.
Qed.

Lemma tok_quote_runes : go_runes_of_string tok_quote = [0x22%Z].
Proof. reflexivity. Qed.

Lemma ParseString_total (cur : nat) : exists r, ParseString input cur = Done r.
Proof.
  unfold ParseString. destruct (Consume input cur tok_quote) as [next [e|]].
  - eexists. reflexivity.
  - apply ParseString_loop_total. lia.
Qed.

Lemma ParseString_progress (cur : nat) (s : string) (next : nat) :
  ParseString input cur = Done (s, next, None) -> cur < next <= length input.
Proof.
  unfold ParseString.
  destruct (Consume input cur tok_quote) as [n1 [e|]] eqn:Hq; [discriminate|].
  intros H. apply ParseString_loop_progress in H.
  apply Consume_ok_progress in Hq; [lia | rewrite tok_quote_runes; cbn; lia].
Qed.

End StringFacts.

Section NoEscape.
Local Open Scope Z_scope.

Lemma IsNoEscape_set (ch : rune) : IsNoEscape ch = true <-> in_no_escape_set ch.
Proof. unfold IsNoEscape, in_no_escape_set. lia. Qed.

Lemma IsNoEscape_not_set (ch : rune) : IsNoEscape ch = false <-> ~ in_no_escape_set ch.
Proof.
  rewrite <- IsNoEscape_set. destruct (IsNoEscape ch); split; congruence.
Qed.

Lemma in_no_escape_set_plain (ch : rune) :
  in_no_escape_set ch -> (ch =? 0x22) = false /\ (ch =? 0x5c) = false.
Proof. unfold in_no_escape_set. lia. Qed.

End NoEscape.

Section StringLiteral.

Lemma ParseString_loop_step_literal (fuel : nat) (input : list rune) (next : nat)
    (val : list rune) (ch : rune) :
  input !! next = Some ch -> in_no_escape_set ch ->
  ParseString_loop (S fuel) input next val
  = ParseString_loop fuel input (S next) (val ++ [ch]).
Proof.
  intros E Hset. cbn [ParseString_loop]. rewrite E.
  destruct (in_no_escape_set_plain ch Hset) as [-> ->].
  apply IsNoEscape_set in Hset. rewrite Hset. reflexivity.
Qed.

Lemma ParseString_loop_step_unescaped (fuel : nat) (input : list rune) (next : nat)
    (val : list rune) (ch : rune) :
  input !! next = Some ch -> ch <> 0x22%Z -> ch <> 0x5c%Z -> ~ in_no_escape_set ch ->
  ParseString_loop (S fuel) input next val
  = Done (EmptyString, next, Some (mkParseError next (UnescapedChar ch))).
Proof.
  intros E Hq Hb Hset. cbn [ParseString_loop]. rewrite E.
  rewrite (proj2 (Z.eqb_neq ch 0x22) Hq), (proj2 (Z.eqb_neq ch 0x5c) Hb).
  apply IsNoEscape_not_set in Hset. rewrite Hset. reflexivity.
Qed.

Lemma ParseString_loop_literal (body : list rune) :
  forall (pre rest val : list rune) (fuel : nat),
    Forall in_no_escape_set body ->
    ParseString_loop (length body + fuel) (pre ++ body ++ rest) (length pre) val
    = ParseString_loop fuel (pre ++ body ++ rest) (length pre + length body)
        (val ++ body).
Proof.
  induction body as [|ch body IH]; intros pre rest val fuel Hbody.
  - cbn [length Nat.add]. rewrite Nat.add_0_r, app_nil_r. reflexivity.
  - apply Forall_cons_1 in Hbody as [Hch Hbody].
    cbn [length Nat.add].
    rewrite (ParseString_loop_step_literal _ _ _ _ ch);
      [| apply list_lookup_middle; reflexivity | assumption].
    replace (pre ++ (ch :: body) ++ rest) with ((pre ++ [ch]) ++ body ++ rest)
      by (rewrite <- app_assoc; reflexivity).
    replace (S (length pre)) with (length (pre ++ [ch]))
      by (rewrite length_app; cbn; lia).
    rewrite IH by assumption.
    rewrite length_app, <- !app_assoc. cbn [length app].
    f_equal. lia.
Qed.

Lemma Consume_quote_head (rest : list rune) :
  Consume (0x22%Z :: rest) 0 tok_quote = (1, None).
Proof.
  rewrite (Consume_single _ 0 tok_quote 0x22%Z tok_quote_runes).
  rewrite (SkipSpace_fixed _ 0 0x22%Z) by reflexivity. reflexivity.
Qed.

End StringLiteral.

Section StringTheorem.

Lemma ParseString_literal_run (body tail : list rune) :
  Forall in_no_escape_set body ->
  ParseString (0x22%Z :: body ++ tail) 0
  = ParseString_loop (S (S (length tail))) (0x22%Z :: body ++ tail)
      (S (length body)) body.
Proof.
  intros Hbody. unfold ParseString. rewrite Consume_quote_head.
  replace (S (length (0x22%Z :: body ++ tail)))
    with (length body + S (S (length tail)))
    by (cbn [length]; rewrite length_app; lia).
  exact (ParseString_loop_literal body [0x22%Z] tail [] _ Hbody).
Qed.

Lemma lookup_after_body (body tail : list rune) :
  (0x22%Z :: body ++ tail) !! S (length body) = tail !! 0.
Proof.
  change ((0x22%Z :: body ++ tail) !! S (length body))
    with ((body ++ tail) !! length body).
  rewrite lookup_app_r by lia. rewrite Nat.sub_diag. reflexivity.
Qed.

End StringTheorem.

(** C3: between the quotes of a string, a code point other than the quote
    and the backslash is appended literally exactly when it is in the
    no-escape set, and otherwise stops the parse with "unescaped char"; for
    code points up to 0x10FFFF the rejected ones are those below 0x20; the
    end of the input stops the parse with "string not terminated". *)
Theorem ParseString_no_escape_set :
  (forall (fuel : nat) (input : list rune) (next : nat) (val : list rune) (ch : rune),
     input !! next = Some ch -> ch <> 0x22%Z -> ch <> 0x5c%Z ->
     (in_no_escape_set ch ->
        ParseString_loop (S fuel) input next val
        = ParseString_loop fuel input (S next) (val ++ [ch]))
     /\ (~ in_no_escape_set ch ->
        ParseString_loop (S fuel) input next val
        = Done (EmptyString, next, Some (mkParseError next (UnescapedChar ch))))
     /\ (is_code_point ch -> ~ in_no_escape_set ch <-> (ch < 0x20)%Z))
  /\ (forall (fuel : nat) (input : list rune) (next : nat) (val : list rune),
     input !! next = None ->
     ParseString_loop (S fuel) input next val
     = Done (EmptyString, next, Some (mkParseError next StringNotTerminated)))
  /\ (forall body rest : list rune,
     Forall in_no_escape_set body ->
     ParseString (0x22%Z :: body ++ 0x22%Z :: rest) 0
     = Done (go_string_of_runes body, length body + 2, None))
  /\ (forall (body : list rune) (ch : rune) (rest : list rune),
     Forall in_no_escape_set body ->
     ch <> 0x22%Z -> ch <> 0x5c%Z -> ~ in_no_escape_set ch ->
     ParseString (0x22%Z :: body ++ ch :: rest) 0
     = Done (EmptyString, length body + 1,
             Some (mkParseError (length body + 1) (UnescapedChar ch))))
  /\ (forall body : list rune,
     Forall in_no_escape_set body ->
     ParseString (0x22%Z :: body) 0
     = Done (EmptyString, length body + 1,
             Some (mkParseError (length body + 1) StringNotTerminated))).
Proof.
  split; [|split; [|split; [|split]]].
  - intros fuel input next val ch E Hq Hb. split; [|split].
    + intros Hset. exact (ParseString_loop_step_literal fuel input next val ch E Hset).
    + intros Hset.
      exact (ParseString_loop_step_unescaped fuel input next val ch E Hq Hb Hset).
    + unfold is_code_point, in_no_escape_set. lia.
  - intros fuel input next val E. cbn [ParseString_loop]. rewrite E. reflexivity.
  - intros body rest Hbody. rewrite (ParseString_literal_run body _ Hbody).
    cbn [ParseString_loop]. rewrite lookup_after_body. cbn [lookup list_lookup].
    cbn [Z.eqb Pos.eqb]. do 3 f_equal. lia.
  - intros body ch rest Hbody Hq Hb Hset.
    rewrite (ParseString_literal_run body _ Hbody).
    rewrite (ParseString_loop_step_unescaped _ _ _ _ ch);
      [| rewrite lookup_after_body; reflexivity | assumption..].
    replace (S (length body)) with (length body + 1) by lia. reflexivity.
  - intros body Hbody.
    rewrite <- (app_nil_r body) at 1.
    rewrite (ParseString_literal_run body [] Hbody).
    cbn [ParseString_loop length]. rewrite lookup_after_body. cbn [lookup list_lookup].
    replace (S (length body)) with (length body + 1) by lia. reflexivity.
Qed.

Lemma ParseString_no_escape_set_witness :
  ParseString_loop 2 [0x22; 0x61; 0x22]%Z 1 [] = ParseString_loop 1 [0x22; 0x61; 0x22]%Z 2 [0x61%Z]
  /\ ParseString_loop 1 [0x22; 0x0a]%Z 1 []
    = Done (EmptyString, 1, Some (mkParseError 1 (UnescapedChar 0x0a%Z)))
  /\ (~ in_no_escape_set 0x0a%Z <-> (0x0a < 0x20)%Z)
  /\ ParseString_loop 1 [0x22; 0x61]%Z 2 [0x61%Z]
    = Done (EmptyString, 2, Some (mkParseError 2 StringNotTerminated))
  /\ ParseString [0x22; 0x61; 0x554a; 0x20; 0x22; 0x2c]%Z 0
    = Done (go_string_of_runes [0x61; 0x554a; 0x20]%Z, 5, None)
  /\ ParseString [0x22; 0x61; 0x0a; 0x22]%Z 0
    = Done (EmptyString, 2, Some (mkParseError 2 (UnescapedChar 0x0a%Z)))
  /\ ParseString [0x22; 0x61; 0x62]%Z 0
    = Done (EmptyString, 3, Some (mkParseError 3 StringNotTerminated)).
Proof.
  destruct ParseString_no_escape_set as (Hstep & Heos & Hlit & Hbad & Hend).
  assert (Hctl : ~ in_no_escape_set 0x0a%Z) by (unfold in_no_escape_set; lia).
  split; [|split; [|split; [|split; [|split; [|split]]]]].
  - apply (Hstep 1 [0x22; 0x61; 0x22]%Z 1 [] 0x61%Z eq_refl); try lia.
    unfold in_no_escape_set; lia.
  - apply (Hstep 0 [0x22; 0x0a]%Z 1 [] 0x0a%Z eq_refl); try lia. exact Hctl.
  - apply (Hstep 0 [0x22; 0x0a]%Z 1 [] 0x0a%Z eq_refl); try lia.
    unfold is_code_point; lia.
  - apply (Heos 0 [0x22; 0x61]%Z 2 [0x61%Z] eq_refl).
  - apply (Hlit [0x61; 0x554a; 0x20]%Z [0x2c%Z]).
    repeat constructor; unfold in_no_escape_set; lia.
  - apply (Hbad [0x61%Z] 0x0a%Z [0x22%Z]); try lia; [|exact Hctl].
    repeat constructor; unfold in_no_escape_set; lia.
  - apply (Hend [0x61; 0x62]%Z).
    repeat constructor; unfold in_no_escape_set; lia.
Defined.

(** * Proofs: numbers *)

Section NumberFacts.
Context (input : list rune).

Lemma at_is_true (i : nat) (p : Z -> bool) :
  at_is input i p = true <-> exists ch, input !! i = Some ch /\ p ch = true.
Proof.
  unfold at_is. destruct (input !! i) as [ch|].
  - split; [intros H; exists ch; auto | intros (c & [= <-] & H); exact H].
  - split; [discriminate | intros (c & [=] & _)].
Qed.

Lemma at_is_lt (i : nat) (p : Z -> bool) : at_is input i p = true -> i < length input.
Proof.
  intros H. apply at_is_true in H as (ch & E & _). exact (lookup_lt_Some _ _ _ E).
Qed.

Lemma ScanInt_loop_spec (n : nat) :
  forall (next : nat) (value value' : Z) (next' : nat),
    ScanInt_loop input n next value = (value', next') ->
    next <= length input ->
    next <= next' <= length input
    /\ forall i, next <= i < next' -> at_is input i IsDigit = true.
Proof.
  induction n as [|n IH]; intros next value value' next' H Hle; cbn [ScanInt_loop] in H.
  - injection H as <- <-. split; [lia|]. intros i Hi. lia.
  - destruct (input !! next) as [ch|] eqn:E;
      [| injection H as <- <-; split; [lia | intros i Hi; lia]].
    pose proof (lookup_lt_Some _ _ _ E) as Hlt.
    destruct (IsDigit ch) eqn:Hd;
      [| injection H as <- <-; split; [lia | intros i Hi; lia]].
    destruct (IH _ _ _ _ H ltac:(lia)) as [Hb Hall]. split; [lia|].
    intros i Hi. destruct (decide (i = next)) as [->|Hne].
    + apply at_is_true. exists ch. auto.
    + apply Hall. lia.
Qed.

Lemma ScanInt_loop_first (n next : nat) (value value' : Z) (next' : nat) :
  ScanInt_loop input (S n) next value = (value', next') ->
  at_is input next IsDigit = true -> next < next'.
Proof.
  intros H Hd. cbn [ScanInt_loop] in H.
  apply at_is_true in Hd as (ch & E & Hd). rewrite E, Hd in H.
  pose proof (lookup_lt_Some _ _ _ E) as Hlt.
  apply ScanInt_loop_spec in H; lia.
Qed.

Lemma ScanInt_ok (cur : nat) (value : Z) (next : nat) :
  ScanInt input cur = (value, next, None) ->
  cur < next <= length input
  /\ forall i, cur <= i < next -> at_is input i IsDigit = true.
Proof.
  unfold ScanInt. destruct (at_is input cur IsDigit) eqn:Hd; cbn [negb]; [|discriminate].
  destruct (ScanInt_loop input (length input - cur) cur 0%Z) as [v n1] eqn:Hloop.
  intros [= <- <-]. pose proof (at_is_lt _ _ Hd) as Hlt.
  pose proof (ScanInt_loop_spec _ _ _ _ _ Hloop ltac:(lia)) as [Hb Hall].
  replace (length input - cur) with (S (length input - S cur)) in Hloop by lia.
  pose proof (ScanInt_loop_first _ _ _ _ _ Hloop Hd). split; [lia | exact Hall].
Qed.

Lemma ParseNum_frac_loop_spec (n : nat) :
  forall (next : nat) (frac scale frac' : float) (next' : nat),
    ParseNum_frac_loop input n next frac scale = (frac', next') ->
    next <= length input ->
    next <= next' <= length input
    /\ forall i, next <= i < next' -> at_is input i IsDigit = true.
Proof.
  induction n as [|n IH]; intros next frac scale frac' next' H Hle;
    cbn [ParseNum_frac_loop] in H.
  - injection H as <- <-. split; [lia|]. intros i Hi. lia.
  - destruct (input !! next) as [ch|] eqn:E;
      [| injection H as <- <-; split; [lia | intros i Hi; lia]].
    pose proof (lookup_lt_Some _ _ _ E) as Hlt.
    destruct (IsDigit ch) eqn:Hd;
      [| injection H as <- <-; split; [lia | intros i Hi; lia]].
    destruct (IH _ _ _ _ _ H ltac:(lia)) as [Hb Hall]. split; [lia|].
    intros i Hi. destruct (decide (i = next)) as [->|Hne].
    + apply at_is_true. exists ch. auto.
    + apply Hall. lia.
Qed.

(** The fractional part, when it is read without error. *)
Lemma ParseNum_frac_ok (next : nat) (hasfrac : bool) (frac : float) (next' : nat) :
  ParseNum_frac input next = (hasfrac, frac, next', None) ->
  (hasfrac = false /\ next' = next)
  \/ (hasfrac = true /\ input !! next = Some 0x2e%Z
      /\ next + 2 <= next' <= length input
      /\ forall i, next < i < next' -> at_is input i IsDigit = true).
Proof.
  unfold ParseNum_frac.
  destruct (at_is input next (Z.eqb 0x2e)) eqn:Hdot;
    [| intros [= <- <- <-]; left; auto].
  apply at_is_true in Hdot as (ch & E & Hch). apply Z.eqb_eq in Hch. subst ch.
  destruct (at_is input (S next) IsDigit) eqn:Hd; cbn [negb]; [|discriminate].
  pose proof (at_is_lt _ _ Hd) as Hlt.
  destruct (ParseNum_frac_loop input (length input - S next) (S next) 0%float 10%float)
    as [f n1] eqn:Hloop.
  intros [= <- <- <-]. right.
  pose proof (ParseNum_frac_loop_spec _ _ _ _ _ _ Hloop ltac:(lia)) as [Hb Hall].
  assert (S next < n1).
  { replace (length input - S next) with (S (length input - S (S next))) in Hloop by lia.
    cbn [ParseNum_frac_loop] in Hloop.
    apply at_is_true in Hd as (ch & E' & Hd). rewrite E', Hd in Hloop.
    apply lookup_lt_Some in E'.
    apply ParseNum_frac_loop_spec in Hloop; lia. }
  split; [reflexivity|]. split; [exact E|]. split; [lia|].
  intros i Hi. apply Hall. lia.
Qed.

Lemma ParseNum_sign_loop_bounds (signs : list (string * bool)) :
  forall (next : nat) (expneg : bool) (next' : nat) (expneg' : bool),
    ParseNum_sign_loop signs input next expneg = (next', expneg') ->
    next <= length input -> next <= next' <= length input.
Proof.
  induction signs as [|[sign val] rest IH]; intros next expneg next' expneg' H Hle;
    cbn [ParseNum_sign_loop] in H.
  - injection H as <- <-. lia.
  - pose proof (SkipSpace_ge input next Hle) as Hge.
    pose proof (SkipSpace_le_length input next) as Hlen.
    destruct (Consume input next sign) as [n1 [e|]] eqn:Hc.
    + apply Consume_fail_cursor in Hc. subst n1.
      apply IH in H; lia.
    + injection H as <- <-. apply Consume_ok in Hc as (Hn & Hl & _). lia.
Qed.

(** The exponent part, when it is read without error. *)
Lemma ParseNum_exp_ok (signs : list (string * bool)) (next : nat) (hasexp : bool)
    (expnum : Z) (next' : nat) :
  ParseNum_exp signs input next = (hasexp, expnum, next', None) ->
  (hasexp = false /\ next' = next)
  \/ (hasexp = true
      /\ (input !! next = Some 0x65%Z \/ input !! next = Some 0x45%Z)
      /\ next + 2 <= next' <= length input).
Proof.
  unfold ParseNum_exp.
  destruct (at_is input next (fun ch => (ch =? 0x65)%Z || (ch =? 0x45)%Z)) eqn:He;
    [| intros [= <- <- <-]; left; auto].
  apply at_is_true in He as (ch & E & Hch).
  pose proof (lookup_lt_Some _ _ _ E) as Hlt.
  destruct (ParseNum_sign_loop signs input (S next) false) as [n1 expneg] eqn:Hsign.
  apply ParseNum_sign_loop_bounds in Hsign; [|lia].
  destruct (ScanInt input n1) as [[v n2] [e|]] eqn:Hscan; [discriminate|].
  apply ScanInt_ok in Hscan as [Hb _].
  intros [= <- <- <-]. right. split; [reflexivity|]. split; [|lia].
  apply orb_true_iff in Hch as [Hch|Hch]; apply Z.eqb_eq in Hch; subst ch; auto.
Qed.

End NumberFacts.

Section ParseNumFacts.
Context (input : list rune).

Lemma tok_minus_runes : go_runes_of_string tok_minus = [0x2d%Z].
Proof. reflexivity. Qed.

Lemma ParseNum_whole_ok (next : nat) (ch0 : Z) (whole : Z) (next' : nat) :
  input !! next = Some ch0 ->
  ParseNum_whole input next ch0 = (whole, next', None) ->
  next < next' <= length input
  /\ forall i, next <= i < next' -> at_is input i IsDigit = true.
Proof.
  intros E. unfold ParseNum_whole. pose proof (lookup_lt_Some _ _ _ E) as Hlt.
  destruct (Z.eqb_spec ch0 0x30) as [->|Hne].
  - intros [= <- <-]. split; [lia|]. intros i Hi.
    replace i with next by lia. apply at_is_true. exists 0x30%Z. auto.
  - apply ScanInt_ok.
Qed.

(** The parts of a literal that [ParseNum] reads without error. *)
Lemma ParseNum_ord_ok (signs : list (string * bool)) (cur : nat) (value : JsonValue)
    (next : nat) :
  ParseNum_ord signs input cur = (value, next, None) ->
  let s := SkipSpace input cur in
  exists (neg : bool) (n1 : nat) (ch0 whole : Z) (n2 : nat) (hasfrac : bool)
         (frac : float) (n3 : nat) (hasexp : bool) (expnum : Z),
    (neg = true /\ input !! s = Some 0x2d%Z /\ n1 = S s \/ neg = false /\ n1 = s)
    /\ input !! n1 = Some ch0
    /\ ParseNum_whole input n1 ch0 = (whole, n2, None)
    /\ ParseNum_frac input n2 = (hasfrac, frac, n3, None)
    /\ ParseNum_exp signs input n3 = (hasexp, expnum, next, None)
    /\ value = ParseNum_value neg whole (hasfrac || hasexp) frac hasexp expnum.
Proof.
  intros H s. unfold ParseNum_ord in H.
  rewrite (Consume_single input cur tok_minus _ tok_minus_runes) in H. fold s in H.
  set (neg := if decide (input !! s = Some 0x2d%Z) then true else false).
  set (n1 := if decide (input !! s = Some 0x2d%Z) then S s else s).
  assert (Hsign : neg = true /\ input !! s = Some 0x2d%Z /\ n1 = S s
                  \/ neg = false /\ n1 = s).
  { subst neg n1. destruct (decide (input !! s = Some 0x2d%Z)); auto. }
  assert (H' : match input !! n1 with
               | None => (JNull, n1, Some (mkParseError n1 ExpectsDigitsGotEOS))
               | Some ch0 =>
                   let '(whole, next, err) := ParseNum_whole input n1 ch0 in
                   match err with
                   | Some e => (JNull, next, Some e)
                   | None =>
                       let '(hasfrac, frac, next, err) := ParseNum_frac input next in
                       match err with
                       | Some e => (JNull, next, Some e)
                       | None =>
                           let '(hasexp, expnum, next, err) :=
                             ParseNum_exp signs input next in
                           match err with
                           | Some e => (JNull, next, Some e)
                           | None =>
                               (ParseNum_value neg whole (hasfrac || hasexp) frac
                                  hasexp expnum, next, None)
                           end
                       end
                   end
               end = (value, next, None)).
  { subst neg n1. destruct (decide (input !! s = Some 0x2d%Z)); exact H. }
  clear H. clearbody neg n1.
  destruct (input !! n1) as [ch0|] eqn:E0; [|discriminate].
  destruct (ParseNum_whole input n1 ch0) as [[whole n2] [e|]] eqn:Hw; [discriminate|].
  destruct (ParseNum_frac input n2) as [[[hasfrac frac] n3] [e|]] eqn:Hf; [discriminate|].
  destruct (ParseNum_exp signs input n3) as [[[hasexp expnum] n4] [e|]] eqn:He;
    [discriminate|].
  injection H' as <- <-.
  exists neg, n1, ch0, whole, n2, hasfrac, frac, n3, hasexp, expnum. auto 10.
Qed.

Lemma ParseNum_ord_progress (signs : list (string * bool)) (cur : nat)
    (value : JsonValue) (next : nat) :
  ParseNum_ord signs input cur = (value, next, None) -> cur < next <= length input.
Proof.
  intros H. apply ParseNum_ord_ok in H.
  destruct H as (neg & n1 & ch0 & whole & n2 & hasfrac & frac & n3 & hasexp & expnum
                 & Hsign & E0 & Hw & Hf & He & _).
  apply (ParseNum_whole_ok _ _ _ _ E0) in Hw as [Hw _].
  apply ParseNum_frac_ok in Hf. apply ParseNum_exp_ok in He.
  assert (Hs : cur <= SkipSpace input cur).
  { destruct (le_lt_dec cur (length input)) as [Hle|Hgt];
      [exact (SkipSpace_ge input cur Hle)|].
    apply lookup_lt_Some in E0. rewrite (SkipSpace_at_end input cur) in Hsign by lia.
    lia. }
  lia.
Qed.

Lemma digit_not_marker (ch : Z) : IsDigit ch = true -> is_frac_exp_marker ch = false.
Proof. unfold IsDigit, is_frac_exp_marker. lia. Qed.

(** The kind of the value follows the lexical form. *)
Lemma ParseNum_ord_kind (signs : list (string * bool)) (cur : nat) (value : JsonValue)
    (next : nat) :
  ParseNum_ord signs input cur = (value, next, None) ->
  (~ literal_has_frac_or_exp input (SkipSpace input cur) next /\ exists z, value = JInt z)
  \/ (literal_has_frac_or_exp input (SkipSpace input cur) next /\ exists f, value = JFloat f).
Proof.
  intros H. apply ParseNum_ord_ok in H.
  destruct H as (neg & n1 & ch0 & whole & n2 & hasfrac & frac & n3 & hasexp & expnum
                 & Hsign & E0 & Hw & Hf & He & ->).
  apply (ParseNum_whole_ok _ _ _ _ E0) in Hw as [Hw Hdig].
  apply ParseNum_frac_ok in Hf. apply ParseNum_exp_ok in He.
  set (s := SkipSpace input cur) in *.
  destruct Hf as [[-> ->] | (-> & Edot & Hf & _)].
  - destruct He as [[-> ->] | (-> & Eexp & He)].
    + left. split.
      * intros (i & ch & Hi & Ei & Hm).
        destruct (decide (i < n1)) as [Hlt|Hge].
        -- destruct Hsign as [(_ & Es & ->) | (_ & ->)]; [|lia].
           replace i with s in Ei by lia. rewrite Es in Ei. injection Ei as <-.
           discriminate Hm.
        -- specialize (Hdig i ltac:(lia)). apply at_is_true in Hdig as (c & Ec & Hc).
           rewrite Ei in Ec. injection Ec as <-.
           apply digit_not_marker in Hc. congruence.
      * unfold ParseNum_value. cbn [orb negb]. destruct neg; eexists; reflexivity.
    + right. split.
      * destruct Eexp as [Ee|Ee]; eexists n2, _;
          (split; [lia|]); (split; [exact Ee | reflexivity]).
      * unfold ParseNum_value. cbn [orb negb]. eexists; reflexivity.
  - right. split.
    + exists n2, 0x2e%Z. split; [|split; [exact Edot | reflexivity]].
      destruct He as [[_ ->] | (_ & _ & He)]; lia.
    + unfold ParseNum_value. cbn [orb negb]. eexists; reflexivity.
Qed.

End ParseNumFacts.

(** C2: a numeric literal that is read gives an Integer exactly when it
    holds no point and no exponent marker, and a Float otherwise, whatever
    its magnitude; the text [[1,2.5,-3e2]] gives Integer 1, Float 2.5 and
    Float -300. *)
Theorem ParseNum_kind_by_lexical_form :
  (forall (input : list rune) (cur : nat) (value : JsonValue) (next : nat),
     ParseNum input cur = (value, next, None) ->
     ((exists z, value = JInt z)
        <-> ~ literal_has_frac_or_exp input (SkipSpace input cur) next)
     /\ ((exists f, value = JFloat f)
        <-> literal_has_frac_or_exp input (SkipSpace input cur) next))
  /\ Parse "9223372036854775808" = Done (JInt (-9223372036854775808), None)
  /\ Parse "1e0" = Done (JFloat 1, None)
  /\ Parse "[1,2.5,-3e2]" = Done (JArray [JInt 1; JFloat 2.5; JFloat (-300)], None).
Proof.
  split; [|split; [|split]]; [|vm_compute; reflexivity..].
  intros input cur value next H. apply ParseNum_ord_kind in H.
  destruct H as [[Hno [z ->]] | [Hyes [f ->]]].
  - split; split.
    + intros _. exact Hno.
    + intros _. eexists; reflexivity.
    + intros [f [=]].
    + intros Hyes. contradiction.
  - split; split.
    + intros [z [=]].
    + intros Hno. contradiction.
    + intros _. exact Hyes.
    + intros _. eexists; reflexivity.
Qed.

Lemma ParseNum_kind_by_lexical_form_witness :
  ((exists z, JInt 12 = JInt z)
     <-> ~ literal_has_frac_or_exp [0x20; 0x31; 0x32; 0x2c]%Z
             (SkipSpace [0x20; 0x31; 0x32; 0x2c]%Z 0) 3)
  /\ ((exists f, JInt 12 = JFloat f)
     <-> literal_has_frac_or_exp [0x20; 0x31; 0x32; 0x2c]%Z
             (SkipSpace [0x20; 0x31; 0x32; 0x2c]%Z 0) 3).
Proof.
  exact (proj1 ParseNum_kind_by_lexical_form [0x20; 0x31; 0x32; 0x2c]%Z 0 (JInt 12) 3
           eq_refl).
Defined.

(** * Proofs: the order of the literal sets *)

Section LiteralOrder.
Context (input : list rune).

Lemma Consume_ok_head (cur : nat) (tok : string) (next : nat) (c : Z) (rest : list Z) :
  Consume input cur tok = (next, None) ->
  go_runes_of_string tok = c :: rest ->
  input !! SkipSpace input cur = Some c.
Proof.
  intros H Htok. apply Consume_ok in H as (_ & _ & Hall).
  specialize (Hall 0 c). rewrite Htok, Nat.add_0_r in Hall. apply Hall. reflexivity.
Qed.

(** At most one keyword matches at a position. *)
Lemma bool_null_exclusive (cur : nat) (lit1 lit2 : string) (v1 v2 : JsonValue)
    (n1 n2 : nat) :
  (lit1, v1) ∈ bool_null_literals -> (lit2, v2) ∈ bool_null_literals ->
  Consume input cur lit1 = (n1, None) -> Consume input cur lit2 = (n2, None) ->
  (lit1, v1) = (lit2, v2).
Proof.
  unfold bool_null_literals. rewrite !elem_of_cons, !elem_of_nil.
  intros [[= -> ->] | [[= -> ->] | [[= -> ->] | []]]]
         [[= -> ->] | [[= -> ->] | [[= -> ->] | []]]] H1 H2;
    try reflexivity;
    pose proof (Consume_ok_head _ _ _ _ _ H1 eq_refl) as E1;
    pose proof (Consume_ok_head _ _ _ _ _ H2 eq_refl) as E2;
    rewrite E1 in E2; discriminate E2.
Qed.

(** At most one sign matches at a position. *)
Lemma sign_exclusive (cur : nat) (s1 s2 : string) (v1 v2 : bool) (n1 n2 : nat) :
  (s1, v1) ∈ sign_literals -> (s2, v2) ∈ sign_literals ->
  Consume input cur s1 = (n1, None) -> Consume input cur s2 = (n2, None) ->
  (s1, v1) = (s2, v2).
Proof.
  unfold sign_literals. rewrite !elem_of_cons, !elem_of_nil.
  intros [[= -> ->] | [[= -> ->] | []]] [[= -> ->] | [[= -> ->] | []]] H1 H2;
    try reflexivity;
    pose proof (Consume_ok_head _ _ _ _ _ H1 eq_refl) as E1;
    pose proof (Consume_ok_head _ _ _ _ _ H2 eq_refl) as E2;
    rewrite E1 in E2; discriminate E2.
Qed.

Lemma Consume_dec (cur : nat) (tok : string) :
  consume_fails input cur tok \/ exists next, Consume input cur tok = (next, None).
Proof.
  unfold consume_fails. destruct (Consume input cur tok) as [next [e|]];
    [left; exists next, e; reflexivity | right; exists next; reflexivity].
Qed.

(** The keyword loop when no entry matches. *)
Lemma ParseBoolNull_loop_none (cur : nat) (literals : list (string * JsonValue)) :
  forall next0 : nat,
    (forall lit v, (lit, v) ∈ literals -> consume_fails input cur lit) ->
    ParseBoolNull_loop literals input cur next0 =
      let next := match literals with [] => next0 | _ => SkipSpace input cur end in
      (JNull, next, Some (mkParseError next ExpectTrueFalseNull)).
Proof.
  induction literals as [|[lit v] rest IH]; intros next0 Hall; [reflexivity|].
  cbn [ParseBoolNull_loop].
  destruct (Hall lit v ltac:(left)) as (n & e & Hc). rewrite Hc.
  apply Consume_fail_cursor in Hc. subst n.
  rewrite IH by (intros lit' v' Hin; apply (Hall lit' v'); right; exact Hin).
  destruct rest; reflexivity.
Qed.

(** The keyword loop when exactly one entry matches. *)
Lemma ParseBoolNull_loop_unique (cur : nat) (lit : string) (v : JsonValue) (n : nat)
    (literals : list (string * JsonValue)) :
  forall next0 : nat,
    (lit, v) ∈ literals ->
    Consume input cur lit = (n, None) ->
    (forall lit' v' n', (lit', v') ∈ literals ->
       Consume input cur lit' = (n', None) -> (lit', v') = (lit, v)) ->
    ParseBoolNull_loop literals input cur next0 = (v, n, None).
Proof.
  induction literals as [|[lit0 v0] rest IH]; intros next0 Hin Hc Huniq.
  - apply elem_of_nil in Hin. contradiction.
  - cbn [ParseBoolNull_loop].
    destruct (Consume input cur lit0) as [n0 [e|]] eqn:Hc0.
    + apply elem_of_cons in Hin as [[= <- <-] | Hin]; [congruence|].
      apply IH; [exact Hin | exact Hc |].
      intros lit' v' n' Hin'. apply Huniq. right. exact Hin'.
    + pose proof (Huniq lit0 v0 n0 ltac:(left) Hc0) as [= -> ->].
      rewrite Hc in Hc0. injection Hc0 as <-. reflexivity.
Qed.

Lemma ParseBoolNull_ord_permutation (literals : list (string * JsonValue)) (cur : nat) :
  Permutation literals bool_null_literals ->
  ParseBoolNull_ord literals input cur = ParseBoolNull input cur.
Proof.
  intros Hperm. unfold ParseBoolNull, ParseBoolNull_ord.
  assert (Hmatch : (exists lit v n, (lit, v) ∈ bool_null_literals
                                    /\ Consume input cur lit = (n, None))
                   \/ forall lit v, (lit, v) ∈ bool_null_literals -> consume_fails input cur lit).
  { destruct (Consume_dec cur "true") as [Ht | [n Ht]];
      [| left; exists "true", (JBool true), n; split; [set_solver | exact Ht]].
    destruct (Consume_dec cur "false") as [Hf | [n Hf]];
      [| left; exists "false", (JBool false), n; split; [set_solver | exact Hf]].
    destruct (Consume_dec cur "null") as [Hn | [n Hn]];
      [| left; exists "null", JNull, n; split; [set_solver | exact Hn]].
    right. unfold bool_null_literals. intros lit v.
    rewrite !elem_of_cons, elem_of_nil.
    intros [[= -> ->] | [[= -> ->] | [[= -> ->] | []]]]; assumption. }
  destruct Hmatch as [(lit & v & n & Hin & Hc) | Hnone].
  - rewrite (ParseBoolNull_loop_unique cur lit v n literals);
      [ rewrite (ParseBoolNull_loop_unique cur lit v n bool_null_literals);
        [reflexivity | exact Hin | exact Hc |]
      | rewrite Hperm; exact Hin | exact Hc |].
    + intros lit' v' n' Hin' Hc'. exact (bool_null_exclusive cur _ _ _ _ _ _ Hin' Hin Hc' Hc).
    + intros lit' v' n' Hin' Hc'. rewrite Hperm in Hin'.
      exact (bool_null_exclusive cur _ _ _ _ _ _ Hin' Hin Hc' Hc).
  - rewrite (ParseBoolNull_loop_none cur literals)
      by (intros lit v Hin; apply (Hnone lit v); rewrite <- Hperm; exact Hin).
    rewrite (ParseBoolNull_loop_none cur bool_null_literals) by exact Hnone.
    destruct literals; [|reflexivity].
    apply Permutation_nil in Hperm. discriminate Hperm.
Qed.

(** The sign loop when no entry matches. *)
Lemma ParseNum_sign_loop_none (signs : list (string * bool)) :
  forall (next : nat) (expneg : bool),
    (forall sign v, (sign, v) ∈ signs -> consume_fails input next sign) ->
    ParseNum_sign_loop signs input next expneg =
      (match signs with [] => next | _ => SkipSpace input next end, expneg).
Proof.
  induction signs as [|[sign v] rest IH]; intros next expneg Hall; [reflexivity|].
  cbn [ParseNum_sign_loop].
  destruct (Hall sign v ltac:(left)) as (n & e & Hc). rewrite Hc.
  apply Consume_fail_cursor in Hc. subst n.
  rewrite IH.
  - rewrite SkipSpace_idempotent. destruct rest; reflexivity.
  - intros sign' v' Hin. unfold consume_fails. rewrite Consume_SkipSpace.
    apply (Hall sign' v'). right. exact Hin.
Qed.

(** The sign loop when exactly one entry matches. *)
Lemma ParseNum_sign_loop_unique (sign : string) (v : bool) (signs : list (string * bool)) :
  forall (next : nat) (expneg : bool) (n : nat),
    (sign, v) ∈ signs ->
    Consume input next sign = (n, None) ->
    (forall sign' v' n', (sign', v') ∈ signs ->
       Consume input next sign' = (n', None) -> (sign', v') = (sign, v)) ->
    ParseNum_sign_loop signs input next expneg = (n, v).
Proof.
  induction signs as [|[sign0 v0] rest IH]; intros next expneg n Hin Hc Huniq.
  - apply elem_of_nil in Hin. contradiction.
  - cbn [ParseNum_sign_loop].
    destruct (Consume input next sign0) as [n0 [e|]] eqn:Hc0.
    + apply elem_of_cons in Hin as [[= <- <-] | Hin]; [congruence|].
      apply Consume_fail_cursor in Hc0. subst n0.
      apply IH; [exact Hin | rewrite Consume_SkipSpace; exact Hc |].
      intros sign' v' n' Hin'. rewrite Consume_SkipSpace.
      apply Huniq. right. exact Hin'.
    + pose proof (Huniq sign0 v0 n0 ltac:(left) Hc0) as [= -> ->].
      rewrite Hc in Hc0. injection Hc0 as <-. reflexivity.
Qed.

Lemma ParseNum_sign_loop_permutation (signs : list (string * bool)) (next : nat)
    (expneg : bool) :
  Permutation signs sign_literals ->
  ParseNum_sign_loop signs input next expneg
  = ParseNum_sign_loop sign_literals input next expneg.
Proof.
  intros Hperm.
  assert (Hmatch : (exists sign v n, (sign, v) ∈ sign_literals
                                     /\ Consume input next sign = (n, None))
                   \/ forall sign v, (sign, v) ∈ sign_literals -> consume_fails input next sign).
  { destruct (Consume_dec next tok_plus) as [Hp | [n Hp]];
      [| left; exists tok_plus, false, n; split; [set_solver | exact Hp]].
    destruct (Consume_dec next tok_minus) as [Hm | [n Hm]];
      [| left; exists tok_minus, true, n; split; [set_solver | exact Hm]].
    right. unfold sign_literals. intros sign v.
    rewrite !elem_of_cons, elem_of_nil.
    intros [[= -> ->] | [[= -> ->] | []]]; assumption. }
  destruct Hmatch as [(sign & v & n & Hin & Hc) | Hnone].
  - rewrite (ParseNum_sign_loop_unique sign v signs next expneg n);
      [ rewrite (ParseNum_sign_loop_unique sign v sign_literals next expneg n);
        [reflexivity | exact Hin | exact Hc |]
      | rewrite Hperm; exact Hin | exact Hc |].
    + intros s' v' n' Hin' Hc'. exact (sign_exclusive next _ _ _ _ _ _ Hin' Hin Hc' Hc).
    + intros s' v' n' Hin' Hc'. rewrite Hperm in Hin'.
      exact (sign_exclusive next _ _ _ _ _ _ Hin' Hin Hc' Hc).
  - rewrite (ParseNum_sign_loop_none signs)
      by (intros s v Hin; apply (Hnone s v); rewrite <- Hperm; exact Hin).
    rewrite (ParseNum_sign_loop_none sign_literals) by exact Hnone.
    destruct signs; [|reflexivity].
    apply Permutation_nil in Hperm. discriminate Hperm.
Qed.

Lemma ParseNum_ord_permutation (signs : list (string * bool)) (cur : nat) :
  Permutation signs sign_literals ->
  ParseNum_ord signs input cur = ParseNum input cur.
Proof.
  intros Hperm. unfold ParseNum, ParseNum_ord.
  destruct (Consume input cur tok_minus) as [n0 suberr].
  destruct (input !! n0) as [ch0|]; [|reflexivity].
  destruct (ParseNum_whole input n0 ch0) as [[whole n1] [e|]]; [reflexivity|].
  destruct (ParseNum_frac input n1) as [[[hasfrac frac] n2] [e|]]; [reflexivity|].
  unfold ParseNum_exp.
  destruct (at_is input n2 _); [|reflexivity].
  rewrite (ParseNum_sign_loop_permutation signs (S n2) false Hperm). reflexivity.
Qed.

End LiteralOrder.

(** C7: the keyword of the boolean/null production and the sign of an
    exponent are found whatever the order in which the map of the
    candidates is iterated: at most one candidate matches at a position,
    and the value, the cursor and the error returned are those of any one
    order. *)
Theorem literal_order_irrelevant :
  (forall (literals : list (string * JsonValue)) (input : list rune) (cur : nat),
     Permutation literals bool_null_literals ->
     ParseBoolNull_ord literals input cur = ParseBoolNull input cur)
  /\ (forall (signs : list (string * bool)) (input : list rune) (cur : nat),
     Permutation signs sign_literals ->
     ParseNum_ord signs input cur = ParseNum input cur)
  /\ (forall (input : list rune) (cur : nat) (lit1 lit2 : string) (v1 v2 : JsonValue)
        (n1 n2 : nat),
     (lit1, v1) ∈ bool_null_literals -> (lit2, v2) ∈ bool_null_literals ->
     Consume input cur lit1 = (n1, None) -> Consume input cur lit2 = (n2, None) ->
     lit1 = lit2)
  /\ (forall (input : list rune) (cur : nat) (s1 s2 : string) (v1 v2 : bool)
        (n1 n2 : nat),
     (s1, v1) ∈ sign_literals -> (s2, v2) ∈ sign_literals ->
     Consume input cur s1 = (n1, None) -> Consume input cur s2 = (n2, None) ->
     s1 = s2).
Proof.
  split; [|split; [|split]].
  - intros literals input cur. apply ParseBoolNull_ord_permutation.
  - intros signs input cur. apply ParseNum_ord_permutation.
  - intros input cur lit1 lit2 v1 v2 n1 n2 H1 H2 Hc1 Hc2.
    pose proof (bool_null_exclusive input cur _ _ _ _ _ _ H1 H2 Hc1 Hc2) as [= -> _].
    reflexivity.
  - intros input cur s1 s2 v1 v2 n1 n2 H1 H2 Hc1 Hc2.
    pose proof (sign_exclusive input cur _ _ _ _ _ _ H1 H2 Hc1 Hc2) as [= -> _].
    reflexivity.
Qed.

Lemma literal_order_irrelevant_witness :
  ParseBoolNull_ord [("null", JNull); ("true", JBool true); ("false", JBool false)]
     [0x20; 0x66; 0x61; 0x6c; 0x73; 0x65]%Z 0
   = ParseBoolNull [0x20; 0x66; 0x61; 0x6c; 0x73; 0x65]%Z 0
  /\ ParseNum_ord [(tok_minus, true); (tok_plus, false)]
       [0x31; 0x65; 0x2d; 0x32]%Z 0
     = ParseNum [0x31; 0x65; 0x2d; 0x32]%Z 0
  /\ (forall lit v n, (lit, v) ∈ bool_null_literals ->
         Consume [0x6e; 0x75; 0x6c; 0x6c]%Z 0 lit = (n, None) -> lit = "null")
  /\ (forall s v n, (s, v) ∈ sign_literals ->
         Consume [0x2d; 0x31]%Z 0 s = (n, None) -> s = tok_minus).
Proof.
  destruct literal_order_irrelevant as (Hkw & Hsign & Hkw1 & Hsign1).
  split; [|split; [|split]].
  - apply Hkw. unfold bool_null_literals.
    apply Permutation_sym, perm_trans with
      (l' := [("null", JNull); ("true", JBool true); ("false", JBool false)]).
    + apply Permutation_sym, (Permutation_cons_append [_; _] (_, _)).
    + apply Permutation_refl.
  - apply Hsign. unfold sign_literals. apply perm_swap.
  - intros lit v n Hin Hc.
    apply (Hkw1 [0x6e; 0x75; 0x6c; 0x6c]%Z 0 lit "null" v JNull n 4 Hin);
      [| exact Hc | reflexivity].
    unfold bool_null_literals. rewrite !elem_of_cons. auto.
  - intros s v n Hin Hc.
    apply (Hsign1 [0x2d; 0x31]%Z 0 s tok_minus v true n 1 Hin);
      [| exact Hc | reflexivity].
    unfold sign_literals. rewrite !elem_of_cons. auto.
Defined.

(** * Proofs: arrays, objects and values *)

Section GrammarFacts.
Context (input : list rune).

Lemma ParseBoolNull_progress (cur : nat) (value : JsonValue) (next : nat) :
  ParseBoolNull input cur = (value, next, None) -> cur < next <= length input.
Proof.
  unfold ParseBoolNull, ParseBoolNull_ord, bool_null_literals.
  cbn [ParseBoolNull_loop].
  destruct (Consume input cur "true") as [n1 [e1|]] eqn:H1;
    [| intros [= _ <-]; apply (Consume_ok_progress _ _ _ _ H1); cbn; lia].
  destruct (Consume input cur "false") as [n2 [e2|]] eqn:H2;
    [| intros [= _ <-]; apply (Consume_ok_progress _ _ _ _ H2); cbn; lia].
  destruct (Consume input cur "null") as [n3 [e3|]] eqn:H3;
    [| intros [= _ <-]; apply (Consume_ok_progress _ _ _ _ H3); cbn; lia].
  discriminate.
Qed.

Lemma ParseArrayLike_loop_progress (itemParser : ParseFunc) (close : string) :
  advancing itemParser input ->
  forall (fuel next : nat) (arr : list JsonValue) (value : JsonValue) (next' : nat),
    ParseArrayLike_loop fuel itemParser close input next arr = Done (value, next', None) ->
    next < next' <= length input.
Proof.
  intros Hitem. induction fuel as [|fuel IH]; intros next arr value next' H;
    [discriminate|].
  cbn [ParseArrayLike_loop] in H.
  destruct (itemParser input next) as [[[subval n1] [e|]]| |] eqn:Hi;
    cbn in H; try discriminate.
  apply Hitem in Hi.
  destruct (Consume input n1 tok_comma) as [n2 [e|]] eqn:Hcomma.
  - apply Consume_fail_cursor in Hcomma. subst n2.
    destruct (Consume input (SkipSpace input n1) close) as [n3 [e'|]] eqn:Hclose;
      [discriminate|].
    injection H as <- <-. apply Consume_ok in Hclose as (Hn & Hl & _).
    rewrite SkipSpace_idempotent in Hn.
    pose proof (SkipSpace_ge input n1 ltac:(lia)). lia.
  - apply Consume_ok_progress in Hcomma; [|cbn; lia].
    apply IH in H. lia.
Qed.

Lemma ParseArrayLike_progress (fuel : nat) (itemParser : ParseFunc)
    (bracket : string * string) :
  advancing itemParser input ->
  1 <= length (go_runes_of_string (fst bracket)) ->
  advancing (fun input cur => ParseArrayLike fuel input cur itemParser bracket) input.
Proof.
  intros Hitem Hopen cur value next H. unfold ParseArrayLike in H.
  destruct (Consume input cur bracket.1) as [n1 [e|]] eqn:Ho; [discriminate|].
  apply Consume_ok_progress in Ho; [|assumption].
  destruct (Consume input n1 bracket.2) as [n2 [e|]] eqn:Hc.
  - apply Consume_fail_cursor in Hc. subst n2.
    apply (ParseArrayLike_loop_progress _ _ Hitem) in H.
    pose proof (SkipSpace_ge input n1 ltac:(lia)). lia.
  - injection H as <- <-. apply Consume_ok in Hc as (Hn & Hl & _).
    pose proof (SkipSpace_ge input n1 ltac:(lia)). lia.
Qed.

Lemma ParseKeyValue_progress (parseAny : ParseFunc) :
  advancing parseAny input -> advancing (ParseKeyValue parseAny) input.
Proof.
  intros Hany cur value next H. unfold ParseKeyValue in H.
  destruct (ParseString input cur) as [[[key n1] [e|]]| |] eqn:Hs;
    cbn in H; try discriminate.
  apply ParseString_progress in Hs.
  destruct (Consume input n1 tok_colon) as [n2 [e|]] eqn:Hc; [discriminate|].
  apply Consume_ok_progress in Hc; [|cbn; lia].
  destruct (parseAny input n2) as [[[v n3] [e|]]| |] eqn:Ha; cbn in H; try discriminate.
  apply Hany in Ha. injection H as <- <-. lia.
Qed.

Lemma ParseKeyValue_is_key_value (parseAny : ParseFunc) (cur : nat)
    (value : JsonValue) (next : nat) :
  ParseKeyValue parseAny input cur = Done (value, next, None) -> is_key_value value.
Proof.
  unfold ParseKeyValue. intros H.
  destruct (ParseString input cur) as [[[key n1] [e|]]| |]; cbn in H; try discriminate.
  destruct (Consume input n1 tok_colon) as [n2 [e|]]; [discriminate|].
  destruct (parseAny input n2) as [[[v n3] [e|]]| |]; cbn in H; try discriminate.
  injection H as <- <-. exists key, v. reflexivity.
Qed.

(** What [ParseArrayLike] returns without error is an array of values
    that the item parser returned. *)
Lemma ParseArrayLike_loop_items (itemParser : ParseFunc) (close : string)
    (P : JsonValue -> Prop) :
  (forall cur value next, itemParser input cur = Done (value, next, None) -> P value) ->
  forall (fuel next : nat) (arr : list JsonValue) (value : JsonValue) (next' : nat),
    Forall P arr ->
    ParseArrayLike_loop fuel itemParser close input next arr = Done (value, next', None) ->
    exists items, value = JArray items /\ Forall P items.
Proof.
  intros Hitem. induction fuel as [|fuel IH]; intros next arr value next' Harr H;
    [discriminate|].
  cbn [ParseArrayLike_loop] in H.
  destruct (itemParser input next) as [[[subval n1] [e|]]| |] eqn:Hi;
    cbn in H; try discriminate.
  apply Hitem in Hi.
  assert (Harr' : Forall P (arr ++ [subval])).
  { apply Forall_app. split; [assumption | repeat constructor; assumption]. }
  destruct (Consume input n1 tok_comma) as [n2 [e|]].
  - destruct (Consume input n2 close) as [n3 [e'|]]; [discriminate|].
    injection H as <- <-. eauto.
  - exact (IH _ _ _ _ Harr' H).
Qed.

Lemma ParseArrayLike_items (fuel : nat) (itemParser : ParseFunc)
    (bracket : string * string) (P : JsonValue -> Prop) (cur : nat)
    (value : JsonValue) (next : nat) :
  (forall cur value next, itemParser input cur = Done (value, next, None) -> P value) ->
  ParseArrayLike fuel input cur itemParser bracket = Done (value, next, None) ->
  exists items, value = JArray items /\ Forall P items.
Proof.
  intros Hitem H. unfold ParseArrayLike in H.
  destruct (Consume input cur bracket.1) as [n1 [e|]]; [discriminate|].
  destruct (Consume input n1 bracket.2) as [n2 [e|]].
  - exact (ParseArrayLike_loop_items _ _ P Hitem _ _ _ _ _ (Forall_nil_2 P) H).
  - injection H as <- <-. exists []. split; [reflexivity | constructor].
Qed.

Lemma ParseArrayLike_loop_total (itemParser : ParseFunc) (close : string) :
  advancing itemParser input ->
  forall (fuel next : nat) (arr : list JsonValue),
    (forall cur, next <= cur -> exists r, itemParser input cur = Done r) ->
    length input - next < fuel ->
    exists r, ParseArrayLike_loop fuel itemParser close input next arr = Done r.
Proof.
  intros Hadv. induction fuel as [|fuel IH]; intros next arr Htotal Hfuel; [lia|].
  cbn [ParseArrayLike_loop].
  destruct (Htotal next ltac:(lia)) as [[[subval n1] err] Hi]. rewrite Hi. cbn.
  destruct err as [e|]; [eexists; reflexivity|].
  apply Hadv in Hi.
  destruct (Consume input n1 tok_comma) as [n2 [e|]] eqn:Hcomma.
  - destruct (Consume input n2 close) as [n3 [e'|]]; eexists; reflexivity.
  - apply Consume_ok_progress in Hcomma; [|cbn; lia].
    apply IH; [|lia]. intros cur Hcur. apply Htotal. lia.
Qed.

Lemma ParseArrayLike_total (fuel : nat) (itemParser : ParseFunc)
    (bracket : string * string) (cur : nat) :
  advancing itemParser input ->
  1 <= length (go_runes_of_string (fst bracket)) ->
  (forall cur', cur < cur' -> exists r, itemParser input cur' = Done r) ->
  length input - cur <= fuel ->
  exists r, ParseArrayLike fuel input cur itemParser bracket = Done r.
Proof.
  intros Hadv Hopen Htotal Hfuel. unfold ParseArrayLike.
  destruct (Consume input cur bracket.1) as [n1 [e|]] eqn:Ho; [eexists; reflexivity|].
  apply Consume_ok_progress in Ho; [|assumption].
  destruct (Consume input n1 bracket.2) as [n2 [e|]] eqn:Hc; [|eexists; reflexivity].
  apply Consume_fail_cursor in Hc. subst n2.
  pose proof (SkipSpace_ge input n1 ltac:(lia)).
  apply (ParseArrayLike_loop_total _ _ Hadv); [|lia].
  intros cur' Hcur'. apply Htotal. lia.
Qed.

Lemma ParseMap_convert_total (items : list JsonValue) :
  forall jmap, Forall is_key_value items ->
    exists jmap', ParseMap_convert items jmap = Some jmap'.
Proof.
  induction items as [|item items IH]; intros jmap Hall; [eexists; reflexivity|].
  apply Forall_cons_1 in Hall as [(key & value & ->) Hall].
  cbn [ParseMap_convert]. apply IH. assumption.
Qed.

(** [ParseMap] without error: the array of pairs and the map made of it. *)
Lemma ParseMap_ok (fuel : nat) (parseAny : ParseFunc) (cur : nat) (value : JsonValue)
    (next : nat) :
  ParseMap fuel parseAny input cur = Done (value, next, None) ->
  exists items jmap,
    ParseArrayLike fuel input cur (ParseKeyValue parseAny) ("{", "}")
      = Done (JArray items, next, None)
    /\ ParseMap_convert items ∅ = Some jmap
    /\ value = JObject jmap.
Proof.
  unfold ParseMap. intros H.
  destruct (ParseArrayLike fuel input cur (ParseKeyValue parseAny) ("{", "}"))
    as [[[v n1] [e|]]| |] eqn:Ha; cbn in H; try discriminate.
  destruct v; try discriminate.
  destruct (ParseMap_convert items ∅) as [jmap|] eqn:Hconv; [|discriminate].
  injection H as <- <-. eauto.
Qed.

Lemma ParseAny_progress (fuel : nat) : advancing (ParseAny fuel) input.
Proof.
  induction fuel as [|fuel IH]; intros cur value next H; [discriminate|].
  cbn [ParseAny] in H.
  destruct (input !! SkipSpace input cur) as [ch|] eqn:E; [|discriminate].
  assert (Hs : cur <= SkipSpace input cur < length input).
  { pose proof (lookup_lt_Some _ _ _ E) as Hlt. split; [|exact Hlt].
    destruct (le_lt_dec cur (length input)) as [Hle|Hgt];
      [exact (SkipSpace_ge input cur Hle)|].
    rewrite (SkipSpace_at_end input cur) in Hlt by lia. lia. }
  destruct (ch =? 0x5b)%Z.
  { apply (ParseArrayLike_progress fuel _ ("[", "]") IH) in H; [lia | cbn; lia]. }
  destruct (ch =? 0x7b)%Z.
  { apply ParseMap_ok in H as (items & jmap & H & _).
    apply (ParseArrayLike_progress fuel _ ("{", "}")
             (ParseKeyValue_progress _ IH)) in H; [lia | cbn; lia]. }
  destruct (ch =? 0x22)%Z.
  { destruct (ParseString input (SkipSpace input cur)) as [[[s n1] err]| |] eqn:Hstr;
      cbn in H; try discriminate.
    injection H as <- <- ->. apply ParseString_progress in Hstr. lia. }
  destruct (IsDigit ch || (ch =? 0x2d)%Z).
  { injection H as H. apply ParseNum_ord_progress in H. lia. }
  destruct ((ch =? 0x74)%Z || (ch =? 0x66)%Z || (ch =? 0x6e)%Z).
  { injection H as H. apply ParseBoolNull_progress in H. lia. }
  discriminate.
Qed.

Lemma ParseKeyValue_total (parseAny : ParseFunc) (cur : nat) :
  (forall cur', cur < cur' -> exists r, parseAny input cur' = Done r) ->
  exists r, ParseKeyValue parseAny input cur = Done r.
Proof.
  intros Htotal. unfold ParseKeyValue.
  destruct (ParseString_total input cur) as [[[key n1] err] Hs]. rewrite Hs. cbn.
  destruct err as [e|]; [eexists; reflexivity|].
  apply ParseString_progress in Hs.
  destruct (Consume input n1 tok_colon) as [n2 [e|]] eqn:Hc; [eexists; reflexivity|].
  apply Consume_ok_progress in Hc; [|cbn; lia].
  destruct (Htotal n2 ltac:(lia)) as [[[v n3] err] Ha]. rewrite Ha. cbn.
  destruct err; eexists; reflexivity.
Qed.

(** Fuel above the distance to the end of the input is never exhausted,
    and no type assertion fails. *)
Lemma ParseAny_total (fuel : nat) :
  forall cur : nat, length input - cur < fuel -> exists r, ParseAny fuel input cur = Done r.
Proof.
  induction fuel as [|fuel IH]; intros cur Hfuel; [lia|].
  cbn [ParseAny].
  destruct (input !! SkipSpace input cur) as [ch|] eqn:E; [|eexists; reflexivity].
  assert (Hs : cur <= SkipSpace input cur < length input).
  { pose proof (lookup_lt_Some _ _ _ E) as Hlt. split; [|exact Hlt].
    destruct (le_lt_dec cur (length input)) as [Hle|Hgt];
      [exact (SkipSpace_ge input cur Hle)|].
    rewrite (SkipSpace_at_end input cur) in Hlt by lia. lia. }
  assert (Hrec : forall cur', SkipSpace input cur < cur' ->
                   exists r, ParseAny fuel input cur' = Done r).
  { intros cur' Hcur'. apply IH. lia. }
  destruct (ch =? 0x5b)%Z.
  { apply ParseArrayLike_total;
      [apply ParseAny_progress | cbn; lia | exact Hrec | lia]. }
  destruct (ch =? 0x7b)%Z.
  { unfold ParseMap.
    destruct (ParseArrayLike_total fuel (ParseKeyValue (ParseAny fuel)) ("{", "}")
                (SkipSpace input cur)) as [[[v n1] err] Ha].
    - apply ParseKeyValue_progress, ParseAny_progress.
    - cbn; lia.
    - intros cur' Hcur'. apply ParseKeyValue_total.
      intros cur'' Hcur''. apply Hrec. lia.
    - lia.
    - rewrite Ha. cbn. destruct err as [e|]; [eexists; reflexivity|].
      destruct (ParseArrayLike_items _ _ _ is_key_value _ _ _
                  (ParseKeyValue_is_key_value _) Ha) as (items & -> & Hkv).
      destruct (ParseMap_convert_total items ∅ Hkv) as [jmap ->].
      eexists; reflexivity. }
  destruct (ch =? 0x22)%Z.
  { destruct (ParseString_total input (SkipSpace input cur)) as [[[s n1] err] ->].
    eexists; reflexivity. }
  destruct (IsDigit ch || (ch =? 0x2d)%Z); [eexists; reflexivity|].
  destruct ((ch =? 0x74)%Z || (ch =? 0x66)%Z || (ch =? 0x6e)%Z); eexists; reflexivity.
Qed.

End GrammarFacts.

(** * Proofs: the entry points *)

Section EntryPoints.

Lemma ReadCode_progress (buf : list Byte.byte) (cur : nat) (code : Z) (next : nat) :
  ReadCode buf cur = (code, next, None) -> cur < next.
Proof.
  destruct (buf !! cur) as [b|] eqn:E.
  - rewrite (ReadCode_lookup _ _ _ E).
    pose proof (ReadCode_leading_cases cur b) as Hcases.
    destruct (utf8_sequence_length b) as [n|].
    + destruct Hcases as (-> & _ & _ & Hn). cbv zeta.
      destruct (length buf - cur <? cur + n - cur - 1 + 1); [discriminate|].
      intros [= _ <-]. lia.
    + destruct Hcases as [(-> & _) | (-> & _)]; discriminate.
  - unfold ReadCode. apply lookup_ge_None in E.
    replace (length buf <=? cur) with true by (symmetry; apply Nat.leb_le; lia).
    discriminate.
Qed.

Lemma Decode_loop_total (input : list Byte.byte) (fuel : nat) :
  forall (cur : nat) (output : list Z),
    length input - cur <= fuel ->
    exists r, Decode_loop fuel input cur output = Done r.
Proof.
  induction fuel as [|fuel IH]; intros cur output Hfuel.
  - cbn [Decode_loop].
    replace (length input <=? cur) with true by (symmetry; apply Nat.leb_le; lia).
    eexists; reflexivity.
  - cbn [Decode_loop]. destruct (Nat.leb_spec (length input) cur); [eexists; reflexivity|].
    destruct (ReadCode input cur) as [[code next] [e|]] eqn:Hr; [eexists; reflexivity|].
    apply ReadCode_progress in Hr. apply IH. lia.
Qed.

Lemma Decode_total (input : list Byte.byte) : exists r, Decode input = Done r.
Proof. apply Decode_loop_total. lia. Qed.

Lemma ParseRunes_total (input : list Z) : exists r, ParseRunes input = Done r.
Proof.
  unfold ParseRunes.
  destruct (ParseAny_total input (S (length input)) 0 ltac:(lia)) as [[[v n] err] ->].
  cbn. destruct err; [eexists; reflexivity|].
  destruct (bool_decide _); eexists; reflexivity.
Qed.

Lemma Parse_total (input : string) : exists r, Parse input = Done r.
Proof.
  unfold Parse, DecodeString.
  destruct (Decode_total (String.list_byte_of_string input)) as [[decoded err] ->].
  cbn [mbind outcome_bind]. destruct err; [eexists; reflexivity|].
  destruct (ParseRunes_total decoded) as [[v e] ->]. eexists; reflexivity.
Qed.

(** [Decode] on bytes below 0x80. *)
Lemma Decode_ascii (bytes : list Byte.byte) :
  Forall (fun b => (b2z b < 0x80)%Z) bytes -> Decode bytes = Done (map b2z bytes, None).
Proof.
  intros Hascii.
  assert (Henc : utf8_layout_runes (map b2z bytes) = bytes).
  { unfold utf8_layout_runes. induction Hascii as [|b bytes Hb _ IH]; [reflexivity|].
    cbn [map concat]. rewrite IH. unfold utf8_layout_rune.
    rewrite (proj2 (Z.ltb_lt _ _) Hb). cbn [app]. f_equal.
    unfold z2b, b2z. rewrite N2Z.id, Byte.of_to_N. reflexivity. }
  rewrite <- Henc at 1. apply Decode_encoded.
  clear Henc. induction Hascii as [|b bytes Hb _ IH]; cbn [map]; constructor;
    [| exact IH].
  pose proof (b2z_range b). unfold is_code_point. lia.
Qed.


Lemma ParseRunes_trailing (input : list Z) (value : JsonValue) (next : nat) :
  ParseAny (S (length input)) input 0 = Done (value, next, None) ->
  (exists i ch, next <= i /\ input !! i = Some ch /\ is_space ch = false) ->
  next <= SkipSpace input next < length input
  /\ ParseRunes input
     = Done (value, Some (mkParseError (SkipSpace input next) NotTerminated)).
Proof.
  intros Hany (i & ch & Hi & E & Hns).
  pose proof (ParseAny_progress input _ _ _ _ Hany) as Hn.
  pose proof (SkipSpace_ge input next ltac:(lia)) as Hge.
  pose proof (SkipSpace_le_length input next) as Hle.
  assert (Hlt : SkipSpace input next < length input).
  { destruct (decide (SkipSpace input next = length input)) as [Heq|Hne]; [|lia].
    pose proof (lookup_lt_Some _ _ _ E) as Hilt.
    pose proof (SkipSpace_spaces input next i ch ltac:(lia) E). congruence. }
  split; [lia|]. unfold ParseRunes. rewrite Hany. cbn.
  rewrite bool_decide_true by lia. reflexivity.
Qed.

End EntryPoints.

Section ObjectFacts.

Lemma ParseMap_convert_app (l1 l2 : list JsonValue) :
  forall jmap, ParseMap_convert (l1 ++ l2) jmap
               = ParseMap_convert l1 jmap ≫= ParseMap_convert l2.
Proof.
  induction l1 as [|item l1 IH]; intros jmap; [reflexivity|].
  destruct item; try reflexivity. cbn [app ParseMap_convert]. apply IH.
Qed.

Lemma ParseMap_convert_other (key : string) (items : list JsonValue) :
  forall jmap jmap',
    ParseMap_convert items jmap = Some jmap' ->
    (forall v, JKeyValue key v ∉ items) ->
    jmap' !! key = jmap !! key.
Proof.
  induction items as [|item items IH]; intros jmap jmap' H Hnot.
  - injection H as <-. reflexivity.
  - destruct item as [| | | | | | |k v]; try discriminate H.
    cbn [ParseMap_convert] in H.
    rewrite (IH _ _ H) by (intros v' Hin; apply (Hnot v'); right; exact Hin).
    apply lookup_insert_ne. intros ->. apply (Hnot v). left.
Qed.

Lemma ParseMap_convert_last (key : string) (v : JsonValue)
    (before after : list JsonValue) (jmap jmap' : gmap string JsonValue) :
  ParseMap_convert (before ++ JKeyValue key v :: after) jmap = Some jmap' ->
  (forall v', JKeyValue key v' ∉ after) ->
  jmap' !! key = Some v.
Proof.
  rewrite ParseMap_convert_app. intros H Hnot.
  destruct (ParseMap_convert before jmap) as [m1|]; [|discriminate H].
  cbn [mbind option_bind ParseMap_convert] in H.
  rewrite (ParseMap_convert_other key after _ _ H Hnot).
  apply lookup_insert_eq.
Qed.


End ObjectFacts.

(** C4: in the object that [ParseMap] returns, a key maps to the value of
    its last pair in the text, and to nothing when it has no pair; the text
    [{"k":true,"k":false}] gives an object that maps "k" to false. *)
Theorem ParseMap_last_key_wins :
  (forall (fuel : nat) (parseAny : ParseFunc) (input : list rune) (cur : nat)
          (value : JsonValue) (next : nat),
     ParseMap fuel parseAny input cur = Done (value, next, None) ->
     exists (items : list JsonValue) (jmap : gmap string JsonValue),
       ParseArrayLike fuel input cur (ParseKeyValue parseAny) ("{", "}")
         = Done (JArray items, next, None)
       /\ Forall is_key_value items
       /\ value = JObject jmap
       /\ (forall key v before after,
             items = before ++ JKeyValue key v :: after ->
             (forall v', JKeyValue key v' ∉ after) ->
             jmap !! key = Some v)
       /\ (forall key, (forall v, JKeyValue key v ∉ items) -> jmap !! key = None))
  /\ Parse ("{" +:+ quoted "k" +:+ ":true," +:+ quoted "k" +:+ ":false}")
     = Done (JObject {[ "k" := JBool false ]}, None).
Proof.
  split; [|vm_compute; reflexivity].
  intros fuel parseAny input cur value next H.
  apply ParseMap_ok in H as (items & jmap & Ha & Hconv & ->).
  exists items, jmap. split; [exact Ha|].
  split.
  { destruct (ParseArrayLike_items input _ _ _ is_key_value _ _ _
                (ParseKeyValue_is_key_value input _) Ha) as (items' & [= <-] & Hkv).
    exact Hkv. }
  split; [reflexivity|]. split.
  - intros key v before after -> Hnot.
    exact (ParseMap_convert_last key v before after ∅ jmap Hconv Hnot).
  - intros key Hnot. rewrite (ParseMap_convert_other key items ∅ jmap Hconv Hnot).
    apply lookup_empty.
Qed.

Lemma ParseMap_last_key_wins_witness :
  exists jmap,
    ParseMap 9 (ParseAny 9)
      [0x7b; 0x22; 0x6b; 0x22; 0x3a; 0x31; 0x2c; 0x22; 0x6b; 0x22; 0x3a; 0x32; 0x7d]%Z 0
      = Done (JObject jmap, 13, None)
    /\ jmap !! "k" = Some (JInt 2)
    /\ jmap !! "z" = None.
Proof.
  assert (Hrun : ParseMap 9 (ParseAny 9)
            [0x7b; 0x22; 0x6b; 0x22; 0x3a; 0x31; 0x2c; 0x22; 0x6b; 0x22; 0x3a; 0x32; 0x7d]%Z 0
            = Done (JObject {[ "k" := JInt 2 ]}, 13, None))
    by (vm_compute; reflexivity).
  destruct (proj1 ParseMap_last_key_wins _ _ _ _ _ _ Hrun)
    as (items & jmap & Ha & _ & Hv & Hlast & Hnone).
  exists jmap. split; [rewrite Hrun, Hv; reflexivity|].
  assert (Hitems : ParseArrayLike 9
              [0x7b; 0x22; 0x6b; 0x22; 0x3a; 0x31; 0x2c; 0x22; 0x6b; 0x22; 0x3a; 0x32; 0x7d]%Z
              0 (ParseKeyValue (ParseAny 9)) ("{", "}")
              = Done (JArray [JKeyValue "k" (JInt 1); JKeyValue "k" (JInt 2)], 13, None))
    by (vm_compute; reflexivity).
  rewrite Hitems in Ha. injection Ha as <-. split.
  - apply (Hlast "k" (JInt 2) [JKeyValue "k" (JInt 1)] []); [reflexivity|].
    intros v' Hin. apply elem_of_nil in Hin. exact Hin.
  - apply Hnone. intros v Hin.
    apply elem_of_cons in Hin as [[=] | Hin].
    apply elem_of_cons in Hin as [[=] | Hin].
    apply elem_of_nil in Hin. exact Hin.
Defined.

(** C8: every parse returns: the fuel of the entry points is never
    exhausted and no type assertion fails; a production that returns
    without error has moved the cursor strictly forward, within the
    input. *)
Theorem Parse_terminates :
  (forall input : string, exists value err, Parse input = Done (value, err))
  /\ (forall input : list rune, exists value err, ParseRunes input = Done (value, err))
  /\ (forall (input : list rune) (fuel cur : nat),
        length input - cur < fuel ->
        exists value next err, ParseAny fuel input cur = Done (value, next, err))
  /\ (forall (input : list rune) (fuel : nat), advancing (ParseAny fuel) input)
  /\ (forall (input : list rune) (fuel : nat),
        advancing (ParseArray fuel (ParseAny fuel)) input
        /\ advancing (ParseMap fuel (ParseAny fuel)) input
        /\ advancing (ParseKeyValue (ParseAny fuel)) input)
  /\ (forall (input : list rune) (cur : nat) (s : string) (next : nat),
        ParseString input cur = Done (s, next, None) -> cur < next <= length input)
  /\ (forall (input : list rune) (cur : nat) (value : JsonValue) (next : nat),
        ParseNum input cur = (value, next, None) -> cur < next <= length input)
  /\ (forall (input : list rune) (cur : nat) (value : JsonValue) (next : nat),
        ParseBoolNull input cur = (value, next, None) -> cur < next <= length input).
Proof.
  split; [|split; [|split; [|split; [|split; [|split; [|split]]]]]].
  - intros input. destruct (Parse_total input) as [[v e] H]. eauto.
  - intros input. destruct (ParseRunes_total input) as [[v e] H]. eauto.
  - intros input fuel cur Hfuel.
    destruct (ParseAny_total input fuel cur Hfuel) as [[[v n] e] H]. eauto.
  - intros input fuel. apply ParseAny_progress.
  - intros input fuel. split; [|split].
    + apply (ParseArrayLike_progress input fuel _ ("[", "]"));
        [apply ParseAny_progress | cbn; lia].
    + intros cur value next H. apply ParseMap_ok in H as (items & jmap & H & _).
      apply (ParseArrayLike_progress input fuel _ ("{", "}")
               (ParseKeyValue_progress input _ (ParseAny_progress input fuel))) in H;
        [exact H | cbn; lia].
    + apply ParseKeyValue_progress, ParseAny_progress.
  - intros input. apply ParseString_progress.
  - intros input cur value next. apply ParseNum_ord_progress.
  - intros input. apply ParseBoolNull_progress.
Qed.

Lemma Parse_terminates_witness :
  (exists value next err, ParseAny 5 [0x20; 0x5b; 0x31; 0x5d]%Z 0 = Done (value, next, err))
  /\ 0 < 4 <= length [0x20; 0x5b; 0x31; 0x5d]%Z
  /\ 1 < 4 <= length [0x20; 0x5b; 0x31; 0x5d]%Z
  /\ 0 < 2 <= length [0x7b; 0x7d]%Z
  /\ 0 < 5 <= length [0x22; 0x61; 0x22; 0x3a; 0x31]%Z
  /\ 0 < 3 <= length [0x22; 0x61; 0x22; 0x3a; 0x31]%Z
  /\ 0 < 2 <= length [0x2d; 0x37; 0x2c]%Z
  /\ 0 < 4 <= length [0x6e; 0x75; 0x6c; 0x6c]%Z.
Proof.
  destruct Parse_terminates as (_ & _ & Hret & Hany & Hprod & Hstr & Hnum & Hkw).
  split; [|split; [|split; [|split; [|split; [|split; [|split]]]]]].
  - apply Hret. cbn. lia.
  - exact (Hany [0x20; 0x5b; 0x31; 0x5d]%Z 5 0 (JArray [JInt 1]) 4 eq_refl).
  - exact (proj1 (Hprod [0x20; 0x5b; 0x31; 0x5d]%Z 4) 1 (JArray [JInt 1]) 4 eq_refl).
  - exact (proj1 (proj2 (Hprod [0x7b; 0x7d]%Z 2)) 0 (JObject ∅) 2 eq_refl).
  - exact (proj2 (proj2 (Hprod [0x22; 0x61; 0x22; 0x3a; 0x31]%Z 2)) 0
             (JKeyValue (go_string_of_runes [0x61%Z]) (JInt 1)) 5 eq_refl).
  - exact (Hstr [0x22; 0x61; 0x22; 0x3a; 0x31]%Z 0 (go_string_of_runes [0x61%Z]) 3 eq_refl).
  - exact (Hnum [0x2d; 0x37; 0x2c]%Z 0 (JInt (-7)) 2 eq_refl).
  - exact (Hkw [0x6e; 0x75; 0x6c; 0x6c]%Z 0 JNull 4 eq_refl).
Defined.

(** C9, on the code: a space between the exponent marker and the sign, or
    the digits, of a literal is skipped and the literal is read as a
    number, while a space after the leading minus, after the point or after
    the sign of the exponent is an error. *)
Theorem ParseNum_skips_space_after_exponent_marker :
  Parse "1e +2" = Done (JFloat 100, None)
  /\ Parse "1e 2" = Done (JFloat 100, None)
  /\ Parse "- 1" = Done (JNull, Some (EParse (mkParseError 1 ExpectDigits)))
  /\ Parse "1. 5" = Done (JNull, Some (EParse (mkParseError 2 ExpectDigits)))
  /\ Parse "1e+ 2" = Done (JNull, Some (EParse (mkParseError 3 ExpectDigits))).
Proof. repeat split; vm_compute; reflexivity. Qed.

(** * Further properties: the lexical layer *)

(** X1: [SkipSpace] returns the first position from [cur] on that holds no
    white space, or the length of the input when there is none; from a
    cursor beyond the end it returns the length of the input; skipping
    twice is skipping once. *)
Theorem SkipSpace_first_non_space (input : list rune) (cur : nat) :
  (cur <= length input ->
     cur <= SkipSpace input cur <= length input
     /\ (forall j ch, cur <= j < SkipSpace input cur ->
           input !! j = Some ch -> is_space ch = true)
     /\ (forall ch, input !! SkipSpace input cur = Some ch -> is_space ch = false))
  /\ (length input < cur -> SkipSpace input cur = length input)
  /\ SkipSpace input (SkipSpace input cur) = SkipSpace input cur.
Proof.
  split; [|split].
  - intros Hle. split; [split; [apply SkipSpace_ge; exact Hle | apply SkipSpace_le_length]|].
    split.
    + intros j ch. apply SkipSpace_spaces.
    + intros ch. apply SkipSpace_stop.
  - intros Hgt. apply SkipSpace_at_end. lia.
  - apply SkipSpace_idempotent.
Qed.

Lemma SkipSpace_first_non_space_witness :
  SkipSpace [0x20; 0x09; 0x0a; 0x0d; 0x31; 0x20]%Z 1 = 4
  /\ SkipSpace [0x20; 0x31]%Z 7 = 2.
Proof.
  split.
  - destruct (proj1 (SkipSpace_first_non_space [0x20; 0x09; 0x0a; 0x0d; 0x31; 0x20]%Z 1)
                ltac:(cbn; lia)) as (_ & _ & _).
    reflexivity.
  - apply (proj1 (proj2 (SkipSpace_first_non_space [0x20; 0x31]%Z 7))). cbn. lia.
Defined.

Section ConsumeSpec.
Context (input : list rune).

Lemma Consume_loop_Some (next : nat) (tokrune : list Z) :
  forall i k : nat, Consume_loop input next i tokrune = Some k ->
    i <= k < i + length tokrune
    /\ (exists ch, tokrune !! (k - i) = Some ch /\ nth (next + k) input 0%Z <> ch)
    /\ forall j ch, j < k - i -> tokrune !! j = Some ch ->
         nth (next + (i + j)) input 0%Z = ch.
Proof.
  induction tokrune as [|c rest IH]; intros i k H; [discriminate H|].
  cbn [Consume_loop] in H.
  destruct (Z.eqb_spec (nth (next + i) input 0%Z) c) as [Heq|Hne].
  - destruct (IH (S i) k H) as (Hk & (ch & Hch & Hdiff) & Hall).
    cbn [length]. split; [lia|]. split.
    + exists ch. split; [|exact Hdiff].
      replace (k - i) with (S (k - S i)) by lia. exact Hch.
    + intros j ch' Hj Hj'. destruct j as [|j]; cbn in Hj'.
      * injection Hj' as <-. rewrite Nat.add_0_r. exact Heq.
      * replace (i + S j) with (S i + j) by lia. apply Hall; [lia | exact Hj'].
  - injection H as <-. cbn [length]. split; [lia|]. split.
    + exists c. rewrite Nat.sub_diag. split; [reflexivity | exact Hne].
    + intros j ch Hj. lia.
Qed.

Lemma take_drop_lookups (s : nat) (t : list Z) :
  take (length t) (drop s input) = t <->
  forall j ch, t !! j = Some ch -> input !! (s + j) = Some ch.
Proof.
  split.
  - intros H j ch Hj. rewrite <- H in Hj.
    rewrite lookup_take in Hj. destruct (decide (j < length t)); [|discriminate].
    rewrite lookup_drop in Hj. exact Hj.
  - intros H. apply list_eq. intros j.
    rewrite lookup_take. destruct (decide (j < length t)) as [Hlt|Hge].
    + rewrite lookup_drop. destruct (t !! j) as [ch|] eqn:E.
      * apply H. exact E.
      * apply lookup_ge_None in E. lia.
    + symmetry. apply lookup_ge_None. lia.
Qed.

Lemma Consume_spec (cur : nat) (tok : string) :
  let s := SkipSpace input cur in
  let t := go_runes_of_string tok in
  (take (length t) (drop s input) = t -> Consume input cur tok = (s + length t, None))
  /\ (take (length t) (drop s input) <> t ->
      exists pos,
        Consume input cur tok = (s, Some (mkParseError pos (ExpectTok tok)))
        /\ s <= pos <= length input
        /\ (length input - s < length t -> pos = s)
        /\ (length t <= length input - s ->
            (forall j, s <= j < pos -> input !! j = t !! (j - s))
            /\ input !! pos <> t !! (pos - s))).
Proof.
  intros s t. pose proof (SkipSpace_le_length input cur) as Hs. fold s in Hs.
  split.
  - intros Hpre. destruct (Consume_cases input cur tok) as [[e He] | (Hok & _)];
      [|exact Hok].
    exfalso. fold s in He. unfold Consume in He. fold s t in He.
    destruct (Nat.ltb_spec (length input - s) (length t)) as [Hshort|Hlong].
    + apply (f_equal length) in Hpre. rewrite length_take, length_drop in Hpre. lia.
    + destruct (Consume_loop input s 0 t) as [k|] eqn:Hloop; [|discriminate He].
      apply Consume_loop_Some in Hloop as (Hk & (ch & Hch & Hdiff) & _).
      rewrite Nat.sub_0_r in Hch.
      pose proof (proj1 (take_drop_lookups s t) Hpre k ch Hch) as Hin.
      rewrite nth_lookup, Hin in Hdiff. cbn in Hdiff. congruence.
  - intros Hpre. unfold Consume. fold s t.
    destruct (Nat.ltb_spec (length input - s) (length t)) as [Hshort|Hlong].
    + exists s. split; [reflexivity|]. split; [lia|]. split; [reflexivity | lia].
    + destruct (Consume_loop input s 0 t) as [k|] eqn:Hloop.
      * apply Consume_loop_Some in Hloop as (Hk & (ch & Hch & Hdiff) & Hall).
        rewrite Nat.sub_0_r in Hch, Hall. cbn [Nat.add] in Hk.
        exists (s + k). split; [reflexivity|]. split; [lia|]. split; [lia|].
        intros _. split.
        -- intros j Hj. destruct (t !! (j - s)) as [c|] eqn:E;
             [|apply lookup_ge_None in E; lia].
           specialize (Hall (j - s) c ltac:(lia) E). cbn [Nat.add] in Hall.
           replace (s + (j - s)) with j in Hall by lia.
           rewrite nth_lookup in Hall.
           destruct (input !! j) as [x|] eqn:Ex; [cbn in Hall; congruence|].
           apply lookup_ge_None in Ex. lia.
        -- replace (s + k - s) with k by lia. rewrite Hch.
           rewrite nth_lookup in Hdiff.
           destruct (input !! (s + k)) as [x|]; [|discriminate].
           cbn in Hdiff. congruence.
      * exfalso. apply Hpre. apply take_drop_lookups. intros j ch Hj.
        pose proof (Consume_loop_None input s t 0 Hloop j ch Hj) as Hnth.
        cbn [Nat.add] in Hnth. rewrite nth_lookup in Hnth.
        pose proof (lookup_lt_Some _ _ _ Hj).
        destruct (input !! (s + j)) as [x|] eqn:Ex; [cbn in Hnth; congruence|].
        apply lookup_ge_None in Ex. lia.
Qed.

End ConsumeSpec.

(** X2: for a token of ASCII bytes, [Consume] succeeds exactly when the
    code points of the token stand at the first position after the white
    space, and then returns the position after them; otherwise it returns
    the position after the white space with an error placed there when too
    little input is left, and at the first code point that differs when
    enough is left. *)
Theorem Consume_matches_prefix (input : list rune) (cur : nat) (tok : string) :
  ascii_token tok ->
  let s := SkipSpace input cur in
  let t := go_runes_of_string tok in
  (take (length t) (drop s input) = t -> Consume input cur tok = (s + length t, None))
  /\ (take (length t) (drop s input) <> t ->
      exists pos,
        Consume input cur tok = (s, Some (mkParseError pos (ExpectTok tok)))
        /\ s <= pos <= length input
        /\ (length input - s < length t -> pos = s)
        /\ (length t <= length input - s ->
            (forall j, s <= j < pos -> input !! j = t !! (j - s))
            /\ input !! pos <> t !! (pos - s))).
Proof. intros _. exact (Consume_spec input cur tok). Qed.

Lemma Consume_matches_prefix_witness :
  ascii_token "null"
  /\ Consume [0x20; 0x6e; 0x75; 0x6c; 0x6c; 0x2c]%Z 0 "null" = (5, None)
  /\ exists pos,
       Consume [0x20; 0x6e; 0x75; 0x6c; 0x78; 0x2c]%Z 0 "null"
       = (1, Some (mkParseError pos (ExpectTok "null"))).
Proof.
  assert (Ha : ascii_token "null") by (vm_compute; repeat constructor).
  split; [exact Ha|]. split.
  - apply (proj1 (Consume_matches_prefix [0x20; 0x6e; 0x75; 0x6c; 0x6c; 0x2c]%Z 0 "null" Ha)).
    reflexivity.
  - destruct (proj2 (Consume_matches_prefix [0x20; 0x6e; 0x75; 0x6c; 0x78; 0x2c]%Z 0 "null" Ha))
      as (pos & H & _); [discriminate|].
    exists pos. exact H.
Defined.

Lemma take_head {A : Type} (n : nat) (l : list A) (c : A) (t : list A) :
  take n l = c :: t -> l !! 0 = Some c.
Proof. destruct n, l; cbn; intros [=]; subst; reflexivity. Qed.

(** X3: [ParseBoolNull] returns [true], [false] or [nil] exactly when the
    code points of that keyword stand after the white space, whatever
    follows them, with the cursor after the keyword; otherwise it fails
    with "expect true|false|null" placed after the white space. *)
Theorem ParseBoolNull_by_prefix (input : list rune) (cur : nat) :
  let s := SkipSpace input cur in
  (take 4 (drop s input) = go_runes_of_string "true" ->
     ParseBoolNull input cur = (JBool true, s + 4, None))
  /\ (take 5 (drop s input) = go_runes_of_string "false" ->
     ParseBoolNull input cur = (JBool false, s + 5, None))
  /\ (take 4 (drop s input) = go_runes_of_string "null" ->
     ParseBoolNull input cur = (JNull, s + 4, None))
  /\ (take 4 (drop s input) <> go_runes_of_string "true" ->
      take 5 (drop s input) <> go_runes_of_string "false" ->
      take 4 (drop s input) <> go_runes_of_string "null" ->
      ParseBoolNull input cur = (JNull, s, Some (mkParseError s ExpectTrueFalseNull))).
Proof.
  intros s.
  destruct (Consume_spec input cur "true") as [Ht Ht'].
  destruct (Consume_spec input cur "false") as [Hf Hf'].
  destruct (Consume_spec input cur "null") as [Hn Hn'].
  fold s in Ht, Ht', Hf, Hf', Hn, Hn'.
  change (length (go_runes_of_string "true")) with 4 in *.
  change (length (go_runes_of_string "false")) with 5 in *.
  change (length (go_runes_of_string "null")) with 4 in *.
  unfold ParseBoolNull, ParseBoolNull_ord, bool_null_literals. cbn [ParseBoolNull_loop].
  split; [|split; [|split]].
  - intros H. rewrite (Ht H). reflexivity.
  - intros H.
    destruct Ht' as (p & -> & _).
    { intros Ht2. apply take_head in H, Ht2. rewrite H in Ht2.
      vm_compute in Ht2. discriminate Ht2. }
    rewrite (Hf H). reflexivity.
  - intros H.
    destruct Ht' as (p & -> & _).
    { intros Ht2. rewrite H in Ht2. discriminate Ht2. }
    destruct Hf' as (p' & -> & _).
    { intros Hf2. apply take_head in H, Hf2. rewrite H in Hf2.
      vm_compute in Hf2. discriminate Hf2. }
    rewrite (Hn H). reflexivity.
  - intros H1 H2 H3.
    destruct (Ht' H1) as (p1 & -> & _). destruct (Hf' H2) as (p2 & -> & _).
    destruct (Hn' H3) as (p3 & -> & _). reflexivity.
Qed.

Lemma ParseBoolNull_by_prefix_witness :
  ParseBoolNull [0x20; 0x74; 0x72; 0x75; 0x65; 0x78]%Z 0 = (JBool true, 5, None)
  /\ ParseBoolNull [0x66; 0x61; 0x6c; 0x73; 0x65]%Z 0 = (JBool false, 5, None)
  /\ ParseBoolNull [0x6e; 0x75; 0x6c; 0x6c]%Z 0 = (JNull, 4, None)
  /\ ParseBoolNull [0x6e; 0x75; 0x6c]%Z 0
     = (JNull, 0, Some (mkParseError 0 ExpectTrueFalseNull)).
Proof.
  split; [|split; [|split]].
  - apply (proj1 (ParseBoolNull_by_prefix [0x20; 0x74; 0x72; 0x75; 0x65; 0x78]%Z 0)).
    reflexivity.
  - apply (proj1 (proj2 (ParseBoolNull_by_prefix [0x66; 0x61; 0x6c; 0x73; 0x65]%Z 0))).
    reflexivity.
  - apply (proj1 (proj2 (proj2 (ParseBoolNull_by_prefix [0x6e; 0x75; 0x6c; 0x6c]%Z 0)))).
    reflexivity.
  - apply (proj2 (proj2 (proj2 (ParseBoolNull_by_prefix [0x6e; 0x75; 0x6c]%Z 0))));
      discriminate.
Defined.

(** * Further properties: the decoder *)

Section ReadCodeLocal.
Local Open Scope Z_scope.

Lemma fold_code_arith (code : Z) (c : Byte.byte) :
  fold_code code c = code * 64 + b2z c mod 64.
Proof.
  unfold fold_code. rewrite Z.shiftl_mul_pow2 by lia.
  change 0x3f with (2 ^ 6 - 1). rewrite land_low_bits by lia.
  rewrite lor_shifted_low by (try apply Z.mod_pos_bound; lia). reflexivity.
Qed.

Lemma fold_code_bound (l : list Byte.byte) :
  forall code, 0 <= code ->
    0 <= fold_left fold_code l code
    /\ fold_left fold_code l code + 1 <= (code + 1) * 64 ^ Z.of_nat (length l).
Proof.
  induction l as [|c l IH]; intros code Hc; cbn [fold_left length].
  - change (64 ^ Z.of_nat 0) with 1. lia.
  - pose proof (Z.mod_pos_bound (b2z c) 64 ltac:(lia)) as Hm.
    pose proof (fold_code_arith code c) as Heq.
    destruct (IH (fold_code code c) ltac:(lia)) as [Hlo Hhi].
    split; [exact Hlo|].
    rewrite Nat2Z.inj_succ, Z.pow_succ_r by lia.
    assert (HP : 0 < 64 ^ Z.of_nat (length l)) by (apply Z.pow_pos_nonneg; lia).
    assert (Hmul : (fold_code code c + 1) * 64 ^ Z.of_nat (length l)
                   <= ((code + 1) * 64) * 64 ^ Z.of_nat (length l))
      by (apply Z.mul_le_mono_nonneg_r; lia).
    lia.
Qed.

Lemma payload_bound21 (b : Byte.byte) (n : nat) :
  (1 <= n <= 4)%nat ->
  0 <= Z.land (b2z b) (payload_mask n)
  /\ (Z.land (b2z b) (payload_mask n) + 1) * 64 ^ Z.of_nat (n - 1) <= 2 ^ 21.
Proof.
  intros Hn. pose proof (b2z_range b) as Hb.
  assert (Hcases : (n = 1 \/ n = 2 \/ n = 3 \/ n = 4)%nat) by lia.
  destruct Hcases as [-> | [-> | [-> | ->]]]; cbn [payload_mask Nat.sub Z.of_nat].
  - change 0xff with (2 ^ 8 - 1). rewrite land_low_bits by lia.
    change (2 ^ 8) with 256. change (64 ^ 0) with 1. lia.
  - change 0x1f with (2 ^ 5 - 1). rewrite land_low_bits by lia.
    change (2 ^ 5) with 32. change (64 ^ Z.of_nat 1) with 64. lia.
  - change 0x0f with (2 ^ 4 - 1). rewrite land_low_bits by lia.
    change (2 ^ 4) with 16. change (64 ^ Z.of_nat 2) with 4096. lia.
  - change 0x07 with (2 ^ 3 - 1). rewrite land_low_bits by lia.
    change (2 ^ 3) with 8. change (64 ^ Z.of_nat 3) with 262144. lia.
Qed.

End ReadCodeLocal.

Section ReadCodeInversion.

(** [ReadCode] without error: the leader, its length and the code. *)
Lemma ReadCode_ok_inv (buf : list Byte.byte) (cur : nat) (code : Z) (next : nat) :
  ReadCode buf cur = (code, next, None) ->
  exists b n,
    buf !! cur = Some b /\ utf8_sequence_length b = Some n /\ 1 <= n <= 4
    /\ next = cur + n /\ cur + n <= length buf
    /\ code = fold_left fold_code (take (n - 1) (drop (cur + 1) buf))
                (Z.land (b2z b) (payload_mask n)).
Proof.
  intros H. destruct (buf !! cur) as [b|] eqn:E.
  - pose proof (ReadCode_leading_cases cur b) as Hcases.
    destruct (utf8_sequence_length b) as [n|] eqn:En.
    + destruct Hcases as (_ & _ & _ & Hn).
      rewrite (ReadCode_valid_leader _ _ _ _ E En) in H.
      destruct (Nat.ltb_spec (length buf - cur) n) as [Hlt|Hge]; [discriminate H|].
      injection H as <- <-. pose proof (lookup_lt_Some _ _ _ E).
      exists b, n. split; [reflexivity|]. split; [exact En|].
      split; [exact Hn|]. split; [reflexivity|]. split; [lia | reflexivity].
    + rewrite (ReadCode_lookup _ _ _ E) in H.
      destruct Hcases as [(Hl & _) | (Hl & _)]; rewrite Hl in H; discriminate H.
  - unfold ReadCode in H. apply lookup_ge_None in E.
    replace (length buf <=? cur) with true in H by (symmetry; apply Nat.leb_le; lia).
    discriminate H.
Qed.

(** [ReadCode] with an error, inside the buffer. *)
Lemma ReadCode_err_inv (buf : list Byte.byte) (cur : nat) (code : Z) (next : nat)
    (e : DecodingError) :
  ReadCode buf cur = (code, next, Some e) -> cur < length buf ->
  exists b, buf !! cur = Some b
    /\ (e = mkDecodingError cur b UnexpectedLeadingChar
        /\ utf8_sequence_length b = None /\ has_prefix b 0xc0 0x80 = true
        \/ e = mkDecodingError cur b BadLeadingChar
           /\ utf8_sequence_length b = None /\ has_prefix b 0xc0 0x80 = false
        \/ exists n, utf8_sequence_length b = Some n /\ length buf - cur < n
                     /\ e = mkDecodingError cur b (BufNotEnough n (length buf - cur))).
Proof.
  intros H Hlt. destruct (buf !! cur) as [b|] eqn:E;
    [|apply lookup_ge_None in E; lia].
  exists b. split; [reflexivity|].
  pose proof (ReadCode_leading_cases cur b) as Hcases.
  destruct (utf8_sequence_length b) as [n|] eqn:En.
  - rewrite (ReadCode_valid_leader _ _ _ _ E En) in H.
    destruct (Nat.ltb_spec (length buf - cur) n) as [Hshort|Hge]; [|discriminate H].
    injection H as <- <- <-. right. right. exists n. auto.
  - rewrite (ReadCode_lookup _ _ _ E) in H.
    destruct Hcases as [(Hl & Hu & _) | (Hl & Hu & _)]; rewrite Hl in H;
      injection H as <- <- <-; auto.
Qed.

Lemma ReadCode_code_range (buf : list Byte.byte) (cur : nat) (code : Z) (next : nat) :
  ReadCode buf cur = (code, next, None) ->
  (0 <= code < 2 ^ 21)%Z /\ cur < next <= length buf /\ next <= cur + 4.
Proof.
  intros H. apply ReadCode_ok_inv in H as (b & n & E & En & Hn & -> & Hlen & ->).
  split; [|lia].
  destruct (payload_bound21 b n Hn) as [Hlo Hhi].
  pose proof (fold_code_bound (take (n - 1) (drop (cur + 1) buf)) _ Hlo) as [Hlo' Hhi'].
  rewrite length_take, length_drop in Hhi'.
  replace ((n - 1) `min` (length buf - (cur + 1))) with (n - 1) in Hhi' by lia.
  lia.
Qed.

Lemma ReadCode_app_l (buf suf : list Byte.byte) (cur : nat) (code : Z) (next : nat) :
  ReadCode buf cur = (code, next, None) ->
  ReadCode (buf ++ suf) cur = (code, next, None).
Proof.
  intros H. apply ReadCode_ok_inv in H as (b & n & E & En & Hn & -> & Hlen & ->).
  rewrite (ReadCode_valid_leader (buf ++ suf) cur b n);
    [| rewrite lookup_app_l by (apply lookup_lt_Some in E; lia); exact E | exact En].
  rewrite length_app.
  replace (length buf + length suf - cur <? n) with false
    by (symmetry; apply Nat.ltb_ge; lia).
  rewrite drop_app_le by lia. rewrite take_app_le by (rewrite length_drop; lia).
  reflexivity.
Qed.

Lemma ReadCode_app_l_inv (buf suf : list Byte.byte) (cur : nat) (code : Z) (next : nat) :
  ReadCode (buf ++ suf) cur = (code, next, None) -> next <= length buf ->
  ReadCode buf cur = (code, next, None).
Proof.
  intros H Hnext. apply ReadCode_ok_inv in H as (b & n & E & En & Hn & -> & Hlen & ->).
  rewrite lookup_app_l in E by lia.
  rewrite (ReadCode_valid_leader buf cur b n E En).
  replace (length buf - cur <? n) with false by (symmetry; apply Nat.ltb_ge; lia).
  rewrite drop_app_le by lia. rewrite take_app_le by (rewrite length_drop; lia).
  reflexivity.
Qed.

Lemma ReadCode_app_r (pre buf : list Byte.byte) (cur : nat) (code : Z) (next : nat) :
  ReadCode buf cur = (code, next, None) ->
  ReadCode (pre ++ buf) (length pre + cur) = (code, length pre + next, None).
Proof.
  intros H. apply ReadCode_ok_inv in H as (b & n & E & En & Hn & -> & Hlen & ->).
  rewrite (ReadCode_valid_leader (pre ++ buf) (length pre + cur) b n);
    [| rewrite lookup_app_r by lia;
       replace (length pre + cur - length pre) with cur by lia; exact E
     | exact En].
  rewrite length_app.
  replace (length pre + length buf - (length pre + cur) <? n) with false
    by (symmetry; apply Nat.ltb_ge; lia).
  replace (length pre + cur + 1) with (length pre + (cur + 1)) by lia.
  rewrite drop_app_add'; [|reflexivity].
  f_equal. f_equal. lia.
Qed.

Lemma ReadCode_app_r_err (pre buf : list Byte.byte) (cur : nat) (code : Z) (next : nat)
    (e : DecodingError) :
  ReadCode buf cur = (code, next, Some e) -> cur < length buf ->
  exists code' next',
    ReadCode (pre ++ buf) (length pre + cur)
    = (code', next', Some (shift_DecodingError (length pre) e)).
Proof.
  intros H Hlt. apply ReadCode_err_inv in H as (b & E & Hcases); [|exact Hlt].
  assert (E' : (pre ++ buf) !! (length pre + cur) = Some b).
  { rewrite lookup_app_r by lia.
    replace (length pre + cur - length pre) with cur by lia. exact E. }
  pose proof (ReadCode_leading_cases (length pre + cur) b) as Hlead.
  destruct Hcases as [(-> & En & Hp) | [(-> & En & Hp) | (n & En & Hshort & ->)]].
  - rewrite (ReadCode_lookup _ _ _ E'). rewrite En in Hlead.
    destruct Hlead as [(Hl & Hu & _) | (Hl & Hu & _)]; [|congruence].
    rewrite Hl. eexists _, _. reflexivity.
  - rewrite (ReadCode_lookup _ _ _ E'). rewrite En in Hlead.
    destruct Hlead as [(Hl & Hu & _) | (Hl & Hu & _)]; [congruence|].
    rewrite Hl. eexists _, _. reflexivity.
  - rewrite (ReadCode_valid_leader _ _ _ _ E' En). rewrite length_app.
    replace (length pre + length buf - (length pre + cur)) with (length buf - cur) by lia.
    replace (length buf - cur <? n) with true by (symmetry; apply Nat.ltb_lt; lia).
    eexists _, _. reflexivity.
Qed.

End ReadCodeInversion.

Section DecodeFrom.
Context (input : list Byte.byte).

Lemma Decode_loop_fuel (f1 : nat) :
  forall (f2 cur : nat) (output : list Z),
    length input - cur <= f1 -> length input - cur <= f2 ->
    Decode_loop f1 input cur output = Decode_loop f2 input cur output.
Proof.
  induction f1 as [|f1 IH]; intros f2 cur output H1 H2.
  - destruct f2; cbn [Decode_loop];
      replace (length input <=? cur) with true by (symmetry; apply Nat.leb_le; lia);
      reflexivity.
  - cbn [Decode_loop]. destruct (Nat.leb_spec (length input) cur) as [Hle|Hgt].
    + destruct f2; cbn [Decode_loop];
        replace (length input <=? cur) with true by (symmetry; apply Nat.leb_le; lia);
        reflexivity.
    + destruct f2 as [|f2]; [lia|]. cbn [Decode_loop].
      replace (length input <=? cur) with false by (symmetry; apply Nat.leb_gt; lia).
      destruct (ReadCode input cur) as [[code next] [e|]] eqn:Hr; [reflexivity|].
      apply ReadCode_progress in Hr. apply IH; lia.
Qed.

Lemma Decode_Decode_from : Decode input = Decode_from input 0 [].
Proof. unfold Decode, Decode_from. rewrite Nat.sub_0_r. reflexivity. Qed.

Lemma Decode_from_end (cur : nat) (output : list Z) :
  length input <= cur -> Decode_from input cur output = Done (output, None).
Proof.
  intros Hle. unfold Decode_from. replace (length input - cur) with 0 by lia.
  cbn [Decode_loop].
  replace (length input <=? cur) with true by (symmetry; apply Nat.leb_le; lia).
  reflexivity.
Qed.

Lemma Decode_from_step (cur : nat) (output : list Z) :
  cur < length input ->
  Decode_from input cur output =
    let '(code, next, err) := ReadCode input cur in
    match err with
    | Some e => Done (output, Some e)
    | None => Decode_from input next (output ++ [code])
    end.
Proof.
  intros Hlt. unfold Decode_from.
  replace (length input - cur) with (S (length input - S cur)) by lia.
  cbn [Decode_loop].
  replace (length input <=? cur) with false by (symmetry; apply Nat.leb_gt; lia).
  destruct (ReadCode input cur) as [[code next] [e|]] eqn:Hr; [reflexivity|].
  apply ReadCode_progress in Hr. apply Decode_loop_fuel; lia.
Qed.

(** Induction on the distance to the end of the input. *)
Lemma Decode_from_ind (P : nat -> list Z -> Prop) :
  (forall cur output, length input <= cur -> P cur output) ->
  (forall cur output code next e,
     cur < length input -> ReadCode input cur = (code, next, Some e) -> P cur output) ->
  (forall cur output code next,
     cur < length input -> ReadCode input cur = (code, next, None) ->
     P next (output ++ [code]) -> P cur output) ->
  forall cur output, P cur output.
Proof.
  intros Hend Herr Hstep cur.
  remember (length input - cur) as k eqn:Hk. revert cur Hk.
  induction k as [k IH] using lt_wf_ind. intros cur Hk output.
  destruct (le_lt_dec (length input) cur) as [Hle|Hlt]; [apply Hend; exact Hle|].
  destruct (ReadCode input cur) as [[code next] [e|]] eqn:Hr.
  - exact (Herr cur output code next e Hlt Hr).
  - apply (Hstep cur output code next Hlt Hr).
    pose proof (ReadCode_progress _ _ _ _ Hr).
    apply (IH (length input - next)); [lia | reflexivity].
Qed.

Lemma Decode_from_output (cur : nat) (output : list Z) :
  forall pre, Decode_from input cur (pre ++ output) =
    match Decode_from input cur output with
    | Done (r, e) => Done (pre ++ r, e)
    | Panic => Panic
    | OutOfFuel => OutOfFuel
    end.
Proof.
  revert cur output. apply (Decode_from_ind (fun cur output => forall pre, _)).
  - intros cur output Hle pre. rewrite !Decode_from_end by exact Hle. reflexivity.
  - intros cur output code next e Hlt Hr pre.
    rewrite !Decode_from_step by exact Hlt. rewrite Hr. reflexivity.
  - intros cur output code next Hlt Hr IH pre.
    rewrite !Decode_from_step by exact Hlt. rewrite Hr.
    rewrite <- app_assoc. apply IH.
Qed.

Lemma Decode_from_range (cur : nat) (output r : list Z) (e : option DecodingError) :
  Decode_from input cur output = Done (r, e) ->
  Forall (fun c => (0 <= c < 2 ^ 21)%Z) output ->
  Forall (fun c => (0 <= c < 2 ^ 21)%Z) r
  /\ length r <= length output + (length input - cur).
Proof.
  revert cur output r e.
  apply (Decode_from_ind (fun cur output => forall r e, _ -> _ -> _)).
  - intros cur output Hle r e H Hout. rewrite Decode_from_end in H by exact Hle.
    injection H as <- <-. split; [exact Hout | lia].
  - intros cur output code next e0 Hlt Hr r e H Hout.
    rewrite Decode_from_step in H by exact Hlt. rewrite Hr in H.
    injection H as <- <-. split; [exact Hout | lia].
  - intros cur output code next Hlt Hr IH r e H Hout.
    rewrite Decode_from_step in H by exact Hlt. rewrite Hr in H.
    apply ReadCode_code_range in Hr as (Hc & Hn & _).
    destruct (IH r e H) as [Hr' Hlen].
    + apply Forall_app. split; [exact Hout | repeat constructor; lia].
    + split; [exact Hr'|]. rewrite length_app in Hlen. cbn [length] in Hlen. lia.
Qed.

End DecodeFrom.

Section DecodeCompose.

Lemma Decode_from_app_l (a b : list Byte.byte) :
  forall (cur : nat) (output r : list Z),
    Decode_from a cur output = Done (r, None) -> cur <= length a ->
    Decode_from (a ++ b) cur output = Decode_from (a ++ b) (length a) r.
Proof.
  apply (Decode_from_ind a (fun cur output => forall r, _ -> _ -> _)).
  - intros cur output Hle r H Hcur. rewrite Decode_from_end in H by exact Hle.
    injection H as <-. replace cur with (length a) by lia. reflexivity.
  - intros cur output code next e Hlt Hr r H _.
    rewrite Decode_from_step in H by exact Hlt. rewrite Hr in H. discriminate H.
  - intros cur output code next Hlt Hr IH r H _.
    rewrite Decode_from_step in H by exact Hlt. rewrite Hr in H.
    rewrite (Decode_from_step (a ++ b)) by (rewrite length_app; lia).
    rewrite (ReadCode_app_l a b _ _ _ Hr).
    apply ReadCode_code_range in Hr as (_ & Hn & _).
    apply IH; [exact H | lia].
Qed.

Lemma Decode_from_app_r (a b : list Byte.byte) :
  forall (cur : nat) (output : list Z),
    Decode_from (a ++ b) (length a + cur) output =
      match Decode_from b cur output with
      | Done (r, e) => Done (r, option_map (shift_DecodingError (length a)) e)
      | Panic => Panic
      | OutOfFuel => OutOfFuel
      end.
Proof.
  apply (Decode_from_ind b).
  - intros cur output Hle. rewrite !Decode_from_end; [reflexivity | exact Hle |].
    rewrite length_app. lia.
  - intros cur output code next e Hlt Hr.
    rewrite (Decode_from_step b) by exact Hlt. rewrite Hr.
    rewrite (Decode_from_step (a ++ b)) by (rewrite length_app; lia).
    destruct (ReadCode_app_r_err a b _ _ _ _ Hr Hlt) as (c' & n' & ->). reflexivity.
  - intros cur output code next Hlt Hr IH.
    rewrite (Decode_from_step b) by exact Hlt. rewrite Hr.
    rewrite (Decode_from_step (a ++ b)) by (rewrite length_app; lia).
    rewrite (ReadCode_app_r a b _ _ _ Hr). exact IH.
Qed.

Lemma Decode_from_error (input : list Byte.byte) :
  forall (cur : nat) (output r : list Z) (e : DecodingError),
    Decode_from input cur output = Done (r, Some e) ->
    cur <= de_pos e < length input
    /\ input !! de_pos e = Some (de_char e)
    /\ de_msg e <> NoEnoughData
    /\ Decode_from (take (de_pos e) input) cur output = Done (r, None).
Proof.
  apply (Decode_from_ind input (fun cur output => forall r e, _ -> _)).
  - intros cur output Hle r e H. rewrite Decode_from_end in H by exact Hle.
    discriminate H.
  - intros cur output code next e0 Hlt Hr r e H.
    rewrite Decode_from_step in H by exact Hlt. rewrite Hr in H.
    injection H as <- <-.
    apply ReadCode_err_inv in Hr as (b & E & Hcases); [|exact Hlt].
    assert (Hpos : de_pos e0 = cur /\ de_char e0 = b /\ de_msg e0 <> NoEnoughData).
    { destruct Hcases as [(-> & _) | [(-> & _) | (n & _ & _ & ->)]];
        cbn; repeat split; discriminate. }
    destruct Hpos as (-> & -> & Hm). split; [lia|]. split; [exact E|].
    split; [exact Hm|]. apply Decode_from_end. rewrite length_take. lia.
  - intros cur output code next Hlt Hr IH r e H.
    rewrite Decode_from_step in H by exact Hlt. rewrite Hr in H.
    destruct (IH r e H) as (Hpos & Hb & Hm & Hpre).
    pose proof (ReadCode_code_range _ _ _ _ Hr) as (_ & Hn & _).
    split; [lia|]. split; [exact Hb|]. split; [exact Hm|].
    rewrite Decode_from_step by (rewrite length_take; lia).
    rewrite (ReadCode_app_l_inv (take (de_pos e) input) (drop (de_pos e) input)
               cur code next);
      [exact Hpre | rewrite take_drop; exact Hr | rewrite length_take; lia].
Qed.

End DecodeCompose.

(** X4: the code points that [Decode] returns are between 0 and 0x1FFFFF,
    and they are no more than the bytes of the input, also when it stops
    at an error. *)
Theorem Decode_output_range (input : list Byte.byte) (output : list rune)
    (err : option DecodingError) :
  Decode input = Done (output, err) ->
  Forall (fun c => (0 <= c <= 0x1FFFFF)%Z) output /\ length output <= length input.
Proof.
  rewrite Decode_Decode_from. intros H.
  destruct (Decode_from_range input 0 [] output err H (Forall_nil_2 _)) as [Hr Hl].
  split; [|cbn [length] in Hl; lia].
  eapply Forall_impl; [exact Hr|]. cbv beta. intros c Hc.
  change (2 ^ 21)%Z with 2097152%Z in Hc. lia.
Qed.

Lemma Decode_output_range_witness :
  Forall (fun c => (0 <= c <= 0x1FFFFF)%Z) [0x1FFFFF; 0x41]%Z
  /\ length [0x1FFFFF; 0x41]%Z <= length [xf7; xbf; xbf; xbf; x41].
Proof.
  exact (Decode_output_range [xf7; xbf; xbf; xbf; x41] [0x1FFFFF; 0x41]%Z None eq_refl).
Defined.

(** X5: when [Decode] stops at an error, the error is at a position inside
    the input and names the byte found there, it is never "no enough
    data", and the code points returned with it are the decoding of the
    bytes before that position. *)
Theorem Decode_error_prefix (input : list Byte.byte) (output : list rune)
    (e : DecodingError) :
  Decode input = Done (output, Some e) ->
  de_pos e < length input
  /\ input !! de_pos e = Some (de_char e)
  /\ de_msg e <> NoEnoughData
  /\ Decode (take (de_pos e) input) = Done (output, None).
Proof.
  rewrite !Decode_Decode_from. intros H.
  destruct (Decode_from_error input 0 [] output e H) as (Hpos & Hb & Hm & Hpre).
  split; [lia|]. auto.
Qed.

Lemma Decode_error_prefix_witness :
  de_pos (mkDecodingError 4 xe0 (BufNotEnough 3 2)) < length [x61; xe5; x95; x8a; xe0; x80]
  /\ [x61; xe5; x95; x8a; xe0; x80] !! 4 = Some xe0
  /\ BufNotEnough 3 2 <> NoEnoughData
  /\ Decode (take 4 [x61; xe5; x95; x8a; xe0; x80]) = Done ([0x61; 0x554a]%Z, None).
Proof.
  exact (Decode_error_prefix [x61; xe5; x95; x8a; xe0; x80] [0x61; 0x554a]%Z
           (mkDecodingError 4 xe0 (BufNotEnough 3 2)) eq_refl).
Defined.

(** X6: [Decode] of two inputs one after the other, when the first one
    decodes without error, is the code points of the first followed by
    those of the second, with the error of the second, if any, moved by
    the length of the first. *)
Theorem Decode_app (a b : list Byte.byte) (ra rb : list rune)
    (eb : option DecodingError) :
  Decode a = Done (ra, None) -> Decode b = Done (rb, eb) ->
  Decode (a ++ b)
  = Done (ra ++ rb, option_map (shift_DecodingError (length a)) eb).
Proof.
  rewrite !Decode_Decode_from. intros Ha Hb.
  rewrite (Decode_from_app_l a b 0 [] ra Ha ltac:(lia)).
  pose proof (Decode_from_app_r a b 0 ra) as Hr. rewrite Nat.add_0_r in Hr.
  pose proof (Decode_from_output b 0 [] ra) as Ho. rewrite app_nil_r in Ho.
  rewrite Hr, Ho, Hb. reflexivity.
Qed.

Lemma Decode_app_witness :
  Decode ([xe5; x95; x8a] ++ [x61; xff])
  = Done ([0x554a]%Z ++ [0x61]%Z,
          option_map (shift_DecodingError 3) (Some (mkDecodingError 1 xff BadLeadingChar))).
Proof.
  exact (Decode_app [xe5; x95; x8a] [x61; xff] [0x554a]%Z [0x61]%Z
           (Some (mkDecodingError 1 xff BadLeadingChar)) eq_refl eq_refl).
Defined.

(** X7: bytes below 0x80 decode to their own values, one code point a
    byte. *)
Theorem Decode_ascii_identity (bytes : list Byte.byte) :
  Forall (fun b => (b2z b < 0x80)%Z) bytes -> Decode bytes = Done (map b2z bytes, None).
Proof. exact (Decode_ascii bytes). Qed.

Lemma Decode_ascii_identity_witness :
  Decode [x7b; x22; x6b; x22; x7d] = Done (map b2z [x7b; x22; x6b; x22; x7d], None).
Proof.
  apply Decode_ascii_identity. repeat constructor.
Defined.

Section Layouts.
Local Open Scope Z_scope.

Lemma ReadCode_at_head (b : Byte.byte) (rest : list Byte.byte) :
  ReadCode (b :: rest) 0 =
    let '(next, mask, err) := ReadCode_leading 0 b in
    match err with
    | Some e => (0, next, Some e)
    | None =>
        let numFollowing := (next - 0 - 1)%nat in
        if (S (length rest) <? numFollowing + 1)%nat then
          (0, next,
           Some (mkDecodingError 0 b (BufNotEnough (numFollowing + 1) (S (length rest)))))
        else (ReadCode_loop (b :: rest) 0 numFollowing 0 (Z.land (b2z b) mask),
              next, None)
    end.
Proof. exact (ReadCode_at [] rest b). Qed.

Lemma ReadCode_layout2 (c : Z) :
  0 <= c < 2 ^ 11 -> ReadCode (utf8_layout 2 c) 0 = (c, 2%nat, None).
Proof.
  intros Hc. change (2 ^ 11) with 2048 in Hc. cbn [utf8_layout].
  rewrite ReadCode_at_head. unfold ReadCode_leading. cbn [length].
  rewrite Z.shiftr_div_pow2 by lia. change (2 ^ 6) with 64.
  change 0xc0 with (6 * 2 ^ 5).
  rewrite b2z_leader by (change (2 ^ 5) with 32; lia).
  change (2 ^ 5) with 32. decide_ltb. cbn [Nat.add Nat.sub Nat.ltb Nat.leb].
  cbn [ReadCode_loop Nat.add nth].
  rewrite b2z_continuation.
  change 0x1f with (2 ^ 5 - 1). rewrite land_low_bits by lia. change (2 ^ 5) with 32.
  rewrite fold_step by lia. f_equal. f_equal. lia.
Qed.

Lemma ReadCode_layout3 (c : Z) :
  0 <= c < 2 ^ 16 -> ReadCode (utf8_layout 3 c) 0 = (c, 3%nat, None).
Proof.
  intros Hc. change (2 ^ 16) with 65536 in Hc. cbn [utf8_layout].
  rewrite ReadCode_at_head. unfold ReadCode_leading. cbn [length].
  rewrite !Z.shiftr_div_pow2 by lia. change (2 ^ 6) with 64. change (2 ^ 12) with 4096.
  change 0xe0 with (14 * 2 ^ 4).
  rewrite b2z_leader by (change (2 ^ 4) with 16; lia).
  change (2 ^ 4) with 16. decide_ltb. cbn [Nat.add Nat.sub Nat.ltb Nat.leb].
  cbn [ReadCode_loop Nat.add nth].
  rewrite !b2z_continuation.
  change 0x0f with (2 ^ 4 - 1). rewrite land_low_bits by lia. change (2 ^ 4) with 16.
  rewrite (fold_step (_ mod _)) by lia. rewrite fold_step by lia.
  f_equal. f_equal. lia.
Qed.

Lemma ReadCode_layout4 (c : Z) :
  0 <= c < 2 ^ 21 -> ReadCode (utf8_layout 4 c) 0 = (c, 4%nat, None).
Proof.
  intros Hc. change (2 ^ 21) with 2097152 in Hc. cbn [utf8_layout].
  rewrite ReadCode_at_head. unfold ReadCode_leading. cbn [length].
  rewrite !Z.shiftr_div_pow2 by lia.
  change (2 ^ 6) with 64. change (2 ^ 12) with 4096. change (2 ^ 18) with 262144.
  change 0xf0 with (30 * 2 ^ 3).
  rewrite b2z_leader by (change (2 ^ 3) with 8; lia).
  change (2 ^ 3) with 8. decide_ltb. cbn [Nat.add Nat.sub Nat.ltb Nat.leb].
  cbn [ReadCode_loop Nat.add nth].
  rewrite !b2z_continuation.
  change 0x07 with (2 ^ 3 - 1). rewrite land_low_bits by lia. change (2 ^ 3) with 8.
  rewrite (fold_step (_ mod _)) by lia. rewrite (fold_step (_ + _)) by lia.
  rewrite fold_step by lia. f_equal. f_equal. lia.
Qed.

Lemma Decode_single (bytes : list Byte.byte) (c : Z) :
  ReadCode bytes 0 = (c, length bytes, None) -> Decode bytes = Done ([c], None).
Proof.
  intros H. rewrite Decode_Decode_from.
  pose proof (ReadCode_progress _ _ _ _ H) as Hlt.
  rewrite Decode_from_step by exact Hlt. rewrite H.
  apply Decode_from_end. lia.
Qed.

End Layouts.

(** X8: [Decode] accepts every sequence of two, three or four bytes in
    the UTF-8 layout, whatever the code point it carries: the encodings
    longer than needed (a code point below 0x80 on two bytes, and so on),
    the surrogates, and the four-byte values above 0x10FFFF up to
    0x1FFFFF. *)
Theorem Decode_accepts_any_layout (c : rune) :
  ((0 <= c < 2 ^ 11)%Z -> Decode (utf8_layout 2 c) = Done ([c], None))
  /\ ((0 <= c < 2 ^ 16)%Z -> Decode (utf8_layout 3 c) = Done ([c], None))
  /\ ((0 <= c < 2 ^ 21)%Z -> Decode (utf8_layout 4 c) = Done ([c], None)).
Proof.
  split; [|split]; intros Hc; apply Decode_single.
  - apply ReadCode_layout2. exact Hc.
  - apply ReadCode_layout3. exact Hc.
  - apply ReadCode_layout4. exact Hc.
Qed.

Lemma Decode_accepts_any_layout_witness :
  Decode [xc0; x80] = Done ([0%Z], None)
  /\ Decode [xe0; x80; xaf] = Done ([0x2f%Z], None)
  /\ Decode [xf7; xbf; xbf; xbf] = Done ([0x1FFFFF%Z], None).
Proof.
  split; [|split].
  - apply (proj1 (Decode_accepts_any_layout 0)). lia.
  - apply (proj1 (proj2 (Decode_accepts_any_layout 0x2f))). lia.
  - apply (proj2 (proj2 (Decode_accepts_any_layout 0x1FFFFF))). lia.
Defined.

(** * Further properties: escapes *)

Section HexFacts.
Local Open Scope Z_scope.

Lemma hex_digit_range (ch d : Z) : hex_digit ch = Some d -> 0 <= d < 16.
Proof.
  unfold hex_digit.
  repeat match goal with |- context [if ?b then _ else _] => destruct b eqn:? end;
    intros [= <-]; lia.
Qed.

Lemma Hex2Num_hex_digit (input : list Z) (cur : nat) :
  Hex2Num input cur =
    match hex_digit (nth cur input 0) with
    | Some d => (d, None)
    | None => (0, Some (mkParseError cur (ExpectHexGot (nth cur input 0))))
    end.
Proof.
  unfold Hex2Num, hex_digit.
  repeat match goal with |- context [if ?b then _ else _] => destruct b end;
    reflexivity.
Qed.

Lemma hex_step (v d : Z) :
  0 <= v < 2 ^ 12 -> 0 <= d < 16 -> Z.lor (wrap32 (Z.shiftl v 4)) d = v * 16 + d.
Proof.
  intros Hv Hd. rewrite Z.shiftl_mul_pow2 by lia.
  rewrite wrap32_small by lia. rewrite lor_shifted_low by lia. reflexivity.
Qed.

Lemma hex4_value_range (q : list Z) (v : Z) : hex4_value q = Some v -> 0 <= v <= 0xFFFF.
Proof.
  unfold hex4_value. destruct q as [|h0 [|h1 [|h2 [|h3 [|]]]]]; try discriminate.
  destruct (hex_digit h0) as [d0|] eqn:E0; [|discriminate].
  destruct (hex_digit h1) as [d1|] eqn:E1; [|discriminate].
  destruct (hex_digit h2) as [d2|] eqn:E2; [|discriminate].
  destruct (hex_digit h3) as [d3|] eqn:E3; [|discriminate].
  apply hex_digit_range in E0, E1, E2, E3. intros [= <-]. lia.
Qed.

Lemma ScanHex_hex4 (input : list Z) (cur : nat) (q : list Z) (v : Z) :
  take 4 (drop cur input) = q -> hex4_value q = Some v ->
  ScanHex input cur = (v, None).
Proof.
  intros Hq Hv. unfold hex4_value in Hv.
  destruct q as [|h0 [|h1 [|h2 [|h3 [|]]]]]; try discriminate.
  destruct (hex_digit h0) as [d0|] eqn:E0; [|discriminate].
  destruct (hex_digit h1) as [d1|] eqn:E1; [|discriminate].
  destruct (hex_digit h2) as [d2|] eqn:E2; [|discriminate].
  destruct (hex_digit h3) as [d3|] eqn:E3; [|discriminate].
  injection Hv as <-.
  pose proof (proj1 (take_drop_lookups input cur [h0; h1; h2; h3]) Hq) as Hl.
  assert (H0 : nth (cur + 0) input 0 = h0)
    by (rewrite nth_lookup, (Hl 0%nat h0 eq_refl); reflexivity).
  assert (H1 : nth (cur + 1) input 0 = h1)
    by (rewrite nth_lookup, (Hl 1%nat h1 eq_refl); reflexivity).
  assert (H2 : nth (cur + 2) input 0 = h2)
    by (rewrite nth_lookup, (Hl 2%nat h2 eq_refl); reflexivity).
  assert (H3 : nth (cur + 3) input 0 = h3)
    by (rewrite nth_lookup, (Hl 3%nat h3 eq_refl); reflexivity).
  assert (Hlen : (cur + 4 <= length input)%nat).
  { apply (f_equal length) in Hq. rewrite length_take, length_drop in Hq.
    cbn [length] in Hq. lia. }
  unfold ScanHex.
  replace (length input <? cur + 4)%nat with false by (symmetry; apply Nat.ltb_ge; lia).
  cbn [ScanHex_loop]. rewrite !Hex2Num_hex_digit.
  rewrite H0, E0, H1, E1, H2, E2, H3, E3.
  apply hex_digit_range in E0, E1, E2, E3.
  change (Z.lor (wrap32 (Z.shiftl 0 4)) d0) with (Z.lor 0 d0). rewrite Z.lor_0_l.
  rewrite (hex_step d0) by lia. rewrite (hex_step (_ + d1)) by lia.
  rewrite hex_step by lia. reflexivity.
Qed.

Lemma ScanHex_loop_err (input : list Z) (cur : nat) (ch : Z) (m : nat) :
  forall (n k : nat) (value : Z),
    (forall j, (j < m)%nat -> exists c d, input !! (cur + k + j)%nat = Some c
                                    /\ hex_digit c = Some d) ->
    input !! (cur + k + m)%nat = Some ch -> hex_digit ch = None -> (m < n)%nat ->
    exists v, ScanHex_loop input cur n k value
              = (v, Some (mkParseError (cur + k + m) (ExpectHexGot ch))).
Proof.
  induction m as [|m IH]; intros n k value Hgood Hch Hbad Hn;
    (destruct n as [|n]; [lia|]); cbn [ScanHex_loop]; rewrite Hex2Num_hex_digit.
  - rewrite Nat.add_0_r in Hch. rewrite nth_lookup, Hch. cbn.
    rewrite Hbad, Nat.add_0_r. eexists. reflexivity.
  - destruct (Hgood 0%nat ltac:(lia)) as (c & d & Ec & Ed).
    rewrite Nat.add_0_r in Ec. rewrite nth_lookup, Ec. cbn. rewrite Ed.
    destruct (IH n (S k) (Z.lor (wrap32 (Z.shiftl value 4)) d)) as [v Hv].
    + intros j Hj. destruct (Hgood (S j) ltac:(lia)) as (c' & d' & Ec' & Ed').
      exists c', d'. split; [|exact Ed'].
      replace (cur + S k + j)%nat with (cur + k + S j)%nat by lia. exact Ec'.
    + replace (cur + S k + m)%nat with (cur + k + S m)%nat by lia. exact Hch.
    + exact Hbad.
    + lia.
    + exists v. rewrite Hv. do 3 f_equal. lia.
Qed.

End HexFacts.

(** X9: [ScanHex] on four hexadecimal digits returns the number they
    write, between 0 and 0xFFFF; with fewer than four code points left it
    fails with "expect 4 hex digit", whatever they are; otherwise it fails
    at the first code point that is no hexadecimal digit, naming it. *)
Theorem ScanHex_four_digits (input : list rune) (cur : nat) :
  (forall q v, take 4 (drop cur input) = q -> hex4_value q = Some v ->
     ScanHex input cur = (v, None) /\ (0 <= v <= 0xFFFF)%Z)
  /\ (length input < cur + 4 ->
      ScanHex input cur = (0%Z, Some (mkParseError cur Expect4HexDigit)))
  /\ (forall i ch, i < 4 -> cur + 4 <= length input ->
      input !! (cur + i) = Some ch -> hex_digit ch = None ->
      (forall j, j < i -> exists c d, input !! (cur + j) = Some c /\ hex_digit c = Some d) ->
      exists v, ScanHex input cur = (v, Some (mkParseError (cur + i) (ExpectHexGot ch)))).
Proof.
  split; [|split].
  - intros q v Hq Hv. split; [exact (ScanHex_hex4 input cur q v Hq Hv)|].
    exact (hex4_value_range q v Hv).
  - intros Hshort. unfold ScanHex.
    replace (length input <? cur + 4) with true by (symmetry; apply Nat.ltb_lt; lia).
    reflexivity.
  - intros i ch Hi Hlen Hch Hbad Hgood. unfold ScanHex.
    replace (length input <? cur + 4) with false by (symmetry; apply Nat.ltb_ge; lia).
    destruct (ScanHex_loop_err input cur ch i 4 0 0%Z) as [v Hv].
    + intros j Hj. rewrite Nat.add_0_r. exact (Hgood j Hj).
    + rewrite Nat.add_0_r. exact Hch.
    + exact Hbad.
    + exact Hi.
    + exists v. rewrite Hv. rewrite Nat.add_0_r. reflexivity.
Qed.

Lemma ScanHex_four_digits_witness :
  (ScanHex [0x35; 0x35; 0x34; 0x41; 0x22]%Z 0 = (0x554A%Z, None)
   /\ (0 <= 0x554A <= 0xFFFF)%Z)
  /\ ScanHex [0x35; 0x35; 0x67]%Z 0 = (0%Z, Some (mkParseError 0 Expect4HexDigit))
  /\ exists v, ScanHex [0x35; 0x35; 0x67; 0x41]%Z 0
               = (v, Some (mkParseError 2 (ExpectHexGot 0x67%Z))).
Proof.
  split; [|split].
  - apply (proj1 (ScanHex_four_digits [0x35; 0x35; 0x34; 0x41; 0x22]%Z 0)
             [0x35; 0x35; 0x34; 0x41]%Z); reflexivity.
  - apply (proj1 (proj2 (ScanHex_four_digits [0x35; 0x35; 0x67]%Z 0))). cbn. lia.
  - apply (proj2 (proj2 (ScanHex_four_digits [0x35; 0x35; 0x67; 0x41]%Z 0)) 2 0x67%Z);
      [lia | cbn; lia | reflexivity | reflexivity |].
    intros j Hj. assert (Hc : j = 0 \/ j = 1) by lia.
    destruct Hc as [-> | ->]; exists 0x35%Z, 5%Z; split; reflexivity.
Defined.

Section EscapeFacts.
Context (input : list rune).

Lemma ParseEscape_simple (cur : nat) (ch v : Z) :
  input !! cur = Some ch -> simple_escape ch = Some v ->
  ParseEscape input cur = (v, S cur, None).
Proof.
  intros E. unfold ParseEscape, simple_escape. rewrite E.
  repeat match goal with |- context [if ?b then _ else _] => destruct b end;
    intros [= <-]; reflexivity.
Qed.

Lemma ParseEscape_bad (cur : nat) (ch : Z) :
  input !! cur = Some ch -> simple_escape ch = None -> ch <> 0x75%Z ->
  ParseEscape input cur = (0%Z, cur, Some (mkParseError cur (BadEscapeChar ch))).
Proof.
  intros E Hs Hu. unfold ParseEscape. unfold simple_escape in Hs. rewrite E.
  repeat match goal with
  | H : context [if ?b then _ else _] |- _ => destruct b; try discriminate H
  end.
  rewrite (proj2 (Z.eqb_neq ch 0x75) Hu). reflexivity.
Qed.

Lemma ParseEscape_hex (cur : nat) (q : list Z) (v : Z) :
  input !! cur = Some 0x75%Z -> take 4 (drop (S cur) input) = q ->
  hex4_value q = Some v ->
  ParseEscape input cur = (v, cur + 5, None).
Proof.
  intros E Hq Hv. unfold ParseEscape. rewrite E. cbn [Z.eqb Pos.eqb orb].
  rewrite (ScanHex_hex4 input (S cur) q v Hq Hv). do 2 f_equal. lia.
Qed.

End EscapeFacts.

Lemma ParseString_loop_escape (fuel : nat) (input : list rune) (next : nat)
    (val : list rune) :
  input !! next = Some 0x5c%Z ->
  (forall ch v, input !! S next = Some ch -> simple_escape ch = Some v ->
     ParseString_loop (S fuel) input next val
     = ParseString_loop fuel input (next + 2) (val ++ [v]))
  /\ (forall q v, input !! S next = Some 0x75%Z ->
     take 4 (drop (next + 2) input) = q -> hex4_value q = Some v ->
     ParseString_loop (S fuel) input next val
     = ParseString_loop fuel input (next + 6) (val ++ [v]))
  /\ (forall ch, input !! S next = Some ch -> simple_escape ch = None -> ch <> 0x75%Z ->
     ParseString_loop (S fuel) input next val
     = Done (EmptyString, S next, Some (mkParseError (S next) (BadEscapeChar ch))))
  /\ (input !! S next = None ->
     ParseString_loop (S fuel) input next val
     = Done (EmptyString, S next,
             Some (mkParseError (S next) StringNotTerminatedExpectEscape))).
Proof.
  intros E. split; [|split; [|split]].
  - intros ch v Ech Hs. cbn [ParseString_loop]. rewrite E. cbn [Z.eqb Pos.eqb].
    rewrite (ParseEscape_simple input (S next) ch v Ech Hs).
    replace (next + 2) with (S (S next)) by lia. reflexivity.
  - intros q v Eu Hq Hv. cbn [ParseString_loop]. rewrite E. cbn [Z.eqb Pos.eqb].
    replace (next + 2) with (S (S next)) in Hq by lia.
    rewrite (ParseEscape_hex input (S next) q v Eu Hq Hv).
    replace (S next + 5) with (next + 6) by lia. reflexivity.
  - intros ch Ech Hs Hu. cbn [ParseString_loop]. rewrite E. cbn [Z.eqb Pos.eqb].
    rewrite (ParseEscape_bad input (S next) ch Ech Hs Hu). reflexivity.
  - intros Eend. cbn [ParseString_loop]. rewrite E. cbn [Z.eqb Pos.eqb].
    unfold ParseEscape. rewrite Eend. reflexivity.
Qed.

(** X10: in a string, a backslash followed by a quote, a backslash, a
    slash or one of [b f n r t] appends the code point of that escape and
    moves two code points on; followed
    by [u] and four hexadecimal digits it appends their number and moves
    six on; followed by another code point it fails with "bad escape
    char" at that code point, and at the end of the input with "string
    not terminated, expect escape". *)
Theorem ParseString_escape_steps (fuel : nat) (input : list rune) (next : nat)
    (val : list rune) :
  input !! next = Some 0x5c%Z ->
  (forall ch v, input !! S next = Some ch -> simple_escape ch = Some v ->
     ParseString_loop (S fuel) input next val
     = ParseString_loop fuel input (next + 2) (val ++ [v]))
  /\ (forall q v, input !! S next = Some 0x75%Z ->
     take 4 (drop (next + 2) input) = q -> hex4_value q = Some v ->
     ParseString_loop (S fuel) input next val
     = ParseString_loop fuel input (next + 6) (val ++ [v]))
  /\ (forall ch, input !! S next = Some ch -> simple_escape ch = None -> ch <> 0x75%Z ->
     ParseString_loop (S fuel) input next val
     = Done (EmptyString, S next, Some (mkParseError (S next) (BadEscapeChar ch))))
  /\ (input !! S next = None ->
     ParseString_loop (S fuel) input next val
     = Done (EmptyString, S next,
             Some (mkParseError (S next) StringNotTerminatedExpectEscape))).
Proof. exact (ParseString_loop_escape fuel input next val). Qed.

Lemma ParseString_escape_steps_witness :
  ParseString_loop 3 [0x22; 0x5c; 0x6e; 0x22]%Z 1 []
    = ParseString_loop 2 [0x22; 0x5c; 0x6e; 0x22]%Z 3 [0x0a%Z]
  /\ ParseString_loop 3 [0x22; 0x5c; 0x75; 0x30; 0x30; 0x65; 0x39; 0x22]%Z 1 []
    = ParseString_loop 2 [0x22; 0x5c; 0x75; 0x30; 0x30; 0x65; 0x39; 0x22]%Z 7 [0xe9%Z]
  /\ ParseString_loop 3 [0x22; 0x5c; 0x78; 0x22]%Z 1 []
    = Done (EmptyString, 2, Some (mkParseError 2 (BadEscapeChar 0x78%Z)))
  /\ ParseString_loop 3 [0x22; 0x5c]%Z 1 []
    = Done (EmptyString, 2, Some (mkParseError 2 StringNotTerminatedExpectEscape)).
Proof.
  split; [|split; [|split]].
  - apply (proj1 (ParseString_escape_steps 2 [0x22; 0x5c; 0x6e; 0x22]%Z 1 [] eq_refl)
             0x6e%Z 0x0a%Z); reflexivity.
  - apply (proj1 (proj2 (ParseString_escape_steps 2
             [0x22; 0x5c; 0x75; 0x30; 0x30; 0x65; 0x39; 0x22]%Z 1 [] eq_refl))
             [0x30; 0x30; 0x65; 0x39]%Z 0xe9%Z); reflexivity.
  - apply (proj1 (proj2 (proj2 (ParseString_escape_steps 2 [0x22; 0x5c; 0x78; 0x22]%Z 1 []
             eq_refl))) 0x78%Z); [reflexivity | reflexivity | lia].
  - apply (proj2 (proj2 (proj2 (ParseString_escape_steps 2 [0x22; 0x5c]%Z 1 [] eq_refl)))).
    reflexivity.
Defined.

Section Surrogates.

Lemma go_string_of_runes_surrogate (v1 v2 : Z) :
  is_surrogate v1 -> is_surrogate v2 ->
  go_string_of_runes [v1; v2] = go_string_of_runes [0xFFFD; 0xFFFD]%Z.
Proof.
  unfold is_surrogate. intros H1 H2. unfold go_string_of_runes. cbn [map].
  assert (Hv : forall v, (0xD800 <= v <= 0xDFFF)%Z -> go_valid_rune v = false).
  { intros v Hv. unfold go_valid_rune. lia. }
  rewrite (Hv v1 H1), (Hv v2 H2). reflexivity.
Qed.

Lemma lookup_after (pre : list Z) (x : Z) (rest : list Z) (k : nat) :
  k = length pre -> (pre ++ x :: rest) !! k = Some x.
Proof. intros ->. apply list_lookup_middle. reflexivity. Qed.

End Surrogates.

(** X11: two [\u] escapes in a row are two code points: a high and a low
    surrogate are not combined into one code point, and the string that is
    returned holds U+FFFD twice, as for every other pair of surrogates. *)
Theorem ParseString_surrogate_escapes (q1 q2 : list rune) (v1 v2 : rune)
    (rest : list rune) :
  hex4_value q1 = Some v1 -> hex4_value q2 = Some v2 ->
  ParseString ([0x22; 0x5c; 0x75]%Z ++ q1 ++ [0x5c; 0x75]%Z ++ q2 ++ 0x22%Z :: rest) 0
    = Done (go_string_of_runes [v1; v2], 14, None)
  /\ (is_surrogate v1 -> is_surrogate v2 ->
      go_string_of_runes [v1; v2] = go_string_of_runes [0xFFFD; 0xFFFD]%Z).
Proof.
  intros H1 H2. split; [|apply go_string_of_runes_surrogate].
  assert (L1 : length q1 = 4).
  { unfold hex4_value in H1. destruct q1 as [|? [|? [|? [|? [|]]]]]; try discriminate.
    reflexivity. }
  assert (L2 : length q2 = 4).
  { unfold hex4_value in H2. destruct q2 as [|? [|? [|? [|? [|]]]]]; try discriminate.
    reflexivity. }
  destruct q1 as [|a0 [|a1 [|a2 [|a3 [|]]]]]; try discriminate L1.
  destruct q2 as [|b0 [|b1 [|b2 [|b3 [|]]]]]; try discriminate L2.
  cbn [app]. unfold ParseString. rewrite Consume_quote_head.
  cbn [length].
  set (input := (0x22 :: 0x5c :: 0x75 :: a0 :: a1 :: a2 :: a3 :: 0x5c :: 0x75
                   :: b0 :: b1 :: b2 :: b3 :: 0x22 :: rest)%Z).
  match goal with
  | |- ParseString_loop (S ?f) _ _ _ = _ =>
      destruct (ParseString_loop_escape f input 1 [] eq_refl) as (_ & Hhex1 & _)
  end.
  rewrite (Hhex1 [a0; a1; a2; a3] v1 eq_refl eq_refl H1). cbn [Nat.add app].
  match goal with
  | |- ParseString_loop (S ?f) _ _ _ = _ =>
      destruct (ParseString_loop_escape f input 7 [v1] eq_refl) as (_ & Hhex2 & _)
  end.
  rewrite (Hhex2 [b0; b1; b2; b3] v2 eq_refl eq_refl H2).
  reflexivity.
Qed.

Lemma ParseString_surrogate_escapes_witness :
  ParseString ([0x22; 0x5c; 0x75]%Z ++ [0x64; 0x38; 0x33; 0x64]%Z ++ [0x5c; 0x75]%Z
                 ++ [0x44; 0x45; 0x30; 0x30]%Z ++ [0x22%Z]) 0
    = Done (go_string_of_runes [0xD83D; 0xDE00]%Z, 14, None)
  /\ go_string_of_runes [0xD83D; 0xDE00]%Z = go_string_of_runes [0xFFFD; 0xFFFD]%Z.
Proof.
  destruct (ParseString_surrogate_escapes [0x64; 0x38; 0x33; 0x64]%Z
              [0x44; 0x45; 0x30; 0x30]%Z 0xD83D%Z 0xDE00%Z [] eq_refl eq_refl) as [Hp Hs].
  split; [exact Hp|]. apply Hs; unfold is_surrogate; lia.
Defined.

(** * Further properties: numbers *)

Section Wrap64.
Local Open Scope Z_scope.

Lemma wrap64_range (z : Z) : - 2 ^ 63 <= wrap64 z < 2 ^ 63.
Proof.
  unfold wrap64. pose proof (Z.mod_pos_bound (z + 2 ^ 63) (2 ^ 64) ltac:(lia)). lia.
Qed.

Lemma wrap64_small (z : Z) : - 2 ^ 63 <= z < 2 ^ 63 -> wrap64 z = z.
Proof. intros Hz. unfold wrap64. rewrite Z.mod_small; lia. Qed.

Lemma wrap64_mod (z : Z) : wrap64 z mod 2 ^ 64 = z mod 2 ^ 64.
Proof.
  unfold wrap64. rewrite Zminus_mod_idemp_l. f_equal. lia.
Qed.

Lemma wrap64_eqm (a b : Z) : a mod 2 ^ 64 = b mod 2 ^ 64 -> wrap64 a = wrap64 b.
Proof.
  intros H. unfold wrap64. f_equal.
  rewrite (Zplus_mod a), (Zplus_mod b), H. reflexivity.
Qed.

Lemma wrap64_digit_step (V d : Z) :
  wrap64 (wrap64 (wrap64 V * 10) + d) = wrap64 (V * 10 + d).
Proof.
  apply wrap64_eqm.
  rewrite <- Zplus_mod_idemp_l, wrap64_mod, Zplus_mod_idemp_l.
  rewrite <- Zplus_mod_idemp_l, <- Zmult_mod_idemp_l, wrap64_mod.
  rewrite Zmult_mod_idemp_l, Zplus_mod_idemp_l. reflexivity.
Qed.

End Wrap64.

Section ScanIntDecimal.

Lemma at_is_app (pre rest : list Z) (p : Z -> bool) :
  at_is (pre ++ rest) (length pre) p = head_is rest p.
Proof.
  unfold at_is, head_is. rewrite lookup_app_r by lia. rewrite Nat.sub_diag.
  destruct rest; reflexivity.
Qed.

Lemma ScanInt_loop_digits (ds : list Z) :
  forall (pre rest : list Z) (V : Z),
    Forall (fun ch => IsDigit ch = true) ds -> head_is rest IsDigit = false ->
    ScanInt_loop (pre ++ ds ++ rest) (length ds + length rest) (length pre) (wrap64 V)
    = (wrap64 (fold_left (fun v ch => (v * 10 + (ch - 0x30))%Z) ds V),
       length pre + length ds).
Proof.
  induction ds as [|d ds IH]; intros pre rest V Hds Hrest.
  - cbn [app length Nat.add fold_left]. rewrite Nat.add_0_r.
    destruct rest as [|r rest]; [reflexivity|].
    cbn [length ScanInt_loop]. rewrite (list_lookup_middle pre rest r _ eq_refl).
    cbn [head_is] in Hrest. rewrite Hrest. reflexivity.
  - apply Forall_cons_1 in Hds as [Hd Hds].
    cbn [length Nat.add ScanInt_loop fold_left app].
    rewrite (list_lookup_middle pre (ds ++ rest) d _ eq_refl). rewrite Hd.
    rewrite wrap64_digit_step.
    replace (pre ++ d :: ds ++ rest) with ((pre ++ [d]) ++ ds ++ rest)
      by (rewrite <- app_assoc; reflexivity).
    replace (S (length pre)) with (length (pre ++ [d]))
      by (rewrite length_app; cbn; lia).
    rewrite IH by assumption. rewrite length_app. cbn [length]. f_equal. lia.
Qed.

Lemma digits_fold_nonneg (ds : list Z) :
  forall V, (0 <= V)%Z -> Forall (fun ch => IsDigit ch = true) ds ->
    (0 <= fold_left (fun v ch => (v * 10 + (ch - 0x30))%Z) ds V)%Z.
Proof.
  induction ds as [|d ds IH]; intros V HV Hds; [exact HV|].
  apply Forall_cons_1 in Hds as [Hd Hds]. cbn [fold_left]. apply IH; [|exact Hds].
  unfold IsDigit in Hd. lia.
Qed.

Lemma digits_value_nonneg (ds : list Z) :
  Forall (fun ch => IsDigit ch = true) ds -> (0 <= digits_value ds)%Z.
Proof. intros Hds. apply digits_fold_nonneg; [lia | exact Hds]. Qed.

Lemma ScanInt_digits (pre ds rest : list Z) :
  ds <> [] -> Forall (fun ch => IsDigit ch = true) ds -> head_is rest IsDigit = false ->
  ScanInt (pre ++ ds ++ rest) (length pre)
  = (wrap64 (digits_value ds), length pre + length ds, None).
Proof.
  intros Hne Hds Hrest. unfold ScanInt.
  rewrite at_is_app. destruct ds as [|d ds]; [congruence|].
  pose proof (Forall_inv Hds) as Hd. cbn [app head_is]. rewrite Hd. cbn [negb].
  replace (length (pre ++ d :: ds ++ rest) - length pre)
    with (length (d :: ds) + length rest)
    by (rewrite length_app; cbn [length]; rewrite length_app; lia).
  pose proof (ScanInt_loop_digits (d :: ds) pre rest 0 Hds Hrest) as Hloop.
  change (wrap64 0) with 0%Z in Hloop. cbn [app] in Hloop.
  rewrite Hloop. reflexivity.
Qed.

End ScanIntDecimal.

(** X12: [ScanInt] on a run of digits that no digit follows returns the
    number they write in base ten, reduced to a signed 64-bit integer by
    wrap-around (the number itself below 2^63), and the position after
    the run; where no digit stands it fails with "expect digits" and
    returns the cursor 0. *)
Theorem ScanInt_decimal (pre ds rest : list rune) :
  Forall (fun ch => IsDigit ch = true) ds -> head_is rest IsDigit = false ->
  (ds <> [] ->
     ScanInt (pre ++ ds ++ rest) (length pre)
     = (wrap64 (digits_value ds), length pre + length ds, None)
     /\ ((digits_value ds < 2 ^ 63)%Z -> wrap64 (digits_value ds) = digits_value ds))
  /\ (ds = [] ->
     ScanInt (pre ++ ds ++ rest) (length pre)
     = (0%Z, 0, Some (mkParseError (length pre) ExpectDigits))).
Proof.
  intros Hds Hrest. split.
  - intros Hne. split; [exact (ScanInt_digits pre ds rest Hne Hds Hrest)|].
    intros Hsmall. apply wrap64_small.
    pose proof (digits_value_nonneg ds Hds). lia.
  - intros ->. cbn [app]. unfold ScanInt. rewrite at_is_app, Hrest. reflexivity.
Qed.

Lemma ScanInt_decimal_witness :
  ScanInt ([0x5b%Z] ++ [0x34; 0x32]%Z ++ [0x5d%Z]) 1 = (wrap64 (digits_value [0x34; 0x32]%Z), 3, None)
  /\ wrap64 (digits_value [0x34; 0x32]%Z) = 42%Z
  /\ ScanInt ([0x5b%Z] ++ [] ++ [0x5d%Z]) 1 = (0%Z, 0, Some (mkParseError 1 ExpectDigits)).
Proof.
  assert (Hds : Forall (fun ch => IsDigit ch = true) [0x34; 0x32]%Z)
    by (repeat constructor).
  destruct (ScanInt_decimal [0x5b%Z] [0x34; 0x32]%Z [0x5d%Z] Hds eq_refl) as [Hok _].
  destruct (Hok ltac:(discriminate)) as [Hv Hw].
  split; [exact Hv|]. split.
  - rewrite Hw; [reflexivity | cbv; reflexivity].
  - apply (ScanInt_decimal [0x5b%Z] [] [0x5d%Z] (Forall_nil_2 _) eq_refl). reflexivity.
Defined.

Section IntegerLiterals.

Lemma head_is_split (rest : list Z) :
  head_is rest (fun ch => IsDigit ch || is_frac_exp_marker ch) = false ->
  head_is rest IsDigit = false
  /\ head_is rest (Z.eqb 0x2e) = false
  /\ head_is rest (fun ch => (ch =? 0x65)%Z || (ch =? 0x45)%Z) = false.
Proof.
  destruct rest as [|r rest]; cbn [head_is]; [auto|].
  unfold is_frac_exp_marker, IsDigit. lia.
Qed.

Lemma ParseNum_frac_none (input : list Z) (n : nat) :
  at_is input n (Z.eqb 0x2e) = false ->
  ParseNum_frac input n = (false, 0%float, n, None).
Proof. intros H. unfold ParseNum_frac. rewrite H. reflexivity. Qed.

Lemma ParseNum_exp_none (signs : list (string * bool)) (input : list Z) (n : nat) :
  at_is input n (fun ch => (ch =? 0x65)%Z || (ch =? 0x45)%Z) = false ->
  ParseNum_exp signs input n = (false, 0%Z, n, None).
Proof. intros H. unfold ParseNum_exp. rewrite H. reflexivity. Qed.

(** The literal after its sign, when it is a run of digits or a lone
    zero: the part of [ParseNum] from the integer part on. *)
Lemma ParseNum_ord_from_sign (signs : list (string * bool)) (input : list Z)
    (cur : nat) (neg : bool) (n1 n2 : nat) (ch0 whole : Z) :
  Consume input cur tok_minus
    = (n1, if neg then None else Some (mkParseError n1 (ExpectTok tok_minus))) ->
  input !! n1 = Some ch0 ->
  ParseNum_whole input n1 ch0 = (whole, n2, None) ->
  at_is input n2 (Z.eqb 0x2e) = false ->
  at_is input n2 (fun ch => (ch =? 0x65)%Z || (ch =? 0x45)%Z) = false ->
  ParseNum_ord signs input cur
  = (if neg then JInt (wrap64 (- whole)) else JInt whole, n2, None).
Proof.
  intros Hc E0 Hw Hf He. unfold ParseNum_ord. rewrite Hc.
  replace (input !! n1) with (Some ch0) by (destruct neg; symmetry; exact E0).
  assert (Hgoal :
    (let '(whole0, next, err) := ParseNum_whole input n1 ch0 in
     match err with
     | Some e => (JNull, next, Some e)
     | None =>
         let '(hasfrac, frac, next0, err0) := ParseNum_frac input next in
         match err0 with
         | Some e => (JNull, next0, Some e)
         | None =>
             let '(hasexp, expnum, next1, err1) := ParseNum_exp signs input next0 in
             match err1 with
             | Some e => (JNull, next1, Some e)
             | None =>
                 (ParseNum_value neg whole0 (hasfrac || hasexp) frac hasexp expnum,
                  next1, None)
             end
         end
     end) = (if neg then JInt (wrap64 (- whole)) else JInt whole, n2, None)).
  { rewrite Hw, (ParseNum_frac_none _ _ Hf), (ParseNum_exp_none _ _ _ He).
    unfold ParseNum_value. cbn [orb negb]. destruct neg; reflexivity. }
  destruct neg; exact Hgoal.
Qed.

Lemma digit_not_space (ch : Z) : IsDigit ch = true -> is_space ch = false.
Proof. unfold IsDigit, is_space. lia. Qed.

Lemma Consume_minus_at (pre rest : list Z) (x : Z) :
  is_space x = false ->
  Consume (pre ++ x :: rest) (length pre) tok_minus
  = if decide (x = 0x2d%Z) then (S (length pre), None)
    else (length pre, Some (mkParseError (length pre) (ExpectTok tok_minus))).
Proof.
  intros Hsp. rewrite (Consume_single _ _ tok_minus _ tok_minus_runes).
  rewrite (SkipSpace_fixed _ _ x (list_lookup_middle pre rest x _ eq_refl) Hsp).
  rewrite (list_lookup_middle pre rest x _ eq_refl).
  destruct (decide (x = 0x2d%Z)) as [->|Hne].
  - rewrite decide_True by reflexivity. reflexivity.
  - rewrite decide_False by congruence. reflexivity.
Qed.

Lemma ParseNum_ord_digits (signs : list (string * bool)) (pre ds rest : list Z) :
  ds <> [] -> Forall (fun ch => IsDigit ch = true) ds ->
  head_is ds (fun ch => (ch =? 0x30)%Z) = false ->
  head_is rest (fun ch => IsDigit ch || is_frac_exp_marker ch) = false ->
  ParseNum_ord signs (pre ++ ds ++ rest) (length pre)
  = (JInt (wrap64 (digits_value ds)), length pre + length ds, None).
Proof.
  intros Hne Hds Hz Hrest. destruct (head_is_split rest Hrest) as (Hr1 & Hr2 & Hr3).
  destruct ds as [|d ds]; [congruence|]. pose proof (Forall_inv Hds) as Hd.
  cbn [head_is] in Hz.
  assert (Hat : forall p, at_is (pre ++ (d :: ds) ++ rest) (length pre + length (d :: ds)) p
                          = head_is rest p).
  { intros p. rewrite app_assoc, <- length_app. apply at_is_app. }
  apply (ParseNum_ord_from_sign signs _ _ false (length pre) _ d (wrap64 (digits_value (d :: ds)))).
  - cbn [app]. rewrite (Consume_minus_at pre (ds ++ rest) d (digit_not_space d Hd)).
    rewrite decide_False by (unfold IsDigit in Hd; lia). reflexivity.
  - cbn [app]. apply list_lookup_middle. reflexivity.
  - unfold ParseNum_whole. rewrite Hz. exact (ScanInt_digits pre (d :: ds) rest Hne Hds Hr1).
  - rewrite Hat. exact Hr2.
  - rewrite Hat. exact Hr3.
Qed.

Lemma ParseNum_ord_minus_digits (signs : list (string * bool)) (pre ds rest : list Z) :
  ds <> [] -> Forall (fun ch => IsDigit ch = true) ds ->
  head_is ds (fun ch => (ch =? 0x30)%Z) = false ->
  head_is rest (fun ch => IsDigit ch || is_frac_exp_marker ch) = false ->
  ParseNum_ord signs (pre ++ 0x2d%Z :: ds ++ rest) (length pre)
  = (JInt (wrap64 (- wrap64 (digits_value ds))), length pre + S (length ds), None).
Proof.
  intros Hne Hds Hz Hrest. destruct (head_is_split rest Hrest) as (Hr1 & Hr2 & Hr3).
  destruct ds as [|d ds]; [congruence|]. pose proof (Forall_inv Hds) as Hd.
  cbn [head_is] in Hz.
  assert (Hin : pre ++ 0x2d%Z :: (d :: ds) ++ rest = (pre ++ [0x2d%Z]) ++ (d :: ds) ++ rest)
    by (rewrite <- app_assoc; reflexivity).
  assert (Hlen : length (pre ++ [0x2d%Z]) = S (length pre))
    by (rewrite length_app; cbn; lia).
  assert (Hat : forall p, at_is (pre ++ 0x2d%Z :: (d :: ds) ++ rest)
                            (S (length pre) + length (d :: ds)) p = head_is rest p).
  { intros p. rewrite Hin, <- Hlen, app_assoc, <- length_app. apply at_is_app. }
  replace (length pre + S (length (d :: ds))) with (S (length pre) + length (d :: ds)) by lia.
  apply (ParseNum_ord_from_sign signs _ _ true (S (length pre)) _ d
           (wrap64 (digits_value (d :: ds)))).
  - rewrite (Consume_minus_at pre ((d :: ds) ++ rest) 0x2d%Z eq_refl).
    rewrite decide_True by reflexivity. reflexivity.
  - rewrite Hin, <- Hlen. cbn [app]. apply list_lookup_middle. reflexivity.
  - unfold ParseNum_whole. rewrite Hz. rewrite Hin, <- Hlen.
    exact (ScanInt_digits (pre ++ [0x2d%Z]) (d :: ds) rest Hne Hds Hr1).
  - rewrite Hat. exact Hr2.
  - rewrite Hat. exact Hr3.
Qed.

Lemma ParseNum_ord_zero (signs : list (string * bool)) (pre rest : list Z) :
  head_is rest is_frac_exp_marker = false ->
  ParseNum_ord signs (pre ++ 0x30%Z :: rest) (length pre) = (JInt 0, S (length pre), None).
Proof.
  intros Hrest.
  assert (Hat : forall p, at_is (pre ++ 0x30%Z :: rest) (S (length pre)) p = head_is rest p).
  { intros p. replace (pre ++ 0x30%Z :: rest) with ((pre ++ [0x30%Z]) ++ rest)
      by (rewrite <- app_assoc; reflexivity).
    replace (S (length pre)) with (length (pre ++ [0x30%Z]))
      by (rewrite length_app; cbn; lia).
    apply at_is_app. }
  assert (Hm : head_is rest (Z.eqb 0x2e) = false
               /\ head_is rest (fun ch => (ch =? 0x65)%Z || (ch =? 0x45)%Z) = false).
  { destruct rest as [|r rest]; cbn [head_is] in *; [auto|].
    unfold is_frac_exp_marker in Hrest. lia. }
  apply (ParseNum_ord_from_sign signs _ _ false (length pre) _ 0x30%Z 0%Z).
  - rewrite (Consume_minus_at pre rest 0x30%Z eq_refl).
    rewrite decide_False by discriminate. reflexivity.
  - apply list_lookup_middle. reflexivity.
  - reflexivity.
  - rewrite Hat. apply Hm.
  - rewrite Hat. apply Hm.
Qed.

Lemma ParseAny_number (fuel : nat) (input : list Z) (cur : nat) (ch : Z) :
  input !! cur = Some ch -> (IsDigit ch || (ch =? 0x2d)%Z) = true ->
  ParseAny (S fuel) input cur = Done (ParseNum input cur).
Proof.
  intros Hch Hd.
  assert (Hsp : is_space ch = false) by (unfold IsDigit, is_space in *; lia).
  cbn [ParseAny]. rewrite (SkipSpace_fixed input cur ch Hch Hsp), Hch.
  rewrite Hd.
  replace (ch =? 0x5b)%Z with false by (unfold IsDigit in Hd; lia).
  replace (ch =? 0x7b)%Z with false by (unfold IsDigit in Hd; lia).
  replace (ch =? 0x22)%Z with false by (unfold IsDigit in Hd; lia).
  reflexivity.
Qed.

End IntegerLiterals.

(** X13: [ParseNum] on a run of digits that does not start with a zero and
    that no digit, point or exponent marker follows returns the Integer
    they write in base ten, wrapped to 64 bits; after a minus sign it
    returns the negation, wrapped again, so that the least [int64] is
    read exactly; the cursor is after the last digit. *)
Theorem ParseNum_integer_literal (pre ds rest : list rune) :
  ds <> [] -> Forall (fun ch => IsDigit ch = true) ds ->
  head_is ds (fun ch => (ch =? 0x30)%Z) = false ->
  head_is rest (fun ch => IsDigit ch || is_frac_exp_marker ch) = false ->
  ParseNum (pre ++ ds ++ rest) (length pre)
    = (JInt (wrap64 (digits_value ds)), length pre + length ds, None)
  /\ ParseNum (pre ++ 0x2d%Z :: ds ++ rest) (length pre)
    = (JInt (wrap64 (- wrap64 (digits_value ds))), length pre + S (length ds), None)
  /\ ((digits_value ds < 2 ^ 63)%Z ->
      wrap64 (digits_value ds) = digits_value ds
      /\ wrap64 (- wrap64 (digits_value ds)) = (- digits_value ds)%Z)
  /\ (digits_value ds = 2 ^ 63 ->
      wrap64 (- wrap64 (digits_value ds)) = - 2 ^ 63)%Z.
Proof.
  intros Hne Hds Hz Hrest. split; [|split; [|split]].
  - exact (ParseNum_ord_digits sign_literals pre ds rest Hne Hds Hz Hrest).
  - exact (ParseNum_ord_minus_digits sign_literals pre ds rest Hne Hds Hz Hrest).
  - intros Hsmall. pose proof (digits_value_nonneg ds Hds) as Hpos.
    rewrite (wrap64_small (digits_value ds)) by lia.
    split; [reflexivity | apply wrap64_small; lia].
  - intros ->. reflexivity.
Qed.

Lemma ParseNum_integer_literal_witness :
  ParseNum ([0x5b%Z] ++ [0x34; 0x32]%Z ++ [0x5d%Z]) 1
    = (JInt (wrap64 (digits_value [0x34; 0x32]%Z)), 3, None)
  /\ ParseNum ([0x5b%Z] ++ 0x2d%Z :: [0x34; 0x32]%Z ++ [0x5d%Z]) 1
    = (JInt (wrap64 (- wrap64 (digits_value [0x34; 0x32]%Z))), 4, None)
  /\ wrap64 (- wrap64 (digits_value [0x34; 0x32]%Z)) = (- 42)%Z.
Proof.
  destruct (ParseNum_integer_literal [0x5b%Z] [0x34; 0x32]%Z [0x5d%Z])
    as (Hp & Hn & Hs & _);
    [discriminate | repeat constructor | reflexivity | reflexivity |].
  split; [exact Hp|]. split; [exact Hn|].
  destruct Hs as [_ Hs]; [cbv; reflexivity|]. exact Hs.
Defined.

(** X14: a literal that starts with a zero has the integer part zero and
    ends there unless a point or an exponent marker follows: digits after
    the zero are not part of the number, and [ParseRunes] of a zero
    followed by a digit fails with "not terminated" at that digit. *)
Theorem ParseNum_leading_zero (pre rest : list rune) :
  head_is rest is_frac_exp_marker = false ->
  ParseNum (pre ++ 0x30%Z :: rest) (length pre) = (JInt 0, S (length pre), None)
  /\ (head_is rest IsDigit = true ->
      ParseRunes (0x30%Z :: rest)
      = Done (JInt 0, Some (mkParseError 1 NotTerminated))).
Proof.
  intros Hrest. split; [exact (ParseNum_ord_zero sign_literals pre rest Hrest)|].
  intros Hd. destruct rest as [|d rest]; [discriminate Hd|]. cbn [head_is] in Hd.
  unfold ParseRunes.
  rewrite (ParseAny_number _ (0x30%Z :: d :: rest) 0 0x30%Z eq_refl eq_refl).
  change (ParseNum (0x30%Z :: d :: rest) 0)
    with (ParseNum_ord sign_literals ([] ++ 0x30%Z :: d :: rest) (length (@nil Z))).
  rewrite (ParseNum_ord_zero sign_literals [] (d :: rest) Hrest).
  cbn [mbind outcome_bind length].
  rewrite (SkipSpace_fixed (0x30%Z :: d :: rest) 1 d eq_refl (digit_not_space d Hd)).
  rewrite bool_decide_true by (cbn [length]; lia). reflexivity.
Qed.

Lemma ParseNum_leading_zero_witness :
  ParseNum ([0x20%Z] ++ 0x30%Z :: [0x31; 0x32]%Z) 1 = (JInt 0, 2, None)
  /\ ParseRunes (0x30%Z :: [0x31; 0x32]%Z)
     = Done (JInt 0, Some (mkParseError 1 NotTerminated)).
Proof.
  destruct (ParseNum_leading_zero [0x20%Z] [0x31; 0x32]%Z eq_refl) as [Hp _].
  destruct (ParseNum_leading_zero [] [0x31; 0x32]%Z eq_refl) as [_ Hr].
  split; [exact Hp | exact (Hr eq_refl)].
Defined.

(** X17: a minus sign that no digit follows. At the end of the input
    [ParseNum] takes the branch that the source marks as unreachable and
    fails with "expects digits, got EOS"; before any code point that is
    not a digit, white space included, it fails with "expect digits";
    both at the position after the sign. [ParseAny] sends every input
    whose first code point is the sign there. *)
Theorem ParseNum_minus_without_digit (pre rest : list rune) :
  head_is rest IsDigit = false ->
  ParseNum (pre ++ 0x2d%Z :: rest) (length pre)
  = match rest with
    | [] => (JNull, S (length pre),
             Some (mkParseError (S (length pre)) ExpectsDigitsGotEOS))
    | _ :: _ => (JNull, 0, Some (mkParseError (S (length pre)) ExpectDigits))
    end
  /\ ParseRunes (0x2d%Z :: rest)
     = Done (JNull, Some (mkParseError 1 match rest with
                                         | [] => ExpectsDigitsGotEOS
                                         | _ :: _ => ExpectDigits
                                         end)).
Proof.
  intros Hrest.
  assert (Hnum : forall pre : list rune,
    ParseNum (pre ++ 0x2d%Z :: rest) (length pre)
    = match rest with
      | [] => (JNull, S (length pre),
               Some (mkParseError (S (length pre)) ExpectsDigitsGotEOS))
      | _ :: _ => (JNull, 0, Some (mkParseError (S (length pre)) ExpectDigits))
      end).
  { clear pre. intros pre. unfold ParseNum, ParseNum_ord.
    rewrite (Consume_minus_at pre rest 0x2d%Z eq_refl).
    rewrite decide_True by reflexivity.
    replace (pre ++ 0x2d%Z :: rest) with ((pre ++ [0x2d%Z]) ++ rest)
      by (rewrite <- app_assoc; reflexivity).
    replace (S (length pre)) with (length (pre ++ [0x2d%Z]))
      by (rewrite length_app; cbn; lia).
    destruct rest as [|ch rest'].
    - rewrite app_nil_r, lookup_ge_None_2 by lia. reflexivity.
    - cbn [head_is] in Hrest.
      rewrite (list_lookup_middle (pre ++ [0x2d%Z]) rest' ch _ eq_refl).
      unfold ParseNum_whole, ScanInt, at_is.
      replace (ch =? 0x30)%Z with false by (unfold IsDigit in Hrest; lia).
      rewrite (list_lookup_middle (pre ++ [0x2d%Z]) rest' ch _ eq_refl), Hrest.
      reflexivity. }
  split; [exact (Hnum pre)|].
  unfold ParseRunes.
  rewrite (ParseAny_number _ (0x2d%Z :: rest) 0 0x2d%Z eq_refl eq_refl).
  change (ParseNum (0x2d%Z :: rest) 0)
    with (ParseNum ([] ++ 0x2d%Z :: rest) (length (@nil Z))).
  rewrite (Hnum []). destruct rest; reflexivity.
Qed.

Lemma ParseNum_minus_without_digit_witness :
  ParseNum ([0x5b%Z] ++ 0x2d%Z :: [0x20; 0x31]%Z) 1
  = (JNull, 0, Some (mkParseError 2 ExpectDigits))
  /\ ParseRunes (0x2d%Z :: [0x20; 0x31]%Z)
     = Done (JNull, Some (mkParseError 1 ExpectDigits)).
Proof. exact (ParseNum_minus_without_digit [0x5b%Z] [0x20; 0x31]%Z eq_refl). Defined.

(** * Further properties: values, error positions and lists *)

Section PlainValues.
Context (input : list rune).

Lemma ScanInt_loop_range (n : nat) :
  forall (next : nat) (value value' : Z) (next' : nat),
    (- 2 ^ 63 <= value < 2 ^ 63)%Z ->
    ScanInt_loop input n next value = (value', next') ->
    (- 2 ^ 63 <= value' < 2 ^ 63)%Z.
Proof.
  induction n as [|n IH]; intros next value value' next' Hv H; cbn [ScanInt_loop] in H.
  - injection H as <- _. exact Hv.
  - destruct (input !! next) as [ch|]; [|injection H as <- _; exact Hv].
    destruct (IsDigit ch); [|injection H as <- _; exact Hv].
    exact (IH _ _ _ _ (wrap64_range _) H).
Qed.

Lemma ScanInt_range (cur : nat) (value : Z) (next : nat) (err : option ParseError) :
  ScanInt input cur = (value, next, err) -> (- 2 ^ 63 <= value < 2 ^ 63)%Z.
Proof.
  unfold ScanInt. destruct (negb (at_is input cur IsDigit)).
  - intros [= <- _ _]. lia.
  - destruct (ScanInt_loop input (length input - cur) cur 0) as [v n] eqn:E.
    intros [= <- _ _]. refine (ScanInt_loop_range _ _ 0%Z _ _ _ E). lia.
Qed.

Lemma ParseNum_ord_plain (signs : list (string * bool)) (cur : nat)
    (value : JsonValue) (next : nat) :
  ParseNum_ord signs input cur = (value, next, None) -> plain_value value.
Proof.
  intros H. apply ParseNum_ord_ok in H.
  destruct H as (neg & n1 & ch0 & whole & n2 & hasfrac & frac & n3 & hasexp & expnum
                 & _ & _ & Hw & _ & _ & ->).
  unfold ParseNum_value. destruct (negb (hasfrac || hasexp)); [|constructor].
  destruct neg; constructor; [apply wrap64_range|].
  unfold ParseNum_whole in Hw. destruct (ch0 =? 0x30)%Z.
  - injection Hw as <- _. lia.
  - exact (ScanInt_range _ _ _ _ Hw).
Qed.

Lemma ParseBoolNull_plain (cur : nat) (value : JsonValue) (next : nat) :
  ParseBoolNull input cur = (value, next, None) -> plain_value value.
Proof.
  unfold ParseBoolNull, ParseBoolNull_ord, bool_null_literals.
  cbn [ParseBoolNull_loop].
  destruct (Consume input cur "true") as [n1 [e1|]]; [|intros [= <- _]; constructor].
  destruct (Consume input cur "false") as [n2 [e2|]]; [|intros [= <- _]; constructor].
  destruct (Consume input cur "null") as [n3 [e3|]]; [|intros [= <- _]; constructor].
  discriminate.
Qed.

Lemma ParseString_loop_runes (fuel : nat) :
  forall (next : nat) (val : list rune) (s : string) (next' : nat),
    ParseString_loop fuel input next val = Done (s, next', None) ->
    exists val', s = go_string_of_runes val'.
Proof.
  induction fuel as [|fuel IH]; intros next val s next' H; [discriminate|].
  cbn [ParseString_loop] in H.
  destruct (input !! next) as [ch|]; [|discriminate].
  destruct (ch =? 0x22)%Z; [injection H as <- _; eauto|].
  destruct (ch =? 0x5c)%Z.
  { destruct (ParseEscape input (S next)) as [[ch' n'] [e|]]; [discriminate|].
    exact (IH _ _ _ _ H). }
  destruct (IsNoEscape ch); [exact (IH _ _ _ _ H) | discriminate].
Qed.

Lemma ParseString_runes (cur : nat) (s : string) (next : nat) :
  ParseString input cur = Done (s, next, None) ->
  exists val, s = go_string_of_runes val.
Proof.
  unfold ParseString. destruct (Consume input cur tok_quote) as [n [e|]]; [discriminate|].
  apply ParseString_loop_runes.
Qed.

Lemma ParseKeyValue_plain (parseAny : ParseFunc) (cur : nat) (value : JsonValue)
    (next : nat) :
  (forall cur value next, parseAny input cur = Done (value, next, None) -> plain_value value) ->
  ParseKeyValue parseAny input cur = Done (value, next, None) -> plain_key_value value.
Proof.
  intros Hany. unfold ParseKeyValue.
  destruct (ParseString input cur) as [[[key n1] [e|]]| |] eqn:Hs; cbn; try discriminate.
  destruct (Consume input n1 tok_colon) as [n2 [e|]]; [discriminate|].
  destruct (parseAny input n2) as [[[v n3] [e|]]| |] eqn:Hv; cbn; try discriminate.
  intros [= <- _]. destruct (ParseString_runes _ _ _ Hs) as [val ->].
  exists val, v. split; [reflexivity | exact (Hany _ _ _ Hv)].
Qed.

End PlainValues.

Lemma ParseMap_convert_plain (items : list JsonValue) :
  forall jmap jmap' : gmap string JsonValue,
    Forall plain_key_value items ->
    plain_value (JObject jmap) ->
    ParseMap_convert items jmap = Some jmap' ->
    plain_value (JObject jmap').
Proof.
  induction items as [|item items IH]; intros jmap jmap' Hitems Hmap H.
  - injection H as <-. exact Hmap.
  - pose proof (Forall_inv Hitems) as (val & value & -> & Hvalue).
    cbn [ParseMap_convert] in H.
    apply (IH _ _ (Forall_inv_tail Hitems)) in H; [exact H|].
    constructor. intros key v Hlook. inversion Hmap as [| | | | | |jm Hjm]; subst.
    destruct (decide (key = go_string_of_runes val)) as [->|Hne].
    + rewrite lookup_insert_eq in Hlook. injection Hlook as <-. eauto.
    + rewrite lookup_insert_ne in Hlook by congruence. exact (Hjm _ _ Hlook).
Qed.

Lemma ParseAny_plain (input : list rune) (fuel : nat) :
  forall (cur : nat) (value : JsonValue) (next : nat),
    ParseAny fuel input cur = Done (value, next, None) -> plain_value value.
Proof.
  induction fuel as [|fuel IH]; intros cur value next H; [discriminate|].
  cbn [ParseAny] in H.
  destruct (input !! SkipSpace input cur) as [ch|]; [|discriminate].
  destruct (ch =? 0x5b)%Z.
  { destruct (ParseArrayLike_items input fuel _ ("[", "]") plain_value _ _ _ IH H)
      as (items & -> & Hitems). constructor. exact Hitems. }
  destruct (ch =? 0x7b)%Z.
  { apply ParseMap_ok in H as (items & jmap & H & Hconv & ->).
    destruct (ParseArrayLike_items input fuel _ ("{", "}") plain_key_value _ _ _
                (fun c v n => ParseKeyValue_plain input _ c v n IH) H)
      as (items' & [= <-] & Hitems).
    apply (ParseMap_convert_plain items ∅ jmap Hitems); [|exact Hconv].
    constructor. intros key v Hlook. rewrite lookup_empty in Hlook. discriminate. }
  destruct (ch =? 0x22)%Z.
  { destruct (ParseString input (SkipSpace input cur)) as [[[s n1] err]| |] eqn:Hstr;
      cbn in H; try discriminate.
    injection H as <- <- ->. destruct (ParseString_runes _ _ _ _ Hstr) as [val ->].
    constructor. }
  destruct (IsDigit ch || (ch =? 0x2d)%Z).
  { injection H as H. exact (ParseNum_ord_plain _ _ _ _ _ H). }
  destruct ((ch =? 0x74)%Z || (ch =? 0x66)%Z || (ch =? 0x6e)%Z).
  { injection H as H. exact (ParseBoolNull_plain _ _ _ _ H). }
  discriminate.
Qed.

Lemma ParseRunes_plain (input : list rune) (value : JsonValue) :
  ParseRunes input = Done (value, None) -> plain_value value.
Proof.
  unfold ParseRunes.
  destruct (ParseAny (S (length input)) input 0) as [[[v n] [e|]]| |] eqn:H;
    cbn [mbind outcome_bind]; try discriminate.
  destruct (bool_decide _); [discriminate|].
  intros [= <-]. exact (ParseAny_plain _ _ _ _ _ H).
Qed.

(** X15: a value that [Parse] or [ParseRunes] returns without error holds
    no [JsonKeyValue] at any depth (the pairs that [ParseKeyValue] hands to
    [ParseMap] never leave it), its integers are within [int64], and its
    strings and keys are conversions of code points. *)
Theorem Parse_value_plain :
  (forall (input : list rune) (value : JsonValue),
     ParseRunes input = Done (value, None) -> plain_value value)
  /\ (forall (input : string) (value : JsonValue),
     Parse input = Done (value, None) -> plain_value value).
Proof.
  split; [exact ParseRunes_plain|].
  intros input value. unfold Parse.
  destruct (DecodeString input) as [[decoded [e|]]| |]; cbn [mbind outcome_bind];
    try discriminate.
  destruct (ParseRunes decoded) as [[v [e|]]| |] eqn:H; cbn [mbind outcome_bind option_map];
    try discriminate.
  intros [= <-]. exact (ParseRunes_plain _ _ H).
Qed.

Lemma Parse_value_plain_witness :
  Parse "[1,null]" = Done (JArray [JInt 1; JNull], None)
  /\ plain_value (JArray [JInt 1; JNull]).
Proof.
  assert (H : Parse "[1,null]" = Done (JArray [JInt 1; JNull], None))
    by (vm_compute; reflexivity).
  split; [exact H | exact (proj2 Parse_value_plain _ _ H)].
Defined.

Section ErrorPositions.
Context (input : list rune).

Lemma Consume_loop_Some_lt (next : nat) (tokrune : list rune) :
  forall i k : nat, Consume_loop input next i tokrune = Some k ->
    i <= k < i + length tokrune.
Proof.
  induction tokrune as [|ch rest IH]; intros i k H; cbn [Consume_loop] in H;
    [discriminate|].
  destruct (nth (next + i) input 0 =? ch)%Z.
  - apply IH in H. cbn [length]. lia.
  - injection H as <-. cbn [length]. lia.
Qed.

Lemma Consume_error_pos (cur : nat) (tok : string) (next : nat) (e : ParseError) :
  Consume input cur tok = (next, Some e) -> pe_pos e <= length input.
Proof.
  unfold Consume. pose proof (SkipSpace_le_length input cur) as Hs.
  destruct (length input - SkipSpace input cur <? length (go_runes_of_string tok)) eqn:Hlen.
  - intros [= _ <-]. exact Hs.
  - destruct (Consume_loop input (SkipSpace input cur) 0 (go_runes_of_string tok))
      as [k|] eqn:Hloop; [|discriminate].
    intros [= _ <-]. apply Consume_loop_Some_lt in Hloop. cbn [pe_pos].
    apply Nat.ltb_ge in Hlen. lia.
Qed.

Lemma Consume_cursor_le (cur : nat) (tok : string) (next : nat) (err : option ParseError) :
  Consume input cur tok = (next, err) -> next <= length input.
Proof.
  destruct err as [e|]; intros H.
  - rewrite (Consume_fail_cursor _ _ _ _ _ H). apply SkipSpace_le_length.
  - apply Consume_ok in H. lia.
Qed.

Lemma ScanHex_loop_error_pos (cur n : nat) :
  forall (i : nat) (value value' : Z) (e : ParseError),
    ScanHex_loop input cur n i value = (value', Some e) -> pe_pos e < cur + i + n.
Proof.
  induction n as [|n IH]; intros i value value' e H; cbn [ScanHex_loop] in H;
    [discriminate|].
  destruct (Hex2Num input (cur + i)) as [d [e'|]] eqn:Hd.
  - injection H as _ <-. unfold Hex2Num in Hd.
    repeat match type of Hd with
           | (if ?c then _ else _) = _ => destruct c; [discriminate|]
           end.
    injection Hd as _ <-. cbn [pe_pos]. lia.
  - apply IH in H. lia.
Qed.

Lemma ScanHex_error_pos (cur : nat) (value : Z) (e : ParseError) :
  cur <= length input -> ScanHex input cur = (value, Some e) -> pe_pos e <= length input.
Proof.
  intros Hcur. unfold ScanHex. destruct (length input <? cur + 4) eqn:Hlen.
  - intros [= _ <-]. exact Hcur.
  - intros H. apply ScanHex_loop_error_pos in H. apply Nat.ltb_ge in Hlen. lia.
Qed.

Lemma ParseEscape_error_pos (cur : nat) (value : Z) (next : nat) (e : ParseError) :
  cur <= length input ->
  ParseEscape input cur = (value, next, Some e) -> pe_pos e <= length input.
Proof.
  intros Hcur. unfold ParseEscape.
  destruct (input !! cur) as [ch|] eqn:E; [|intros [= _ _ <-]; exact Hcur].
  pose proof (lookup_lt_Some _ _ _ E) as Hlt.
  repeat match goal with
         | |- (if (?c =? 0x75)%Z then _ else _) = _ -> _ => destruct (c =? 0x75)%Z
         | |- (if ?c then _ else _) = _ -> _ => destruct c; [discriminate|]
         end.
  - destruct (ScanHex input (S cur)) as [v [e'|]] eqn:Hh; [|discriminate].
    intros [= _ _ <-]. refine (ScanHex_error_pos (S cur) _ _ _ Hh). lia.
  - intros [= _ _ <-]. cbn [pe_pos]. lia.
Qed.

Lemma ParseString_loop_error_pos (fuel : nat) :
  forall (next : nat) (val : list rune) (s : string) (next' : nat) (e : ParseError),
    next <= length input ->
    ParseString_loop fuel input next val = Done (s, next', Some e) ->
    pe_pos e <= length input.
Proof.
  induction fuel as [|fuel IH]; intros next val s next' e Hn H; [discriminate|].
  cbn [ParseString_loop] in H.
  destruct (input !! next) as [ch|] eqn:E; [|injection H as _ _ <-; exact Hn].
  pose proof (lookup_lt_Some _ _ _ E) as Hlt.
  destruct (ch =? 0x22)%Z; [discriminate|].
  destruct (ch =? 0x5c)%Z.
  { destruct (ParseEscape input (S next)) as [[ch' n'] [e'|]] eqn:He.
    - injection H as _ _ <-. refine (ParseEscape_error_pos (S next) _ _ _ _ He). lia.
    - apply ParseEscape_progress in He. refine (IH n' _ _ _ _ _ H). lia. }
  destruct (IsNoEscape ch).
  - refine (IH (S next) _ _ _ _ _ H). lia.
  - injection H as _ _ <-. cbn [pe_pos]. lia.
Qed.

Lemma ParseString_error_pos (cur : nat) (s : string) (next : nat) (e : ParseError) :
  ParseString input cur = Done (s, next, Some e) -> pe_pos e <= length input.
Proof.
  unfold ParseString. destruct (Consume input cur tok_quote) as [n [e'|]] eqn:Hc.
  - intros [= _ _ <-]. exact (Consume_error_pos _ _ _ _ Hc).
  - apply ParseString_loop_error_pos. exact (Consume_cursor_le _ _ _ _ Hc).
Qed.

Lemma ScanInt_error_pos (cur : nat) (value : Z) (next : nat) (e : ParseError) :
  ScanInt input cur = (value, next, Some e) -> pe_pos e = cur.
Proof.
  unfold ScanInt. destruct (negb (at_is input cur IsDigit)).
  - intros [= _ _ <-]. reflexivity.
  - destruct (ScanInt_loop input (length input - cur) cur 0). discriminate.
Qed.

Lemma ParseNum_ord_error_pos (signs : list (string * bool)) (cur : nat)
    (value : JsonValue) (next : nat) (e : ParseError) :
  ParseNum_ord signs input cur = (value, next, Some e) -> pe_pos e <= length input.
Proof.
  unfold ParseNum_ord.
  destruct (Consume input cur tok_minus) as [n1 suberr] eqn:Hc.
  pose proof (Consume_cursor_le _ _ _ _ Hc) as Hn1.
  destruct (input !! n1) as [ch0|] eqn:E0; [|intros [= _ _ <-]; exact Hn1].
  destruct (ParseNum_whole input n1 ch0) as [[whole n2] [e1|]] eqn:Hw.
  { intros [= _ _ <-]. unfold ParseNum_whole in Hw.
    destruct (ch0 =? 0x30)%Z; [discriminate|].
    rewrite (ScanInt_error_pos _ _ _ _ Hw). exact Hn1. }
  apply (ParseNum_whole_ok input _ _ _ _ E0) in Hw as [Hn2 _].
  destruct (ParseNum_frac input n2) as [[[hasfrac frac] n3] [e2|]] eqn:Hf.
  { intros [= _ _ <-]. unfold ParseNum_frac in Hf.
    destruct (at_is input n2 (Z.eqb 0x2e)) eqn:Hat; [|discriminate].
    apply at_is_lt in Hat.
    destruct (negb (at_is input (S n2) IsDigit)).
    - injection Hf as _ _ _ <-. cbn [pe_pos]. lia.
    - destruct (ParseNum_frac_loop input (length input - S n2) (S n2) 0 10).
      discriminate. }
  assert (Hn3 : n3 <= length input).
  { apply ParseNum_frac_ok in Hf. destruct Hf as [[_ ->]|(_ & _ & Hb & _)]; lia. }
  destruct (ParseNum_exp signs input n3) as [[[hasexp expnum] n4] [e3|]] eqn:He;
    [|discriminate].
  intros [= _ _ <-]. unfold ParseNum_exp in He.
  destruct (at_is input n3 _) eqn:Hat; [|discriminate].
  apply at_is_lt in Hat.
  destruct (ParseNum_sign_loop signs input (S n3) false) as [n5 expneg] eqn:Hsl.
  apply ParseNum_sign_loop_bounds in Hsl; [|lia].
  destruct (ScanInt input n5) as [[v n6] [e4|]] eqn:Hsi; [|discriminate].
  injection He as _ _ _ <-. rewrite (ScanInt_error_pos _ _ _ _ Hsi). lia.
Qed.

Lemma ParseBoolNull_loop_error_pos (literals : list (string * JsonValue)) :
  forall (cur next : nat) (value : JsonValue) (next' : nat) (e : ParseError),
    next <= length input ->
    ParseBoolNull_loop literals input cur next = (value, next', Some e) ->
    pe_pos e <= length input.
Proof.
  induction literals as [|[literal val] rest IH]; intros cur next value next' e Hn H;
    cbn [ParseBoolNull_loop] in H.
  - injection H as _ _ <-. exact Hn.
  - destruct (Consume input cur literal) as [n [e'|]] eqn:Hc; [|discriminate].
    exact (IH _ _ _ _ _ (Consume_cursor_le _ _ _ _ Hc) H).
Qed.

Lemma ParseArrayLike_loop_error_pos (itemParser : ParseFunc) (close : string) :
  bounded_errors itemParser input ->
  forall (fuel next : nat) (arr : list JsonValue) (value : JsonValue) (next' : nat)
         (e : ParseError),
    ParseArrayLike_loop fuel itemParser close input next arr = Done (value, next', Some e) ->
    pe_pos e <= length input.
Proof.
  intros Hitem. induction fuel as [|fuel IH]; intros next arr value next' e H;
    [discriminate|].
  cbn [ParseArrayLike_loop] in H.
  destruct (itemParser input next) as [[[subval n1] [e1|]]| |] eqn:Hi;
    cbn [mbind outcome_bind] in H; try discriminate.
  { injection H as _ _ <-. exact (Hitem _ _ _ _ Hi). }
  destruct (Consume input n1 tok_comma) as [n2 [e2|]] eqn:Hc1.
  - destruct (Consume input n2 close) as [n3 [e3|]] eqn:Hc2; [|discriminate].
    injection H as _ _ <-. exact (Consume_cursor_le _ _ _ _ Hc2).
  - exact (IH _ _ _ _ _ H).
Qed.

Lemma ParseArrayLike_error_pos (fuel : nat) (itemParser : ParseFunc)
    (bracket : string * string) :
  bounded_errors itemParser input ->
  bounded_errors (fun input cur => ParseArrayLike fuel input cur itemParser bracket) input.
Proof.
  intros Hitem cur value next e. unfold ParseArrayLike.
  destruct (Consume input cur (fst bracket)) as [n1 [e1|]] eqn:Hc1.
  { intros [= _ _ <-]. exact (Consume_error_pos _ _ _ _ Hc1). }
  destruct (Consume input n1 (snd bracket)) as [n2 [e2|]] eqn:Hc2; [|discriminate].
  apply ParseArrayLike_loop_error_pos. exact Hitem.
Qed.

Lemma ParseKeyValue_error_pos (parseAny : ParseFunc) :
  bounded_errors parseAny input -> bounded_errors (ParseKeyValue parseAny) input.
Proof.
  intros Hany cur value next e. unfold ParseKeyValue.
  destruct (ParseString input cur) as [[[key n1] [e1|]]| |] eqn:Hs;
    cbn [mbind outcome_bind]; try discriminate.
  { intros [= _ _ <-]. exact (ParseString_error_pos _ _ _ _ Hs). }
  destruct (Consume input n1 tok_colon) as [n2 [e2|]] eqn:Hc.
  { intros [= _ _ <-]. exact (Consume_error_pos _ _ _ _ Hc). }
  destruct (parseAny input n2) as [[[v n3] [e3|]]| |] eqn:Hv;
    cbn [mbind outcome_bind]; try discriminate.
  intros [= _ _ <-]. exact (Hany _ _ _ _ Hv).
Qed.

Lemma ParseMap_error_pos (fuel : nat) (parseAny : ParseFunc) :
  bounded_errors parseAny input -> bounded_errors (ParseMap fuel parseAny) input.
Proof.
  intros Hany cur value next e. unfold ParseMap.
  destruct (ParseArrayLike fuel input cur (ParseKeyValue parseAny) ("{", "}"))
    as [[[v n1] [e1|]]| |] eqn:Ha; cbn [mbind outcome_bind]; try discriminate.
  - intros [= _ _ <-].
    exact (ParseArrayLike_error_pos fuel _ ("{", "}")
             (ParseKeyValue_error_pos _ Hany) _ _ _ _ Ha).
  - destruct v; try discriminate.
    destruct (ParseMap_convert _ _); discriminate.
Qed.

Lemma ParseAny_error_pos (fuel : nat) : bounded_errors (ParseAny fuel) input.
Proof.
  induction fuel as [|fuel IH]; intros cur value next e H; [discriminate|].
  cbn [ParseAny] in H. pose proof (SkipSpace_le_length input cur) as Hs.
  destruct (input !! SkipSpace input cur) as [ch|] eqn:E;
    [|injection H as _ _ <-; exact Hs].
  destruct (ch =? 0x5b)%Z.
  { exact (ParseArrayLike_error_pos fuel _ ("[", "]") IH _ _ _ _ H). }
  destruct (ch =? 0x7b)%Z.
  { exact (ParseMap_error_pos fuel _ IH _ _ _ _ H). }
  destruct (ch =? 0x22)%Z.
  { destruct (ParseString input (SkipSpace input cur)) as [[[s n1] err]| |] eqn:Hstr;
      cbn in H; try discriminate.
    injection H as _ _ ->. exact (ParseString_error_pos _ _ _ _ Hstr). }
  destruct (IsDigit ch || (ch =? 0x2d)%Z).
  { injection H as H. exact (ParseNum_ord_error_pos _ _ _ _ _ H). }
  destruct ((ch =? 0x74)%Z || (ch =? 0x66)%Z || (ch =? 0x6e)%Z).
  { injection H as H. unfold ParseBoolNull, ParseBoolNull_ord in H.
    refine (ParseBoolNull_loop_error_pos _ _ 0 _ _ _ _ H). lia. }
  injection H as _ _ <-. exact Hs.
Qed.

Lemma ParseRunes_error_pos (value : JsonValue) (e : ParseError) :
  ParseRunes input = Done (value, Some e) -> pe_pos e <= length input.
Proof.
  unfold ParseRunes.
  destruct (ParseAny (S (length input)) input 0) as [[[v n] [e1|]]| |] eqn:H;
    cbn [mbind outcome_bind]; try discriminate.
  - intros [= _ <-]. exact (ParseAny_error_pos _ _ _ _ _ H).
  - destruct (bool_decide _); [|discriminate].
    intros [= _ <-]. apply SkipSpace_le_length.
Qed.

End ErrorPositions.

(** X16: the position of a [ParseError] is an index of the code points or
    their count, never beyond: for every production of the grammar, from
    any cursor, and for [ParseRunes] and [Parse] (where the count is that
    of the decoded code points, not of the bytes). *)
Theorem ParseError_position_in_input :
  (forall (input : list rune) (fuel : nat), bounded_errors (ParseAny fuel) input)
  /\ (forall (input : list rune) (value : JsonValue) (e : ParseError),
     ParseRunes input = Done (value, Some e) -> pe_pos e <= length input)
  /\ (forall (input : string) (value : JsonValue) (e : ParseError),
     Parse input = Done (value, Some (EParse e)) ->
     exists decoded, DecodeString input = Done (decoded, None)
                     /\ pe_pos e <= length decoded).
Proof.
  split; [exact ParseAny_error_pos|]. split; [exact ParseRunes_error_pos|].
  intros input value e. unfold Parse.
  destruct (DecodeString input) as [[decoded [e1|]]| |]; cbn [mbind outcome_bind];
    try discriminate.
  destruct (ParseRunes decoded) as [[v [e2|]]| |] eqn:H;
    cbn [mbind outcome_bind option_map]; try discriminate.
  intros [= _ <-]. exists decoded. split; [reflexivity|].
  exact (ParseRunes_error_pos _ _ _ H).
Qed.

Lemma ParseError_position_in_input_witness :
  ParseRunes [0x5b; 0x31]%Z
  = Done (JNull, Some (mkParseError 2 (ExpectCloseOrComma "]")))
  /\ 2 <= length [0x5b; 0x31]%Z.
Proof.
  assert (H : ParseRunes [0x5b; 0x31]%Z
              = Done (JNull, Some (mkParseError 2 (ExpectCloseOrComma "]"))))
    by (vm_compute; reflexivity).
  split; [exact H | exact (proj1 (proj2 ParseError_position_in_input) _ _ _ H)].
Defined.

Section ArrayItems.
Context (itemParser : ParseFunc) (close : string) (input : list rune).

Lemma ParseArrayLike_loop_array_items (fuel : nat) :
  forall (next : nat) (arr : list JsonValue) (value : JsonValue) (next' : nat),
    ParseArrayLike_loop fuel itemParser close input next arr = Done (value, next', None) ->
    exists items, value = JArray (arr ++ items)
                  /\ array_items itemParser close input next items next'.
Proof.
  induction fuel as [|fuel IH]; intros next arr value next' H; [discriminate|].
  cbn [ParseArrayLike_loop] in H.
  destruct (itemParser input next) as [[[subval n1] [e1|]]| |] eqn:Hi;
    cbn [mbind outcome_bind] in H; try discriminate.
  destruct (Consume input n1 tok_comma) as [n2 [e2|]] eqn:Hc1.
  - destruct (Consume input n2 close) as [n3 [e3|]] eqn:Hc2; [discriminate|].
    injection H as <- <-. exists [subval]. split; [reflexivity|].
    apply (array_items_last _ _ _ next subval n1 n3 Hi); [eexists _, _; exact Hc1|].
    rewrite (Consume_fail_cursor _ _ _ _ _ Hc1) in Hc2.
    rewrite Consume_SkipSpace in Hc2. exact Hc2.
  - apply IH in H as (items & -> & Hitems). exists (subval :: items).
    split; [rewrite <- app_assoc; reflexivity|].
    exact (array_items_more _ _ _ next subval n1 n2 items next' Hi Hc1 Hitems).
Qed.

Lemma array_items_ParseArrayLike_loop (next : nat) (items : list JsonValue)
    (next' : nat) :
  array_items itemParser close input next items next' ->
  forall (fuel : nat) (arr : list JsonValue),
    length items <= fuel ->
    ParseArrayLike_loop fuel itemParser close input next arr
    = Done (JArray (arr ++ items), next', None).
Proof.
  induction 1 as [next v n1 n2 Hi (n & e & Hc1) Hc2
                 |next v n1 n2 items n3 Hi Hc1 Hitems IH]; intros fuel arr Hfuel.
  - destruct fuel as [|fuel]; [cbn in Hfuel; lia|].
    cbn [ParseArrayLike_loop]. rewrite Hi. cbn [mbind outcome_bind]. rewrite Hc1.
    rewrite (Consume_fail_cursor _ _ _ _ _ Hc1), Consume_SkipSpace, Hc2. reflexivity.
  - destruct fuel as [|fuel]; [cbn in Hfuel; lia|].
    cbn [ParseArrayLike_loop]. rewrite Hi. cbn [mbind outcome_bind]. rewrite Hc1.
    rewrite (IH fuel (arr ++ [v])) by (cbn in Hfuel; lia).
    rewrite <- app_assoc. reflexivity.
Qed.

Lemma array_items_length (next : nat) (items : list JsonValue) (next' : nat) :
  advancing itemParser input ->
  array_items itemParser close input next items next' ->
  next + length items <= next' <= length input /\ items <> [].
Proof.
  intros Hadv. induction 1 as [next v n1 n2 Hi _ Hc2
                              |next v n1 n2 items n3 Hi Hc1 Hitems IH].
  - apply Hadv in Hi. apply Consume_ok in Hc2 as (-> & Hle & _).
    pose proof (SkipSpace_ge input n1 ltac:(lia)). cbn [length]. split; [lia|discriminate].
  - apply Hadv in Hi. apply Consume_ok in Hc1 as (-> & Hle & _).
    pose proof (SkipSpace_ge input n1 ltac:(lia)). cbn [length]. split; [lia|discriminate].
Qed.

End ArrayItems.

(** X18: the loop of [ParseArrayLike] accepts exactly the lists "item, then
    a comma and more items or the closing token", and returns their values
    in the order of the text after those already collected: a successful
    run gives such a list, and such a list is parsed by every run with at
    least as much fuel as it has items. With an item parser that moves the
    cursor forward, the list has no more items than code points from the
    cursor on, so that the fuel of a top-level parse is enough. *)
Theorem ParseArrayLike_loop_accepts_array_items (itemParser : ParseFunc)
    (close : string) (input : list rune) (next : nat) (arr : list JsonValue) :
  (forall (fuel : nat) (value : JsonValue) (next' : nat),
     ParseArrayLike_loop fuel itemParser close input next arr = Done (value, next', None) ->
     exists items, value = JArray (arr ++ items)
                   /\ array_items itemParser close input next items next')
  /\ (forall (items : list JsonValue) (next' : nat),
     array_items itemParser close input next items next' ->
     (forall fuel, length items <= fuel ->
        ParseArrayLike_loop fuel itemParser close input next arr
        = Done (JArray (arr ++ items), next', None))
     /\ (advancing itemParser input ->
         next + length items <= next' <= length input /\ items <> [])).
Proof.
  split.
  - intros fuel value next'. apply ParseArrayLike_loop_array_items.
  - intros items next' Hitems. split.
    + exact (fun fuel => array_items_ParseArrayLike_loop _ _ _ _ _ _ Hitems fuel arr).
    + intros Hadv. exact (array_items_length _ _ _ _ _ _ Hadv Hitems).
Qed.

Lemma ParseArrayLike_loop_accepts_array_items_witness :
  exists items,
    JArray [JInt 1; JNull] = JArray ([] ++ items)
    /\ array_items (ParseAny 3) "]" [0x5b; 0x31; 0x2c; 0x6e; 0x75; 0x6c; 0x6c; 0x5d]%Z
         1 items 8.
Proof.
  apply (proj1 (ParseArrayLike_loop_accepts_array_items (ParseAny 3) "]"
                  [0x5b; 0x31; 0x2c; 0x6e; 0x75; 0x6c; 0x6c; 0x5d]%Z 1 []) 3).
  vm_compute. reflexivity.
Defined.

(** * Further properties: the input before the cursor *)

Ltac cursor_eq :=
  match goal with
  | |- (?v, ?a, ?e) = (?v, ?b, ?e) => replace a with b by lia; reflexivity
  | |- Done (?v, ?a, ?e) = Done (?v, ?b, ?e) => replace a with b by lia; reflexivity
  end.

Section Shift.
Context (pre input : list rune).

Lemma lookup_shift (i : nat) : (pre ++ input) !! (length pre + i) = input !! i.
Proof. rewrite lookup_app_r by lia. f_equal. lia. Qed.

Lemma nth_shift (i : nat) : nth (length pre + i) (pre ++ input) 0%Z = nth i input 0%Z.
Proof. apply app_nth2_plus. Qed.

Lemma length_shift (cur : nat) :
  length (pre ++ input) - (length pre + cur) = length input - cur.
Proof. rewrite length_app. lia. Qed.

Lemma at_is_shift (i : nat) (p : Z -> bool) :
  at_is (pre ++ input) (length pre + i) p = at_is input i p.
Proof. unfold at_is. rewrite lookup_shift. reflexivity. Qed.

Lemma SkipSpace_loop_shift (n : nat) :
  forall i : nat,
    SkipSpace_loop (pre ++ input) n (length pre + i)
    = length pre + SkipSpace_loop input n i.
Proof.
  induction n as [|n IH]; intros i; cbn [SkipSpace_loop].
  - apply length_app.
  - rewrite lookup_shift. destruct (input !! i) as [ch|]; [|apply length_app].
    destruct (is_space ch); [|reflexivity].
    rewrite <- IH. f_equal. lia.
Qed.

Lemma SkipSpace_shift (cur : nat) :
  SkipSpace (pre ++ input) (length pre + cur) = length pre + SkipSpace input cur.
Proof. unfold SkipSpace. rewrite length_shift. apply SkipSpace_loop_shift. Qed.

Lemma Consume_loop_shift (next : nat) (tokrune : list rune) :
  forall i : nat,
    Consume_loop (pre ++ input) (length pre + next) i tokrune
    = Consume_loop input next i tokrune.
Proof.
  induction tokrune as [|ch rest IH]; intros i; cbn [Consume_loop]; [reflexivity|].
  rewrite <- Nat.add_assoc, nth_shift, IH. reflexivity.
Qed.

Lemma Consume_shift (cur : nat) (tok : string) :
  Consume (pre ++ input) (length pre + cur) tok
  = (length pre + fst (Consume input cur tok),
     option_map (shift_ParseError (length pre)) (snd (Consume input cur tok))).
Proof.
  unfold Consume. rewrite SkipSpace_shift, length_shift, Consume_loop_shift.
  destruct (_ <? _); [reflexivity|].
  destruct (Consume_loop _ _ _ _); cbn [fst snd option_map]; unfold shift_ParseError;
    cbn [pe_pos pe_msg]; rewrite Nat.add_assoc; reflexivity.
Qed.

Lemma ScanHex_loop_shift (cur n : nat) :
  forall (i : nat) (value : Z),
    ScanHex_loop (pre ++ input) (length pre + cur) n i value
    = (fst (ScanHex_loop input cur n i value),
       option_map (shift_ParseError (length pre)) (snd (ScanHex_loop input cur n i value))).
Proof.
  induction n as [|n IH]; intros i value; cbn [ScanHex_loop]; [reflexivity|].
  unfold Hex2Num. rewrite <- Nat.add_assoc, nth_shift.
  repeat match goal with
         | |- context [if ?c then (_, None) else _] => destruct c; [apply IH|]
         end.
  cbn [fst snd option_map]. unfold shift_ParseError. cbn [pe_pos pe_msg]. reflexivity.
Qed.

Lemma ScanHex_shift (cur : nat) :
  ScanHex (pre ++ input) (length pre + cur)
  = (fst (ScanHex input cur),
     option_map (shift_ParseError (length pre)) (snd (ScanHex input cur))).
Proof.
  unfold ScanHex. rewrite length_app.
  replace (length pre + length input <? length pre + cur + 4)
    with (length input <? cur + 4)
    by (destruct (Nat.ltb_spec (length input) (cur + 4));
        destruct (Nat.ltb_spec (length pre + length input) (length pre + cur + 4)); lia).
  destruct (_ <? _); [reflexivity | apply ScanHex_loop_shift].
Qed.

Lemma ParseEscape_shift (cur : nat) :
  ParseEscape (pre ++ input) (length pre + cur)
  = let '(value, next, err) := ParseEscape input cur in
    (value, length pre + next, option_map (shift_ParseError (length pre)) err).
Proof.
  unfold ParseEscape. rewrite lookup_shift.
  destruct (input !! cur) as [ch|];
    [|cbn [option_map]; unfold shift_ParseError; cbn [pe_pos pe_msg]; reflexivity].
  repeat match goal with
         | |- context [if (?c =? 0x75)%Z then _ else _] => destruct (c =? 0x75)%Z
         | |- context [if ?c then (_, _, None) else _] =>
             destruct c; [cbn [option_map]; cursor_eq|]
         end.
  - replace (S (length pre + cur)) with (length pre + S cur) by lia.
    rewrite ScanHex_shift. destruct (ScanHex input (S cur)) as [v [e|]];
      cbn [fst snd option_map]; cursor_eq.
  - cbn [option_map]. unfold shift_ParseError. cbn [pe_pos pe_msg]. reflexivity.
Qed.

Lemma ParseString_loop_shift (fuel : nat) :
  forall (next : nat) (val : list rune),
    ParseString_loop fuel (pre ++ input) (length pre + next) val
    = '(s, n, err) ← ParseString_loop fuel input next val;
      Done (s, length pre + n, option_map (shift_ParseError (length pre)) err).
Proof.
  induction fuel as [|fuel IH]; intros next val; [reflexivity|].
  cbn [ParseString_loop]. rewrite lookup_shift.
  destruct (input !! next) as [ch|]; [|reflexivity].
  destruct (ch =? 0x22)%Z; [cbn [mbind outcome_bind option_map]; cursor_eq|].
  destruct (ch =? 0x5c)%Z.
  { replace (S (length pre + next)) with (length pre + S next) by lia.
    rewrite ParseEscape_shift.
    destruct (ParseEscape input (S next)) as [[ch' n'] [e|]]; [reflexivity|].
    cbn [option_map]. apply IH. }
  destruct (IsNoEscape ch); [|reflexivity].
  replace (S (length pre + next)) with (length pre + S next) by lia. apply IH.
Qed.

End Shift.

Lemma ParseString_loop_fuel (input : list rune) (fuel : nat) :
  forall (fuel' next : nat) (val : list rune),
    length input - next < fuel -> length input - next < fuel' ->
    ParseString_loop fuel input next val = ParseString_loop fuel' input next val.
Proof.
  induction fuel as [|fuel IH]; intros fuel' next val Hf Hf'; [lia|].
  destruct fuel' as [|fuel']; [lia|].
  cbn [ParseString_loop].
  destruct (input !! next) as [ch|] eqn:E; [|reflexivity].
  pose proof (lookup_lt_Some _ _ _ E) as Hlt.
  destruct (ch =? 0x22)%Z; [reflexivity|].
  destruct (ch =? 0x5c)%Z.
  { destruct (ParseEscape input (S next)) as [[ch' n'] [e|]] eqn:He; [reflexivity|].
    apply ParseEscape_progress in He. apply IH; lia. }
  destruct (IsNoEscape ch); [|reflexivity]. apply IH; lia.
Qed.

Lemma ParseString_shift (pre input : list rune) (cur : nat) :
  ParseString (pre ++ input) (length pre + cur)
  = '(s, n, err) ← ParseString input cur;
    Done (s, length pre + n, option_map (shift_ParseError (length pre)) err).
Proof.
  unfold ParseString. rewrite Consume_shift.
  destruct (Consume input cur tok_quote) as [n [e|]] eqn:Hc; cbn [fst snd option_map];
    [reflexivity|].
  apply Consume_ok in Hc as (_ & Hn & _).
  rewrite (ParseString_loop_fuel (pre ++ input) _ (S (length input)))
    by (rewrite length_app; lia).
  apply ParseString_loop_shift.
Qed.

Section ShiftNumbers.
Context (pre input : list rune).

Lemma ScanInt_loop_shift (n : nat) :
  forall (next : nat) (value : Z),
    ScanInt_loop (pre ++ input) n (length pre + next) value
    = (fst (ScanInt_loop input n next value),
       length pre + snd (ScanInt_loop input n next value)).
Proof.
  induction n as [|n IH]; intros next value; cbn [ScanInt_loop]; [reflexivity|].
  rewrite lookup_shift. destruct (input !! next) as [ch|]; [|reflexivity].
  destruct (IsDigit ch); [|reflexivity].
  replace (S (length pre + next)) with (length pre + S next) by lia. apply IH.
Qed.

Lemma ScanInt_shift (cur : nat) :
  ScanInt (pre ++ input) (length pre + cur)
  = match ScanInt input cur with
    | (value, next, None) => (value, length pre + next, None)
    | (value, next, Some e) => (value, next, Some (shift_ParseError (length pre) e))
    end.
Proof.
  unfold ScanInt. rewrite at_is_shift, length_shift, ScanInt_loop_shift.
  destruct (negb (at_is input cur IsDigit)); [reflexivity|].
  destruct (ScanInt_loop input (length input - cur) cur 0). reflexivity.
Qed.

Lemma ParseNum_frac_loop_shift (n : nat) :
  forall (next : nat) (frac scale : float),
    ParseNum_frac_loop (pre ++ input) n (length pre + next) frac scale
    = (fst (ParseNum_frac_loop input n next frac scale),
       length pre + snd (ParseNum_frac_loop input n next frac scale)).
Proof.
  induction n as [|n IH]; intros next frac scale; cbn [ParseNum_frac_loop];
    [reflexivity|].
  rewrite lookup_shift. destruct (input !! next) as [ch|]; [|reflexivity].
  destruct (IsDigit ch); [|reflexivity].
  replace (S (length pre + next)) with (length pre + S next) by lia. apply IH.
Qed.

Lemma ParseNum_frac_shift (next : nat) :
  ParseNum_frac (pre ++ input) (length pre + next)
  = let '(hasfrac, frac, next', err) := ParseNum_frac input next in
    (hasfrac, frac, length pre + next', option_map (shift_ParseError (length pre)) err).
Proof.
  unfold ParseNum_frac. rewrite at_is_shift.
  destruct (at_is input next (Z.eqb 0x2e)); [|reflexivity].
  replace (S (length pre + next)) with (length pre + S next) by lia.
  rewrite at_is_shift, length_shift, ParseNum_frac_loop_shift.
  destruct (negb (at_is input (S next) IsDigit)); [reflexivity|].
  destruct (ParseNum_frac_loop input (length input - S next) (S next) 0 10).
  reflexivity.
Qed.

Lemma ParseNum_sign_loop_shift (signs : list (string * bool)) :
  forall (next : nat) (expneg : bool),
    ParseNum_sign_loop signs (pre ++ input) (length pre + next) expneg
    = (length pre + fst (ParseNum_sign_loop signs input next expneg),
       snd (ParseNum_sign_loop signs input next expneg)).
Proof.
  induction signs as [|[sign val] rest IH]; intros next expneg;
    cbn [ParseNum_sign_loop]; [reflexivity|].
  rewrite Consume_shift. destruct (Consume input next sign) as [n [e|]];
    cbn [fst snd option_map]; [apply IH | reflexivity].
Qed.

Lemma ParseNum_exp_shift (signs : list (string * bool)) (next : nat) :
  ParseNum_exp signs (pre ++ input) (length pre + next)
  = match ParseNum_exp signs input next with
    | (hasexp, expnum, next', None) => (hasexp, expnum, length pre + next', None)
    | (hasexp, expnum, next', Some e) =>
        (hasexp, expnum, next', Some (shift_ParseError (length pre) e))
    end.
Proof.
  unfold ParseNum_exp. rewrite at_is_shift.
  destruct (at_is input next _); [|reflexivity].
  replace (S (length pre + next)) with (length pre + S next) by lia.
  rewrite ParseNum_sign_loop_shift.
  destruct (ParseNum_sign_loop signs input (S next) false) as [n expneg].
  cbn [fst snd]. rewrite ScanInt_shift.
  destruct (ScanInt input n) as [[v n'] [e|]]; reflexivity.
Qed.

Lemma ParseNum_ord_shift (signs : list (string * bool)) (cur : nat) :
  shifted (length pre) (Done (ParseNum_ord signs input cur))
    (Done (ParseNum_ord signs (pre ++ input) (length pre + cur))).
Proof.
  unfold ParseNum_ord. rewrite Consume_shift.
  destruct (Consume input cur tok_minus) as [n1 suberr]. cbn [fst snd].
  rewrite lookup_shift.
  replace (match option_map (shift_ParseError (length pre)) suberr with
           | Some _ => false | None => true end)
    with (match suberr with Some _ => false | None => true end)
    by (destruct suberr; reflexivity).
  destruct (input !! n1) as [ch0|]; [|split; reflexivity].
  assert (Hw : ParseNum_whole (pre ++ input) (length pre + n1) ch0
               = match ParseNum_whole input n1 ch0 with
                 | (value, next, None) => (value, length pre + next, None)
                 | (value, next, Some e) =>
                     (value, next, Some (shift_ParseError (length pre) e))
                 end).
  { unfold ParseNum_whole. destruct (ch0 =? 0x30)%Z; [cursor_eq | apply ScanInt_shift]. }
  rewrite Hw. destruct (ParseNum_whole input n1 ch0) as [[whole n2] [e1|]];
    [split; reflexivity|].
  rewrite ParseNum_frac_shift.
  destruct (ParseNum_frac input n2) as [[[hasfrac frac] n3] [e2|]]; cbn [option_map];
    [split; reflexivity|].
  rewrite ParseNum_exp_shift.
  destruct (ParseNum_exp signs input n3) as [[[hasexp expnum] n4] [e3|]];
    split; reflexivity.
Qed.

Lemma ParseBoolNull_shift (cur : nat) :
  shifted (length pre) (Done (ParseBoolNull input cur))
    (Done (ParseBoolNull (pre ++ input) (length pre + cur))).
Proof.
  unfold ParseBoolNull, ParseBoolNull_ord, bool_null_literals.
  cbn [ParseBoolNull_loop]. rewrite !Consume_shift.
  destruct (Consume input cur "true") as [n1 [e1|]]; cbn [fst snd option_map];
    [|split; reflexivity].
  destruct (Consume input cur "false") as [n2 [e2|]]; cbn [fst snd option_map];
    [|split; reflexivity].
  destruct (Consume input cur "null") as [n3 [e3|]]; cbn [fst snd option_map];
    split; reflexivity.
Qed.

Lemma ParseArrayLike_loop_shift (itemParser : ParseFunc) (close : string) :
  ignores_prefix itemParser pre input ->
  forall (fuel next : nat) (arr : list JsonValue),
    shifted (length pre) (ParseArrayLike_loop fuel itemParser close input next arr)
      (ParseArrayLike_loop fuel itemParser close (pre ++ input) (length pre + next) arr).
Proof.
  intros Hitem. induction fuel as [|fuel IH]; intros next arr; [exact I|].
  cbn [ParseArrayLike_loop]. specialize (Hitem next). unfold shifted in Hitem.
  destruct (itemParser input next) as [[[v n1] [e1|]]| |];
    destruct (itemParser (pre ++ input) (length pre + next)) as [[[v' n1'] [e1'|]]| |];
    try contradiction; cbn [mbind outcome_bind]; try exact I.
  - destruct Hitem as [_ ->]. split; reflexivity.
  - destruct Hitem as [-> ->]. rewrite !Consume_shift.
    destruct (Consume input n1 tok_comma) as [n2 [e2|]]; cbn [fst snd option_map];
      [|apply IH].
    rewrite ?Consume_shift.
    destruct (Consume input n2 close) as [n3 [e3|]]; cbn [fst snd option_map];
      split; reflexivity.
Qed.

Lemma ParseArrayLike_shift (fuel : nat) (itemParser : ParseFunc)
    (bracket : string * string) :
  ignores_prefix itemParser pre input ->
  ignores_prefix (fun input cur => ParseArrayLike fuel input cur itemParser bracket)
    pre input.
Proof.
  intros Hitem cur. unfold ParseArrayLike. rewrite Consume_shift.
  destruct (Consume input cur (fst bracket)) as [n1 [e1|]]; cbn [fst snd option_map];
    [split; reflexivity|].
  rewrite ?Consume_shift.
  destruct (Consume input n1 (snd bracket)) as [n2 [e2|]]; cbn [fst snd option_map];
    [|split; reflexivity].
  apply ParseArrayLike_loop_shift. exact Hitem.
Qed.

Lemma ParseKeyValue_shift (parseAny : ParseFunc) :
  ignores_prefix parseAny pre input ->
  ignores_prefix (ParseKeyValue parseAny) pre input.
Proof.
  intros Hany cur. unfold ParseKeyValue. rewrite ParseString_shift.
  destruct (ParseString input cur) as [[[key n1] [e1|]]| |];
    cbn [mbind outcome_bind option_map]; try exact I; [split; reflexivity|].
  rewrite ?Consume_shift.
  destruct (Consume input n1 tok_colon) as [n2 [e2|]]; cbn [fst snd option_map];
    [split; reflexivity|].
  specialize (Hany n2). unfold shifted in Hany.
  destruct (parseAny input n2) as [[[v n3] [e3|]]| |];
    destruct (parseAny (pre ++ input) (length pre + n2)) as [[[v' n3'] [e3'|]]| |];
    try contradiction; cbn [mbind outcome_bind]; try exact I.
  - destruct Hany as [_ ->]. split; reflexivity.
  - destruct Hany as [-> ->]. split; reflexivity.
Qed.

Lemma ParseMap_shift (fuel : nat) (parseAny : ParseFunc) :
  ignores_prefix parseAny pre input ->
  ignores_prefix (ParseMap fuel parseAny) pre input.
Proof.
  intros Hany cur. unfold ParseMap.
  pose proof (ParseArrayLike_shift fuel _ ("{", "}") (ParseKeyValue_shift _ Hany) cur)
    as Ha. cbn beta in Ha. unfold shifted in Ha.
  destruct (ParseArrayLike fuel input cur (ParseKeyValue parseAny) ("{", "}"))
    as [[[v n1] [e1|]]| |];
    destruct (ParseArrayLike fuel (pre ++ input) (length pre + cur)
                (ParseKeyValue parseAny) ("{", "}")) as [[[v' n1'] [e1'|]]| |];
    try contradiction; cbn [mbind outcome_bind]; try exact I.
  - exact Ha.
  - destruct Ha as [-> ->]. destruct v; try exact I.
    destruct (ParseMap_convert _ _); [split; reflexivity | exact I].
Qed.

Lemma ParseAny_shift (fuel : nat) : ignores_prefix (ParseAny fuel) pre input.
Proof.
  induction fuel as [|fuel IH]; intros cur; [exact I|].
  cbn [ParseAny]. rewrite SkipSpace_shift, lookup_shift.
  destruct (input !! SkipSpace input cur) as [ch|]; [|split; reflexivity].
  destruct (ch =? 0x5b)%Z.
  { exact (ParseArrayLike_shift fuel _ ("[", "]") IH _). }
  destruct (ch =? 0x7b)%Z.
  { exact (ParseMap_shift fuel _ IH _). }
  destruct (ch =? 0x22)%Z.
  { rewrite ParseString_shift.
    destruct (ParseString input (SkipSpace input cur)) as [[[s n1] [e|]]| |];
      cbn [mbind outcome_bind option_map]; try exact I; split; reflexivity. }
  destruct (IsDigit ch || (ch =? 0x2d)%Z).
  { apply ParseNum_ord_shift. }
  destruct ((ch =? 0x74)%Z || (ch =? 0x66)%Z || (ch =? 0x6e)%Z).
  { apply ParseBoolNull_shift. }
  split; reflexivity.
Qed.

End ShiftNumbers.

Section FuelMonotone.
Context (input : list rune).

Lemma ParseArrayLike_loop_mono (p p' : ParseFunc) (close : string) :
  (forall cur r, p input cur = Done r -> p' input cur = Done r) ->
  forall (fuel fuel' next : nat) (arr : list JsonValue) (r : parsed),
    fuel <= fuel' ->
    ParseArrayLike_loop fuel p close input next arr = Done r ->
    ParseArrayLike_loop fuel' p' close input next arr = Done r.
Proof.
  intros Hp. induction fuel as [|fuel IH]; intros fuel' next arr r Hle H;
    [discriminate|].
  destruct fuel' as [|fuel']; [lia|]. cbn [ParseArrayLike_loop] in H |- *.
  destruct (p input next) as [[[v n1] err]| |] eqn:Hi; cbn [mbind outcome_bind] in H;
    try discriminate.
  rewrite (Hp _ _ Hi). cbn [mbind outcome_bind].
  destruct err as [e|]; [exact H|].
  destruct (Consume input n1 tok_comma) as [n2 [e2|]]; [exact H|].
  apply (IH fuel'); [lia | exact H].
Qed.

Lemma ParseKeyValue_mono (p p' : ParseFunc) :
  (forall cur r, p input cur = Done r -> p' input cur = Done r) ->
  forall cur r, ParseKeyValue p input cur = Done r -> ParseKeyValue p' input cur = Done r.
Proof.
  intros Hp cur r. unfold ParseKeyValue.
  destruct (ParseString input cur) as [[[key n1] [e1|]]| |]; cbn [mbind outcome_bind];
    try (intros H; exact H).
  destruct (Consume input n1 tok_colon) as [n2 [e2|]]; [intros H; exact H|].
  destruct (p input n2) as [[[v n3] err]| |] eqn:Hv; cbn [mbind outcome_bind];
    try discriminate.
  rewrite (Hp _ _ Hv). cbn [mbind outcome_bind]. intros H. exact H.
Qed.

Lemma ParseArrayLike_mono (p p' : ParseFunc) (bracket : string * string)
    (fuel fuel' : nat) :
  (forall cur r, p input cur = Done r -> p' input cur = Done r) ->
  fuel <= fuel' ->
  forall cur r, ParseArrayLike fuel input cur p bracket = Done r ->
                ParseArrayLike fuel' input cur p' bracket = Done r.
Proof.
  intros Hp Hle cur r. unfold ParseArrayLike.
  destruct (Consume input cur (fst bracket)) as [n1 [e1|]]; [intros H; exact H|].
  destruct (Consume input n1 (snd bracket)) as [n2 [e2|]]; [|intros H; exact H].
  apply ParseArrayLike_loop_mono; assumption.
Qed.

Lemma ParseAny_mono (fuel : nat) :
  forall (fuel' cur : nat) (r : parsed),
    fuel <= fuel' -> ParseAny fuel input cur = Done r -> ParseAny fuel' input cur = Done r.
Proof.
  induction fuel as [|fuel IH]; intros fuel' cur r Hle H; [discriminate|].
  destruct fuel' as [|fuel']; [lia|]. cbn [ParseAny] in H |- *.
  assert (Hp : forall cur r, ParseAny fuel input cur = Done r ->
                             ParseAny fuel' input cur = Done r).
  { intros c r0. apply IH. lia. }
  destruct (input !! SkipSpace input cur) as [ch|]; [|exact H].
  destruct (ch =? 0x5b)%Z.
  { exact (ParseArrayLike_mono _ _ ("[", "]") fuel fuel' Hp ltac:(lia) _ _ H). }
  destruct (ch =? 0x7b)%Z; [|exact H].
  unfold ParseMap in H |- *.
  destruct (ParseArrayLike fuel input (SkipSpace input cur) (ParseKeyValue (ParseAny fuel))
              ("{", "}")) as [ra| |] eqn:Ha; cbn [mbind outcome_bind] in H;
    try discriminate.
  rewrite (ParseArrayLike_mono _ _ ("{", "}") fuel fuel'
             (ParseKeyValue_mono _ _ Hp) ltac:(lia) _ _ Ha).
  exact H.
Qed.

End FuelMonotone.

Lemma SkipSpace_leading (sp input : list rune) (j : nat) :
  Forall (fun ch => is_space ch = true) sp -> j <= length sp ->
  SkipSpace (sp ++ input) 0 = SkipSpace (sp ++ input) j.
Proof.
  intros Hsp. induction j as [|j IH]; intros Hj; [reflexivity|].
  rewrite IH by lia. rewrite (SkipSpace_unfold _ j).
  destruct (lookup_lt_is_Some_2 sp j ltac:(lia)) as [ch Hch].
  rewrite (lookup_app_l_Some _ _ _ _ Hch).
  assert (Hs : is_space ch = true).
  { clear IH Hj. revert j Hch. induction Hsp as [|a sp Ha _ IHsp]; intros [|j] Hch;
      try discriminate; [injection Hch as <-; exact Ha | exact (IHsp _ Hch)]. }
  rewrite Hs. reflexivity.
Qed.

Lemma ParseAny_from_SkipSpace (fuel : nat) (input : list rune) (cur cur' : nat) :
  SkipSpace input cur = SkipSpace input cur' ->
  ParseAny fuel input cur = ParseAny fuel input cur'.
Proof. intros H. destruct fuel; [reflexivity|]. cbn [ParseAny]. rewrite H. reflexivity. Qed.

Lemma ParseRunes_leading_space (sp input : list rune) :
  Forall (fun ch => is_space ch = true) sp ->
  ParseRunes (sp ++ input)
  = '(value, err) ← ParseRunes input;
    Done (value, option_map (shift_ParseError (length sp)) err).
Proof.
  intros Hsp. unfold ParseRunes.
  rewrite (ParseAny_from_SkipSpace _ (sp ++ input) 0 (length sp + 0))
    by (rewrite Nat.add_0_r; apply SkipSpace_leading; [exact Hsp | lia]).
  destruct (ParseAny_total input (S (length input)) 0 ltac:(lia)) as [r Hr].
  assert (Hle : S (length input) <= S (length (sp ++ input)))
    by (rewrite length_app; lia).
  pose proof (ParseAny_mono input _ _ 0 r Hle Hr) as Hr'.
  pose proof (ParseAny_shift sp input (S (length (sp ++ input))) 0) as Hs.
  rewrite Hr. rewrite Hr' in Hs. unfold shifted in Hs.
  destruct r as [[v n] [e|]];
    destruct (ParseAny (S (length (sp ++ input))) (sp ++ input) (length sp + 0))
      as [[[v' n'] [e'|]]| |]; try contradiction; cbn [mbind outcome_bind option_map].
  - destruct Hs as [-> ->]. reflexivity.
  - destruct Hs as [-> ->]. rewrite SkipSpace_shift, length_app.
    destruct (decide (SkipSpace input n = length input)) as [Heq|Hne].
    + rewrite !bool_decide_false by lia. reflexivity.
    + rewrite !bool_decide_true by lia. reflexivity.
Qed.

(** X19: the productions read the input from the cursor on only: the same
    code points after any prefix give the same value, with the cursor and
    the position of an error moved by the length of the prefix. So white
    space before a text changes nothing in the outcome of [ParseRunes]
    but the position of the error, if there is one. *)
Theorem ParseAny_reads_from_cursor (pre input : list rune) :
  (forall fuel : nat, ignores_prefix (ParseAny fuel) pre input)
  /\ (Forall (fun ch => is_space ch = true) pre ->
      ParseRunes (pre ++ input)
      = '(value, err) ← ParseRunes input;
        Done (value, option_map (shift_ParseError (length pre)) err)).
Proof.
  split; [intros fuel; apply ParseAny_shift | apply ParseRunes_leading_space].
Qed.

Lemma ParseAny_reads_from_cursor_witness :
  ParseRunes ([0x20; 0x0a]%Z ++ [0x5b; 0x31; 0x2c; 0x5d]%Z)
  = '(value, err) ← ParseRunes [0x5b; 0x31; 0x2c; 0x5d]%Z;
    Done (value, option_map (shift_ParseError 2) err).
Proof.
  apply (proj2 (ParseAny_reads_from_cursor [0x20; 0x0a]%Z [0x5b; 0x31; 0x2c; 0x5d]%Z)).
  repeat constructor.
Defined.

(** * Further properties: white space after the text *)

Ltac token_not_empty :=
  let H := fresh in intros H; vm_compute in H; discriminate H.

Ltac token_no_space :=
  split; [token_not_empty | vm_compute; repeat constructor].

Section TrailingSpace.
Context (input sp : list rune).
Hypothesis Hsp : Forall (fun ch => is_space ch = true) sp.

Lemma lookup_ext_lt (i : nat) (ch : rune) :
  input !! i = Some ch -> (input ++ sp) !! i = Some ch.
Proof. apply lookup_app_l_Some. Qed.

Lemma lookup_ext_ge (i : nat) (ch : rune) :
  length input <= i -> (input ++ sp) !! i = Some ch -> is_space ch = true.
Proof.
  intros Hi H. rewrite lookup_app_r in H by exact Hi.
  exact (Forall_lookup_1 _ _ _ _ Hsp H).
Qed.

Lemma lookup_ext_None (i : nat) :
  input !! i = None ->
  (input ++ sp) !! i = None \/ exists ch, (input ++ sp) !! i = Some ch /\ is_space ch = true.
Proof.
  intros H. apply lookup_ge_None in H.
  destruct ((input ++ sp) !! i) as [ch|] eqn:E; [right | left; reflexivity].
  exists ch. split; [reflexivity | exact (lookup_ext_ge i ch H E)].
Qed.

Lemma at_is_ext (n : nat) (p : Z -> bool) :
  (forall ch, is_space ch = true -> p ch = false) ->
  at_is (input ++ sp) n p = at_is input n p.
Proof.
  intros Hp. unfold at_is. destruct (input !! n) as [ch|] eqn:E.
  - rewrite (lookup_ext_lt _ _ E). reflexivity.
  - destruct (lookup_ext_None n E) as [->|(ch & -> & Hch)]; [reflexivity | exact (Hp ch Hch)].
Qed.

Lemma SkipSpace_ext (n : nat) :
  forall cur : nat, n = length input - cur ->
    SkipSpace input cur < length input ->
    SkipSpace (input ++ sp) cur = SkipSpace input cur.
Proof.
  induction n as [|n IH]; intros cur Hn; rewrite (SkipSpace_unfold input cur),
    (SkipSpace_unfold (input ++ sp) cur).
  - rewrite (lookup_ge_None_2 input cur) by lia. lia.
  - destruct (input !! cur) as [ch|] eqn:E; [|lia].
    rewrite (lookup_ext_lt _ _ E). destruct (is_space ch); [|reflexivity].
    apply IH. lia.
Qed.

Lemma SkipSpace_ext_lt (cur : nat) :
  SkipSpace input cur < length input ->
  SkipSpace (input ++ sp) cur = SkipSpace input cur.
Proof. apply (SkipSpace_ext (length input - cur)). reflexivity. Qed.

Lemma SkipSpace_ext_end (n : nat) :
  forall cur : nat, n = length (input ++ sp) - cur ->
    SkipSpace input cur = length input ->
    SkipSpace (input ++ sp) cur = length (input ++ sp).
Proof.
  induction n as [|n IH]; intros cur Hn Hs; rewrite (SkipSpace_unfold (input ++ sp) cur).
  - rewrite (lookup_ge_None_2 (input ++ sp) cur) by lia. reflexivity.
  - destruct ((input ++ sp) !! cur) as [ch|] eqn:E; [|reflexivity].
    rewrite (SkipSpace_unfold input cur) in Hs.
    destruct (input !! cur) as [ch'|] eqn:E'.
    + rewrite (lookup_ext_lt _ _ E') in E. injection E as <-.
      pose proof (lookup_lt_Some _ _ _ E') as Hlt.
      destruct (is_space ch'); [apply IH; [lia | exact Hs] | lia].
    + apply lookup_ge_None in E'. rewrite (lookup_ext_ge cur ch E' E).
      apply IH; [lia | apply SkipSpace_at_end; lia].
Qed.

Lemma Consume_ext_ok (cur : nat) (tok : string) (n : nat) :
  go_runes_of_string tok <> [] ->
  Consume input cur tok = (n, None) -> Consume (input ++ sp) cur tok = (n, None).
Proof.
  intros Hne H. apply Consume_ok in H as (-> & Hle & Hall).
  assert (Hlen : 1 <= length (go_runes_of_string tok))
    by (destruct (go_runes_of_string tok); [congruence | cbn; lia]).
  pose proof (SkipSpace_ext_lt cur ltac:(lia)) as Hs.
  rewrite <- Hs. apply (proj1 (Consume_spec (input ++ sp) cur tok)).
  apply take_drop_lookups. intros j ch Hj. rewrite Hs.
  apply lookup_ext_lt. exact (Hall j ch Hj).
Qed.

Lemma Consume_ext_fail (cur : nat) (tok : string) (n : nat) (e : ParseError) :
  no_space_token tok -> n < length input ->
  Consume input cur tok = (n, Some e) ->
  exists e', Consume (input ++ sp) cur tok = (n, Some e').
Proof.
  intros [Hne Hns] Hn H. pose proof (Consume_fail_cursor _ _ _ _ _ H) as ->.
  pose proof (SkipSpace_ext_lt cur Hn) as Hs.
  destruct (Consume_cases (input ++ sp) cur tok) as [[e' He']|(_ & _ & Hall)].
  - rewrite Hs in He'. eauto.
  - exfalso. rewrite Hs in Hall.
    assert (Hin : forall j ch, go_runes_of_string tok !! j = Some ch ->
                               input !! (SkipSpace input cur + j) = Some ch).
    { intros j ch Hj. specialize (Hall j ch Hj).
      destruct (input !! (SkipSpace input cur + j)) as [x|] eqn:Ex.
      - rewrite (lookup_ext_lt _ _ Ex) in Hall. exact Hall.
      - apply lookup_ge_None in Ex. pose proof (lookup_ext_ge _ _ Ex Hall) as Hch.
        pose proof (Forall_lookup_1 _ _ _ _ Hns Hj) as Hch'. cbv beta in Hch'.
        congruence. }
    apply take_drop_lookups in Hin.
    apply (proj1 (Consume_spec input cur tok)) in Hin. congruence.
Qed.

Lemma ScanHex_loop_ext (cur n : nat) :
  forall (i : nat) (value : Z),
    cur + i + n <= length input ->
    ScanHex_loop (input ++ sp) cur n i value = ScanHex_loop input cur n i value.
Proof.
  induction n as [|n IH]; intros i value Hle; cbn [ScanHex_loop]; [reflexivity|].
  unfold Hex2Num. rewrite app_nth1 by lia.
  repeat match goal with
         | |- context [if ?c then (_, None) else _] => destruct c; [apply IH; lia|]
         end.
  reflexivity.
Qed.

Lemma ParseEscape_ext_ok (cur : nat) (value : Z) (next : nat) :
  ParseEscape input cur = (value, next, None) ->
  ParseEscape (input ++ sp) cur = (value, next, None).
Proof.
  unfold ParseEscape. destruct (input !! cur) as [ch|] eqn:E; [|discriminate].
  rewrite (lookup_ext_lt _ _ E).
  repeat match goal with
         | |- (if (?c =? 0x75)%Z then _ else _) = _ -> _ => destruct (c =? 0x75)%Z
         | |- (if ?c then _ else _) = _ -> _ => destruct c; [intros H; exact H|]
         end; [|discriminate].
  destruct (ScanHex input (S cur)) as [v [e|]] eqn:Hh; [discriminate|].
  pose proof (ScanHex_ok _ _ _ Hh) as Hle. unfold ScanHex in Hh |- *.
  rewrite length_app.
  destruct (Nat.ltb_spec (length input) (S cur + 4)) as [|_]; [lia|].
  destruct (Nat.ltb_spec (length input + length sp) (S cur + 4)) as [|_]; [lia|].
  rewrite ScanHex_loop_ext by lia. rewrite Hh. intros H. exact H.
Qed.

Lemma ParseString_loop_ext (fuel : nat) :
  forall (next : nat) (val : list rune) (s : string) (next' : nat),
    ParseString_loop fuel input next val = Done (s, next', None) ->
    ParseString_loop fuel (input ++ sp) next val = Done (s, next', None).
Proof.
  induction fuel as [|fuel IH]; intros next val s next' H; [discriminate|].
  cbn [ParseString_loop] in H |- *.
  destruct (input !! next) as [ch|] eqn:E; [|discriminate].
  rewrite (lookup_ext_lt _ _ E).
  destruct (ch =? 0x22)%Z; [exact H|].
  destruct (ch =? 0x5c)%Z.
  { destruct (ParseEscape input (S next)) as [[ch' n'] [e|]] eqn:He; [discriminate|].
    rewrite (ParseEscape_ext_ok _ _ _ He). exact (IH _ _ _ _ H). }
  destruct (IsNoEscape ch); [exact (IH _ _ _ _ H) | discriminate].
Qed.

Lemma ParseString_ext (cur : nat) (s : string) (next : nat) :
  ParseString input cur = Done (s, next, None) ->
  ParseString (input ++ sp) cur = Done (s, next, None).
Proof.
  unfold ParseString.
  destruct (Consume input cur tok_quote) as [n [e|]] eqn:Hc; [discriminate|].
  rewrite (Consume_ext_ok _ tok_quote _ ltac:(token_not_empty) Hc).
  apply Consume_ok in Hc as (_ & Hn & _). intros H.
  rewrite (ParseString_loop_fuel input _ (S (length (input ++ sp)))) in H
    by (rewrite ?length_app; lia).
  exact (ParseString_loop_ext _ _ _ _ _ H).
Qed.

Lemma ScanInt_loop_ext (n : nat) :
  forall (m next : nat) (value : Z),
    length input - next <= n -> n <= m ->
    ScanInt_loop (input ++ sp) m next value = ScanInt_loop input n next value.
Proof.
  assert (Hstop : forall m next value, input !! next = None ->
            ScanInt_loop (input ++ sp) m next value = (value, next)).
  { intros m next value E. destruct m as [|m]; [reflexivity|]. cbn [ScanInt_loop].
    destruct (lookup_ext_None next E) as [->|(ch & -> & Hch)]; [reflexivity|].
    replace (IsDigit ch) with false by (unfold IsDigit, is_space in *; lia).
    reflexivity. }
  induction n as [|n IH]; intros m next value Hn Hm.
  - cbn [ScanInt_loop]. apply Hstop. apply lookup_ge_None. lia.
  - destruct m as [|m]; [lia|]. cbn [ScanInt_loop].
    destruct (input !! next) as [ch|] eqn:E.
    + rewrite (lookup_ext_lt _ _ E). destruct (IsDigit ch); [|reflexivity].
      apply IH; lia.
    + exact (Hstop (S m) next value E).
Qed.

Lemma digit_test_rejects_space (ch : Z) : is_space ch = true -> IsDigit ch = false.
Proof. unfold IsDigit, is_space. lia. Qed.

Lemma ScanInt_ext (cur : nat) : ScanInt (input ++ sp) cur = ScanInt input cur.
Proof.
  unfold ScanInt. rewrite (at_is_ext _ _ digit_test_rejects_space).
  destruct (negb (at_is input cur IsDigit)); [reflexivity|].
  rewrite (ScanInt_loop_ext (length input - cur)); [reflexivity | lia |].
  rewrite length_app. lia.
Qed.

Lemma ParseNum_frac_loop_ext (n : nat) :
  forall (m next : nat) (frac scale : float),
    length input - next <= n -> n <= m ->
    ParseNum_frac_loop (input ++ sp) m next frac scale
    = ParseNum_frac_loop input n next frac scale.
Proof.
  assert (Hstop : forall m next frac scale, input !! next = None ->
            ParseNum_frac_loop (input ++ sp) m next frac scale = (frac, next)).
  { intros m next frac scale E. destruct m as [|m]; [reflexivity|].
    cbn [ParseNum_frac_loop].
    destruct (lookup_ext_None next E) as [->|(ch & -> & Hch)]; [reflexivity|].
    rewrite (digit_test_rejects_space ch Hch). reflexivity. }
  induction n as [|n IH]; intros m next frac scale Hn Hm.
  - cbn [ParseNum_frac_loop]. apply Hstop. apply lookup_ge_None. lia.
  - destruct m as [|m]; [lia|]. cbn [ParseNum_frac_loop].
    destruct (input !! next) as [ch|] eqn:E.
    + rewrite (lookup_ext_lt _ _ E). destruct (IsDigit ch); [|reflexivity].
      apply IH; lia.
    + exact (Hstop (S m) next frac scale E).
Qed.

Lemma ParseNum_frac_ext (next : nat) :
  ParseNum_frac (input ++ sp) next = ParseNum_frac input next.
Proof.
  unfold ParseNum_frac.
  rewrite (at_is_ext next (Z.eqb 0x2e))
    by (intros ch Hch; unfold is_space in Hch; lia).
  destruct (at_is input next (Z.eqb 0x2e)); [|reflexivity].
  rewrite (at_is_ext _ _ digit_test_rejects_space).
  destruct (negb (at_is input (S next) IsDigit)); [reflexivity|].
  rewrite (ParseNum_frac_loop_ext (length input - S next)); [reflexivity | lia |].
  rewrite length_app. lia.
Qed.

Lemma no_space_token_minus : no_space_token tok_minus.
Proof. token_no_space. Qed.

Lemma no_space_token_plus : no_space_token tok_plus.
Proof. token_no_space. Qed.

Lemma no_space_token_comma : no_space_token tok_comma.
Proof. token_no_space. Qed.

Lemma ParseNum_exp_ext (next : nat) (hasexp : bool) (expnum : Z) (next' : nat) :
  ParseNum_exp sign_literals input next = (hasexp, expnum, next', None) ->
  ParseNum_exp sign_literals (input ++ sp) next = (hasexp, expnum, next', None).
Proof.
  unfold ParseNum_exp.
  rewrite (at_is_ext next (fun ch => (ch =? 0x65)%Z || (ch =? 0x45)%Z))
    by (intros ch Hch; unfold is_space in Hch; lia).
  destruct (at_is input next _); [|intros H; exact H].
  unfold sign_literals. cbn [ParseNum_sign_loop].
  assert (Hdigit : forall n v n', ScanInt input n = (v, n', None) -> n < length input).
  { intros n v n' H. apply ScanInt_ok in H. lia. }
  destruct (Consume input (S next) tok_plus) as [n1 [e1|]] eqn:Hc1.
  - destruct (Consume input n1 tok_minus) as [n2 [e2|]] eqn:Hc2.
    + destruct (ScanInt input n2) as [[v n3] [e3|]] eqn:Hi; [discriminate|].
      pose proof (Hdigit _ _ _ Hi) as Hn2.
      pose proof (Consume_fail_cursor _ _ _ _ _ Hc2) as Hs2.
      pose proof (Consume_fail_cursor _ _ _ _ _ Hc1) as Hs1.
      assert (Hn1 : n1 < length input).
      { rewrite Hs2, Hs1, SkipSpace_idempotent, <- Hs1 in Hn2. exact Hn2. }
      destruct (Consume_ext_fail _ _ _ _ no_space_token_plus Hn1 Hc1) as [e1' ->].
      destruct (Consume_ext_fail _ _ _ _ no_space_token_minus Hn2 Hc2) as [e2' ->].
      rewrite ScanInt_ext, Hi. intros H. exact H.
    + destruct (ScanInt input n2) as [[v n3] [e3|]] eqn:Hi; [discriminate|].
      pose proof (Consume_ok _ _ _ _ Hc2) as (Hs2 & Hle2 & _).
      pose proof (Consume_fail_cursor _ _ _ _ _ Hc1) as Hs1.
      assert (Hn1 : n1 < length input).
      { rewrite Hs1, SkipSpace_idempotent, <- Hs1 in Hs2. cbn in Hs2. lia. }
      destruct (Consume_ext_fail _ _ _ _ no_space_token_plus Hn1 Hc1) as [e1' ->].
      rewrite (Consume_ext_ok _ tok_minus _ ltac:(token_not_empty) Hc2).
      rewrite ScanInt_ext, Hi. intros H. exact H.
  - rewrite (Consume_ext_ok _ tok_plus _ ltac:(token_not_empty) Hc1).
    rewrite ScanInt_ext. intros H. exact H.
Qed.

Lemma ParseNum_ext (cur : nat) (value : JsonValue) (next : nat) :
  ParseNum input cur = (value, next, None) ->
  ParseNum (input ++ sp) cur = (value, next, None).
Proof.
  unfold ParseNum, ParseNum_ord.
  destruct (Consume input cur tok_minus) as [n1 suberr] eqn:Hc.
  destruct (input !! n1) as [ch0|] eqn:E0; [|discriminate].
  pose proof (lookup_lt_Some _ _ _ E0) as Hn1.
  assert (Hc' : exists suberr',
            Consume (input ++ sp) cur tok_minus = (n1, suberr')
            /\ match suberr' with Some _ => false | None => true end
               = match suberr with Some _ => false | None => true end).
  { destruct suberr as [e|].
    - destruct (Consume_ext_fail _ _ _ _ no_space_token_minus Hn1 Hc) as [e' He'].
      exists (Some e'). split; [exact He' | reflexivity].
    - exists None. split; [|reflexivity].
      exact (Consume_ext_ok _ tok_minus _ ltac:(token_not_empty) Hc). }
  destruct Hc' as (suberr' & -> & ->). rewrite (lookup_ext_lt _ _ E0).
  assert (Hw : ParseNum_whole (input ++ sp) n1 ch0 = ParseNum_whole input n1 ch0).
  { unfold ParseNum_whole. destruct (ch0 =? 0x30)%Z; [reflexivity | apply ScanInt_ext]. }
  rewrite Hw. destruct (ParseNum_whole input n1 ch0) as [[whole n2] [e1|]];
    [intros H; exact H|].
  rewrite ParseNum_frac_ext.
  destruct (ParseNum_frac input n2) as [[[hasfrac frac] n3] [e2|]]; [intros H; exact H|].
  destruct (ParseNum_exp sign_literals input n3) as [[[hasexp expnum] n4] [e3|]] eqn:He;
    [discriminate|].
  rewrite (ParseNum_exp_ext _ _ _ _ He). intros H. exact H.
Qed.

Lemma ParseBoolNull_ext (cur : nat) (value : JsonValue) (next : nat) :
  ParseBoolNull input cur = (value, next, None) ->
  ParseBoolNull (input ++ sp) cur = (value, next, None).
Proof.
  unfold ParseBoolNull, ParseBoolNull_ord, bool_null_literals.
  cbn [ParseBoolNull_loop].
  assert (Hfail : forall tok tok' n e n',
            no_space_token tok -> go_runes_of_string tok' <> [] ->
            Consume input cur tok = (n, Some e) ->
            Consume input cur tok' = (n', None) ->
            exists e', Consume (input ++ sp) cur tok = (n, Some e')).
  { intros tok tok' n e n' Hns Hne Hc Hc'.
    apply (Consume_ext_fail _ _ _ e Hns); [|exact Hc].
    rewrite (Consume_fail_cursor _ _ _ _ _ Hc).
    apply Consume_ok in Hc' as (-> & Hle & _).
    destruct (go_runes_of_string tok'); [congruence | cbn in Hle; lia]. }
  assert (Ht : no_space_token "true") by token_no_space.
  assert (Hf : no_space_token "false") by token_no_space.
  destruct (Consume input cur "true") as [n1 [e1|]] eqn:H1.
  - destruct (Consume input cur "false") as [n2 [e2|]] eqn:H2.
    + destruct (Consume input cur "null") as [n3 [e3|]] eqn:H3; [discriminate|].
      destruct (Hfail "true" "null" _ _ _ Ht ltac:(token_not_empty) H1 H3) as [e1' ->].
      destruct (Hfail "false" "null" _ _ _ Hf ltac:(token_not_empty) H2 H3) as [e2' ->].
      rewrite (Consume_ext_ok _ "null" _ ltac:(token_not_empty) H3). intros H. exact H.
    + destruct (Hfail "true" "false" _ _ _ Ht ltac:(token_not_empty) H1 H2) as [e1' ->].
      rewrite (Consume_ext_ok _ "false" _ ltac:(token_not_empty) H2). intros H. exact H.
  - rewrite (Consume_ext_ok _ "true" _ ltac:(token_not_empty) H1). intros H. exact H.
Qed.

Lemma ParseArrayLike_loop_ext (itemParser : ParseFunc) (close : string) :
  no_space_token close ->
  extends_success itemParser input (input ++ sp) ->
  forall (fuel next : nat) (arr : list JsonValue) (value : JsonValue) (next' : nat),
    ParseArrayLike_loop fuel itemParser close input next arr = Done (value, next', None) ->
    ParseArrayLike_loop fuel itemParser close (input ++ sp) next arr
    = Done (value, next', None).
Proof.
  intros Hclose Hitem. induction fuel as [|fuel IH]; intros next arr value next' H;
    [discriminate|].
  cbn [ParseArrayLike_loop] in H |- *.
  destruct (itemParser input next) as [[[v n1] [e1|]]| |] eqn:Hi;
    cbn [mbind outcome_bind] in H; try discriminate.
  rewrite (Hitem _ _ _ Hi). cbn [mbind outcome_bind].
  destruct (Consume input n1 tok_comma) as [n2 [e2|]] eqn:Hc1.
  - destruct (Consume input n2 close) as [n3 [e3|]] eqn:Hc2; [discriminate|].
    assert (Hn2 : n2 < length input).
    { pose proof (Consume_fail_cursor _ _ _ _ _ Hc1) as Hs1.
      apply Consume_ok in Hc2 as (Hs2 & Hle & _).
      rewrite Hs1, SkipSpace_idempotent, <- Hs1 in Hs2.
      destruct Hclose as [Hne _].
      destruct (go_runes_of_string close); [congruence | cbn in Hs2; lia]. }
    destruct (Consume_ext_fail _ _ _ _ no_space_token_comma Hn2 Hc1) as [e2' ->].
    pose proof Hc2 as Hc2'.
    rewrite (Consume_ext_ok _ _ _ (proj1 Hclose) Hc2'). exact H.
  - rewrite (Consume_ext_ok _ tok_comma _ ltac:(token_not_empty) Hc1). exact (IH _ _ _ _ H).
Qed.

Lemma ParseArrayLike_ext (fuel : nat) (itemParser : ParseFunc)
    (bracket : string * string) :
  go_runes_of_string (fst bracket) <> [] -> no_space_token (snd bracket) ->
  advancing itemParser input ->
  extends_success itemParser input (input ++ sp) ->
  extends_success (fun input cur => ParseArrayLike fuel input cur itemParser bracket)
    input (input ++ sp).
Proof.
  intros Hopen Hclose Hadv Hitem cur value next. unfold ParseArrayLike.
  destruct (Consume input cur (fst bracket)) as [n1 [e1|]] eqn:Hc1; [discriminate|].
  rewrite (Consume_ext_ok _ _ _ Hopen Hc1).
  destruct (Consume input n1 (snd bracket)) as [n2 [e2|]] eqn:Hc2.
  - intros H.
    pose proof (ParseArrayLike_loop_progress input _ _ Hadv _ _ _ _ _ H) as Hn2.
    assert (Hlt : n2 < length input) by lia.
    destruct (Consume_ext_fail _ _ _ _ Hclose Hlt Hc2) as [e2' ->].
    exact (ParseArrayLike_loop_ext _ _ Hclose Hitem _ _ _ _ _ H).
  - rewrite (Consume_ext_ok _ _ _ (proj1 Hclose) Hc2). intros H. exact H.
Qed.

Lemma ParseKeyValue_ext (parseAny : ParseFunc) :
  extends_success parseAny input (input ++ sp) ->
  extends_success (ParseKeyValue parseAny) input (input ++ sp).
Proof.
  intros Hany cur value next. unfold ParseKeyValue.
  destruct (ParseString input cur) as [[[key n1] [e1|]]| |] eqn:Hs;
    cbn [mbind outcome_bind]; try discriminate.
  rewrite (ParseString_ext _ _ _ Hs). cbn [mbind outcome_bind].
  destruct (Consume input n1 tok_colon) as [n2 [e2|]] eqn:Hc; [discriminate|].
  rewrite (Consume_ext_ok _ tok_colon _ ltac:(token_not_empty) Hc).
  destruct (parseAny input n2) as [[[v n3] [e3|]]| |] eqn:Hv;
    cbn [mbind outcome_bind]; try discriminate.
  rewrite (Hany _ _ _ Hv). cbn [mbind outcome_bind]. intros H. exact H.
Qed.

Lemma ParseAny_ext (fuel : nat) : extends_success (ParseAny fuel) input (input ++ sp).
Proof.
  induction fuel as [|fuel IH]; intros cur value next H; [discriminate|].
  cbn [ParseAny] in H |- *.
  destruct (input !! SkipSpace input cur) as [ch|] eqn:E; [|discriminate].
  rewrite (SkipSpace_ext_lt cur (lookup_lt_Some _ _ _ E)), (lookup_ext_lt _ _ E).
  pose proof (ParseAny_progress input fuel) as Hadv.
  destruct (ch =? 0x5b)%Z.
  { refine (ParseArrayLike_ext fuel _ ("[", "]") _ _ Hadv IH _ _ _ H);
      [token_not_empty | token_no_space]. }
  destruct (ch =? 0x7b)%Z.
  { apply ParseMap_ok in H as (items & jmap & Ha & Hconv & ->). unfold ParseMap.
    rewrite (ParseArrayLike_ext fuel _ ("{", "}") ltac:(token_not_empty)
               ltac:(token_no_space)
               (ParseKeyValue_progress input _ Hadv) (ParseKeyValue_ext _ IH) _ _ _ Ha).
    cbn [mbind outcome_bind]. rewrite Hconv. reflexivity. }
  destruct (ch =? 0x22)%Z.
  { destruct (ParseString input (SkipSpace input cur)) as [[[s n1] [e|]]| |] eqn:Hstr;
      cbn [mbind outcome_bind] in H; try discriminate.
    rewrite (ParseString_ext _ _ _ Hstr). exact H. }
  destruct (IsDigit ch || (ch =? 0x2d)%Z).
  { injection H as H. rewrite (ParseNum_ext _ _ _ H). reflexivity. }
  destruct ((ch =? 0x74)%Z || (ch =? 0x66)%Z || (ch =? 0x6e)%Z).
  { injection H as H. rewrite (ParseBoolNull_ext _ _ _ H). reflexivity. }
  discriminate.
Qed.

Lemma ParseRunes_ext (value : JsonValue) :
  ParseRunes input = Done (value, None) -> ParseRunes (input ++ sp) = Done (value, None).
Proof.
  unfold ParseRunes.
  destruct (ParseAny (S (length input)) input 0) as [[[v n] [e|]]| |] eqn:H;
    cbn [mbind outcome_bind]; try discriminate.
  destruct (bool_decide_reflect (SkipSpace input n ≠ length input)) as [|Hend];
    [discriminate|].
  intros [= <-]. apply dec_stable in Hend.
  assert (Hle : S (length input) <= S (length (input ++ sp)))
    by (rewrite length_app; lia).
  rewrite (ParseAny_ext _ _ _ _ (ParseAny_mono input _ _ 0 _ Hle H)).
  cbn [mbind outcome_bind].
  rewrite (SkipSpace_ext_end (length (input ++ sp) - n) n eq_refl Hend).
  rewrite bool_decide_false by auto. reflexivity.
Qed.

End TrailingSpace.

(** X20: white space after a text that parses leaves the value as it is:
    what [ParseAny] parses without error in an input it parses to the same
    value and cursor when white space is appended to the input, and
    [ParseRunes] returns the same value without error. *)
Theorem ParseRunes_ignores_trailing_space (input sp : list rune) :
  Forall (fun ch => is_space ch = true) sp ->
  (forall fuel : nat, extends_success (ParseAny fuel) input (input ++ sp))
  /\ (forall value : JsonValue,
      ParseRunes input = Done (value, None) ->
      ParseRunes (input ++ sp) = Done (value, None)).
Proof.
  intros Hsp. split.
  - intros fuel. exact (ParseAny_ext input sp Hsp fuel).
  - exact (ParseRunes_ext input sp Hsp).
Qed.

Lemma ParseRunes_ignores_trailing_space_witness :
  ParseRunes ([0x5b; 0x31; 0x5d]%Z ++ [0x20; 0x0a]%Z) = Done (JArray [JInt 1], None).
Proof.
  apply (proj2 (ParseRunes_ignores_trailing_space [0x5b; 0x31; 0x5d]%Z [0x20; 0x0a]%Z
                  ltac:(repeat constructor))).
  vm_compute. reflexivity.
Defined.

(** * Text after a value *)

Section TrailingText.
Context (input trail : list rune).



















End TrailingText.








